(** * 9487ticket: the step machine, card interaction and answer check of App

  A shallow embedding of [src/types.ts] and of the [App] component
  (state hooks, event handlers, timers and effects), followed by the
  properties of the specification that can be settled on it and by
  further properties of the code: the digest text, the countdown, the
  carousel window, what the profile records, the images, the animation
  lock, the error pulse, the order of the steps and the timelines of the
  card and of the lights.

  Conventions of the embedding
  - a JavaScript string is a [string] whose characters are code units
    below U+0100 (ASCII and Latin-1); [trim] and [toLowerCase] follow
    ECMAScript on that range;
  - a JavaScript [number] holding a card id, an index or a time in
    milliseconds is a [Z];
  - [undefined] is [None];
  - a callback handed to [setTimeout], [setInterval] or
    [requestAnimationFrame] is a constructor of [Callback] carrying the
    values its closure captured when it was created;
  - an event handler sees the state of the latest render, and the awaited
    digest of [submitCardAnswer] / [submitFinalAnswer] resolves before the
    next event is handled. *)

From Stdlib Require Import ZArith NArith List String Ascii Bool Lia.
From Stdlib Require Import Permutation DecimalString.
From Stdlib.Strings Require Import Byte.
Import ListNotations.

Local Open Scope string_scope.
Local Open Scope list_scope.
Local Open Scope Z_scope.

(* ------------------------------------------------------------------ *)
(** ** JavaScript strings *)

Module Js.

(** ECMAScript WhiteSpace and LineTerminator code points below U+0100:
    TAB, LF, VT, FF, CR, SPACE and NBSP. *)
Definition isWhiteSpace (c : ascii) : bool :=
  let n := N_of_ascii c in
  ((9 <=? n) && (n <=? 13) || (n =? 32) || (n =? 160))%N.

(** Upper-case letters below U+0100: A-Z, and U+00C0-U+00DE without the
    multiplication sign U+00D7. *)
Definition isUpper (c : ascii) : bool :=
  let n := N_of_ascii c in
  ((65 <=? n) && (n <=? 90)
   || (192 <=? n) && (n <=? 222) && negb (n =? 215))%N.

Definition lowerChar (c : ascii) : ascii :=
  if isUpper c then ascii_of_N (N_of_ascii c + 32) else c.

(** [String.prototype.toLowerCase] *)
Fixpoint toLowerCase (s : string) : string :=
  match s with
  | EmptyString => EmptyString
  | String c s' => String (lowerChar c) (toLowerCase s')
  end.

(** [String.prototype.trimStart] *)
Fixpoint trimStart (s : string) : string :=
  match s with
  | EmptyString => EmptyString
  | String c s' => if isWhiteSpace c then trimStart s' else s
  end.

(** [String.prototype.trimEnd] *)
Fixpoint trimEnd (s : string) : string :=
  match s with
  | EmptyString => EmptyString
  | String c s' =>
      match trimEnd s' with
      | EmptyString => if isWhiteSpace c then EmptyString else String c EmptyString
      | r => String c r
      end
  end.

(** [String.prototype.trim] *)
Definition trim (s : string) : string := trimEnd (trimStart s).

(** Truthiness of a string: the empty string is falsy. *)
Definition truthy (s : string) : bool :=
  match s with EmptyString => false | _ => true end.

(** [new TextEncoder().encode(text)]: UTF-8 of code units below U+0100. *)
Definition encodeChar (c : ascii) : list byte :=
  let n := N_of_ascii c in
  if (n <? 128)%N then [byte_of_ascii c]
  else [byte_of_ascii (ascii_of_N (192 + n / 64));
        byte_of_ascii (ascii_of_N (128 + n mod 64))].

Fixpoint encode (s : string) : list byte :=
  match s with
  | EmptyString => []
  | String c s' => encodeChar c ++ encode s'
  end.

Definition hexDigit (d : N) : ascii :=
  if (d <? 10)%N then ascii_of_N (48 + d) else ascii_of_N (87 + d).

(** [b.toString(16)] for a byte *)
Definition toString16 (b : byte) : string :=
  let n := Byte.to_N b in
  if (n <? 16)%N then String (hexDigit n) EmptyString
  else String (hexDigit (n / 16)) (String (hexDigit (n mod 16)) EmptyString).

(** [s.padStart(2, '0')] *)
Definition padStart2 (s : string) : string :=
  match s with
  | EmptyString => "00"
  | String c EmptyString => String "0" (String c EmptyString)
  | _ => s
  end.

(** [hashArray.map(b => b.toString(16).padStart(2, '0')).join('')] *)
Fixpoint hexOfBytes (bs : list byte) : string :=
  match bs with
  | [] => EmptyString
  | b :: bs' => (padStart2 (toString16 b) ++ hexOfBytes bs')%string
  end.



Fixpoint allWhite (s : string) : bool :=
  match s with
  | EmptyString => true
  | String c s' => isWhiteSpace c && allWhite s'
  end.


Definition startsWhite (s : string) : bool :=
  match s with EmptyString => false | String c _ => isWhiteSpace c end.

Fixpoint endsWhite (s : string) : bool :=
  match s with
  | EmptyString => false
  | String c EmptyString => isWhiteSpace c
  | String _ s' => endsWhite s'
  end.

(** The digits of lower-case hexadecimal. *)
Definition isLowerHex (c : ascii) : bool :=
  let n := N_of_ascii c in
  ((48 <=? n) && (n <=? 57) || (97 <=? n) && (n <=? 102))%N.

Fixpoint allChars (p : ascii -> bool) (s : string) : bool :=
  match s with
  | EmptyString => true
  | String c s' => p c && allChars p s'
  end.




(** The text that a template literal substitutes for an integer [n]:
    its decimal digits, after a minus sign when it is negative. *)
Definition numberToString (n : Z) : string :=
  NilZero.string_of_int (Z.to_int n).

End Js.

(* ------------------------------------------------------------------ *)
(** ** src/types.ts *)

Module Types.

Inductive AppStep : Type :=
| HOME | START | NAME | CAROUSEL
| CARD_BACK
| LIGHT_1 | LIGHT_2 | LIGHT_3
| END.

(** The enum object of [AppStep]: member names in declaration order. *)
Definition AppStep_members : list (string * AppStep) :=
  [ ("HOME", HOME); ("START", START); ("NAME", NAME);
    ("CAROUSEL", CAROUSEL); ("CARD_BACK", CARD_BACK);
    ("LIGHT_1", LIGHT_1); ("LIGHT_2", LIGHT_2); ("LIGHT_3", LIGHT_3);
    ("END", END) ].

Fixpoint lookupMember (n : string) (ms : list (string * AppStep))
  : option AppStep :=
  match ms with
  | [] => None
  | (k, v) :: ms' => if String.eqb n k then Some v else lookupMember n ms'
  end.

(** The property access [AppStep.n]; a name that is not a member
    evaluates to [undefined]. *)
Definition AppStep_ (n : string) : option AppStep :=
  lookupMember n AppStep_members.

Definition AppStep_eqb (a b : AppStep) : bool :=
  match a, b with
  | HOME, HOME | START, START | NAME, NAME | CAROUSEL, CAROUSEL
  | CARD_BACK, CARD_BACK | LIGHT_1, LIGHT_1 | LIGHT_2, LIGHT_2
  | LIGHT_3, LIGHT_3 | END, END => true
  | _, _ => false
  end.

(** [===] on step values (a member or [undefined]). *)
Definition stepEq (a b : option AppStep) : bool :=
  match a, b with
  | Some x, Some y => AppStep_eqb x y
  | None, None => true
  | _, _ => false
  end.

Record UserState : Type := mkUser {
  name : string;
  solvedCards : list Z;
  finalSolved : bool
}.

Record CardConfig : Type := mkCard {
  id : Z;
  answer : string
}.

(** The step names as the specification lists them. *)
Definition spec_Step_names : list string :=
  [ "HOME"; "START"; "NAME"; "CAROUSEL"; "LIGHT_1"; "LIGHT_2"; "LIGHT_3";
    "LIGHT_4"; "END" ].

End Types.

(* ------------------------------------------------------------------ *)
(** ** The App component *)

Module App.

Import Types.

(** [timeLeft], the countdown text: the empty initial string, the literal
    00:00:00, or the days, hours, minutes and seconds of the template. *)
Inductive TimeLeft : Type :=
| TLBlank
| TLZero
| TLRemaining (d h m s : Z).

(** The closures handed to [setTimeout], [setInterval] and
    [requestAnimationFrame], with the render values they capture. *)
Inductive Callback : Type :=
| CbCountdown
| CbClearShake
| CbNameDone
| CbOpenFrame
| CbOpenFlip
| CbOpenUnlock
| CbCloseShrink (solved : bool) (active : option Z) (solvedSeen : list Z)
| CbCloseCommit (solved : bool) (active : option Z) (solvedSeen : list Z)
| CbSetStep (target : option AppStep).

(** A pending timer: the instant it is due and its callback. *)
Definition Timer : Type := (Z * Callback)%type.

Record AppState : Type := mkState {
  step : option AppStep;
  user : UserState;
  isTransitioning : bool;
  carouselIndex : Z;
  activeCardId : option Z;
  isExpanded : bool;
  isFlipped : bool;
  isAnimating : bool;
  inputName : string;
  inputCardAnswer : string;
  inputFinalAnswer : string;
  shakeError : bool;
  isMusicPlaying : bool;
  isGameLive : bool;
  timeLeft : TimeLeft;
  now : Z;
  timers : list Timer
}.

Definition setStepRaw v st :=
  mkState v (user st) (isTransitioning st) (carouselIndex st)
    (activeCardId st) (isExpanded st) (isFlipped st) (isAnimating st)
    (inputName st) (inputCardAnswer st) (inputFinalAnswer st) (shakeError st)
    (isMusicPlaying st) (isGameLive st) (timeLeft st) (now st) (timers st).
Definition setUser v st :=
  mkState (step st) v (isTransitioning st) (carouselIndex st)
    (activeCardId st) (isExpanded st) (isFlipped st) (isAnimating st)
    (inputName st) (inputCardAnswer st) (inputFinalAnswer st) (shakeError st)
    (isMusicPlaying st) (isGameLive st) (timeLeft st) (now st) (timers st).
Definition setIsTransitioning v st :=
  mkState (step st) (user st) v (carouselIndex st)
    (activeCardId st) (isExpanded st) (isFlipped st) (isAnimating st)
    (inputName st) (inputCardAnswer st) (inputFinalAnswer st) (shakeError st)
    (isMusicPlaying st) (isGameLive st) (timeLeft st) (now st) (timers st).
Definition setCarouselIndex v st :=
  mkState (step st) (user st) (isTransitioning st) v
    (activeCardId st) (isExpanded st) (isFlipped st) (isAnimating st)
    (inputName st) (inputCardAnswer st) (inputFinalAnswer st) (shakeError st)
    (isMusicPlaying st) (isGameLive st) (timeLeft st) (now st) (timers st).
Definition setActiveCardId v st :=
  mkState (step st) (user st) (isTransitioning st) (carouselIndex st)
    v (isExpanded st) (isFlipped st) (isAnimating st)
    (inputName st) (inputCardAnswer st) (inputFinalAnswer st) (shakeError st)
    (isMusicPlaying st) (isGameLive st) (timeLeft st) (now st) (timers st).
Definition setIsExpanded v st :=
  mkState (step st) (user st) (isTransitioning st) (carouselIndex st)
    (activeCardId st) v (isFlipped st) (isAnimating st)
    (inputName st) (inputCardAnswer st) (inputFinalAnswer st) (shakeError st)
    (isMusicPlaying st) (isGameLive st) (timeLeft st) (now st) (timers st).
Definition setIsFlipped v st :=
  mkState (step st) (user st) (isTransitioning st) (carouselIndex st)
    (activeCardId st) (isExpanded st) v (isAnimating st)
    (inputName st) (inputCardAnswer st) (inputFinalAnswer st) (shakeError st)
    (isMusicPlaying st) (isGameLive st) (timeLeft st) (now st) (timers st).
Definition setIsAnimating v st :=
  mkState (step st) (user st) (isTransitioning st) (carouselIndex st)
    (activeCardId st) (isExpanded st) (isFlipped st) v
    (inputName st) (inputCardAnswer st) (inputFinalAnswer st) (shakeError st)
    (isMusicPlaying st) (isGameLive st) (timeLeft st) (now st) (timers st).
Definition setInputName v st :=
  mkState (step st) (user st) (isTransitioning st) (carouselIndex st)
    (activeCardId st) (isExpanded st) (isFlipped st) (isAnimating st)
    v (inputCardAnswer st) (inputFinalAnswer st) (shakeError st)
    (isMusicPlaying st) (isGameLive st) (timeLeft st) (now st) (timers st).
Definition setInputCardAnswer v st :=
  mkState (step st) (user st) (isTransitioning st) (carouselIndex st)
    (activeCardId st) (isExpanded st) (isFlipped st) (isAnimating st)
    (inputName st) v (inputFinalAnswer st) (shakeError st)
    (isMusicPlaying st) (isGameLive st) (timeLeft st) (now st) (timers st).
Definition setInputFinalAnswer v st :=
  mkState (step st) (user st) (isTransitioning st) (carouselIndex st)
    (activeCardId st) (isExpanded st) (isFlipped st) (isAnimating st)
    (inputName st) (inputCardAnswer st) v (shakeError st)
    (isMusicPlaying st) (isGameLive st) (timeLeft st) (now st) (timers st).
Definition setShakeError v st :=
  mkState (step st) (user st) (isTransitioning st) (carouselIndex st)
    (activeCardId st) (isExpanded st) (isFlipped st) (isAnimating st)
    (inputName st) (inputCardAnswer st) (inputFinalAnswer st) v
    (isMusicPlaying st) (isGameLive st) (timeLeft st) (now st) (timers st).
Definition setIsMusicPlaying v st :=
  mkState (step st) (user st) (isTransitioning st) (carouselIndex st)
    (activeCardId st) (isExpanded st) (isFlipped st) (isAnimating st)
    (inputName st) (inputCardAnswer st) (inputFinalAnswer st) (shakeError st)
    v (isGameLive st) (timeLeft st) (now st) (timers st).
Definition setIsGameLive v st :=
  mkState (step st) (user st) (isTransitioning st) (carouselIndex st)
    (activeCardId st) (isExpanded st) (isFlipped st) (isAnimating st)
    (inputName st) (inputCardAnswer st) (inputFinalAnswer st) (shakeError st)
    (isMusicPlaying st) v (timeLeft st) (now st) (timers st).
Definition setTimeLeft v st :=
  mkState (step st) (user st) (isTransitioning st) (carouselIndex st)
    (activeCardId st) (isExpanded st) (isFlipped st) (isAnimating st)
    (inputName st) (inputCardAnswer st) (inputFinalAnswer st) (shakeError st)
    (isMusicPlaying st) (isGameLive st) v (now st) (timers st).
Definition setNow v st :=
  mkState (step st) (user st) (isTransitioning st) (carouselIndex st)
    (activeCardId st) (isExpanded st) (isFlipped st) (isAnimating st)
    (inputName st) (inputCardAnswer st) (inputFinalAnswer st) (shakeError st)
    (isMusicPlaying st) (isGameLive st) (timeLeft st) v (timers st).
Definition setTimers v st :=
  mkState (step st) (user st) (isTransitioning st) (carouselIndex st)
    (activeCardId st) (isExpanded st) (isFlipped st) (isAnimating st)
    (inputName st) (inputCardAnswer st) (inputFinalAnswer st) (shakeError st)
    (isMusicPlaying st) (isGameLive st) (timeLeft st) (now st) v.

(** [setTimeout(cb, delay)]: the handle is dropped at every call site of
    App, so a timer leaves the pending list only by firing. *)
Definition setTimeout (cb : Callback) (delay : Z) (st : AppState) : AppState :=
  setTimers (timers st ++ [(now st + delay, cb)]) st.

(** [requestAnimationFrame(cb)]: runs before the next repaint, taken as
    the current instant. *)
Definition requestAnimationFrame (cb : Callback) (st : AppState) : AppState :=
  setTimeout cb 0 st.

(** [CAROUSEL_LAYOUT.visibleCount] *)
Definition visibleCount : Z := 4.

(** [Array.prototype.slice(start, end)] *)
Definition slice {A} (l : list A) (from to : Z) : list A :=
  let len := Z.of_nat (List.length l) in
  let norm k := if k <? 0 then Z.max (len + k) 0 else Z.min k len in
  let a := norm from in
  let b := norm to in
  firstn (Z.to_nat (b - a)) (skipn (Z.to_nat a) l).

(** Truthiness of [activeCardId]: [null] and [0] are falsy. *)
Definition truthyId (a : option Z) : bool :=
  match a with
  | Some i => negb (i =? 0)
  | None => false
  end.

(** [solvedCards.includes(id)] *)
Definition includes (l : list Z) (i : Z) : bool := existsb (Z.eqb i) l.

Definition optZ_eqb (a : option Z) (i : Z) : bool :=
  match a with Some j => j =? i | None => false end.

Section WithConstants.

(** The values imported from [./constants], which is not part of the
    sources: the test-mode flag, [new Date(TARGET_DATE).getTime()], the card
    list and the digest of the final answer. *)
Variable TEST_MODE : bool.
Variable TARGET_DATE : Z.
Variable CARDS_CONFIG : list CardConfig.
Variable FINAL_ANSWER : string.

(** [crypto.subtle.digest('SHA-256', _)], a function of the platform. *)
Variable sha256 : list byte -> list byte.

(** [hashString] *)
Definition hashString (text : string) : string :=
  Js.hexOfBytes (sha256 (Js.encode text)).

(** The check shared by [submitCardAnswer] and [submitFinalAnswer]:
    [hashString(input.trim().toLowerCase()) === digest]. *)
Definition answerMatches (input digest : string) : bool :=
  String.eqb (hashString (Js.toLowerCase (Js.trim input))) digest.

(** The Light effect, run after a render that changed [step]; it returns
    no cleanup. *)
Definition lightEffect (st : AppState) : AppState :=
  let st1 :=
    if stepEq (step st) (AppStep_ "LIGHT_1")
    then setTimeout (CbSetStep (AppStep_ "LIGHT_2")) 2500 st else st in
  let st2 :=
    if stepEq (step st1) (AppStep_ "LIGHT_2")
    then setTimeout (CbSetStep (AppStep_ "LIGHT_3")) 1200 st1 else st1 in
  if stepEq (step st2) (AppStep_ "LIGHT_4")
  then setTimeout (CbSetStep (AppStep_ "END")) 1200 st2 else st2.

(** [setStep(v)]: an unchanged value causes no render and no effect. *)
Definition setStep (v : option AppStep) (st : AppState) : AppState :=
  if stepEq (step st) v then st else lightEffect (setStepRaw v st).

(** The initializer of [isGameLive] at wall-clock time [t]. *)
Definition initialGameLive (t : Z) : bool :=
  if TEST_MODE then true else TARGET_DATE <=? t.

(** The body of the countdown interval; [clearInterval] is the absence of
    the re-arming. *)
Definition countdownTick (st : AppState) : AppState :=
  let diff := TARGET_DATE - now st in
  if diff <? 0 then setTimeLeft TLZero (setIsGameLive true st)
  else
    let d := diff / (1000 * 60 * 60 * 24) in
    let h := (diff / (1000 * 60 * 60)) mod 24 in
    let m := (diff / 1000 / 60) mod 60 in
    let s := (diff / 1000) mod 60 in
    setTimeout CbCountdown 1000 (setTimeLeft (TLRemaining d h m s) st).

(** The state of the first render, mounted at wall-clock time [t], after
    its effects have run. *)
Definition init (t : Z) : AppState :=
  let live := initialGameLive t in
  mkState (AppStep_ "HOME") (mkUser "" [] false) false 0 None false false
    false "" "" "" false false live TLBlank t
    (if live then [] else [(t + 1000, CbCountdown)]).

Definition toggleMusic (st : AppState) : AppState :=
  setIsMusicPlaying (negb (isMusicPlaying st)) st.

Definition handleError (st : AppState) : AppState :=
  setTimeout CbClearShake 500 (setShakeError true st).

Definition handleNameSubmit (st : AppState) : AppState :=
  if negb (Js.truthy (Js.trim (inputName st))) then st
  else
    let u := user st in
    setTimeout CbNameDone 1000
      (setIsTransitioning true
         (setUser (mkUser (Js.trim (inputName st)) (solvedCards u)
                     (finalSolved u)) st)).

Definition handlePrev (st : AppState) : AppState :=
  if 0 <? carouselIndex st
  then setCarouselIndex (carouselIndex st - 3) st else st.

Definition handleNext (st : AppState) : AppState :=
  if carouselIndex st + visibleCount <? Z.of_nat (List.length CARDS_CONFIG)
  then setCarouselIndex (carouselIndex st + 3) st else st.

Definition openCard (i : Z) (st : AppState) : AppState :=
  if isAnimating st then st
  else
    requestAnimationFrame CbOpenFrame
      (setInputCardAnswer ""
         (setActiveCardId (Some i) (setIsAnimating true st))).

Definition closeCard (solved : bool) (st : AppState) : AppState :=
  if isAnimating st then st
  else
    setTimeout
      (CbCloseShrink solved (activeCardId st) (solvedCards (user st))) 600
      (setIsFlipped false (setIsAnimating true st)).

(** The innermost timeout of [closeCard], with the [solved],
    [activeCardId] and [user.solvedCards] of the render that called
    [closeCard]. *)
Definition closeCommit (solved : bool) (active : option Z)
    (solvedSeen : list Z) (st : AppState) : AppState :=
  let st1 := setIsAnimating false (setActiveCardId None st) in
  match active with
  | Some i =>
      if solved && truthyId active then
        let newSolved := solvedSeen ++ [i] in
        let u := user st1 in
        let st2 := setUser (mkUser (name u) newSolved (finalSolved u)) st1 in
        if Nat.eqb (List.length newSolved) (List.length CARDS_CONFIG)
        then setTimeout (CbSetStep (AppStep_ "LIGHT_1")) 800 st2
        else st2
      else st1
  | None => st1
  end.

Definition submitCardAnswer (st : AppState) : AppState :=
  match find (fun c => optZ_eqb (activeCardId st) (id c)) CARDS_CONFIG with
  | None => st
  | Some card =>
      if answerMatches (inputCardAnswer st) (answer card)
      then closeCard true st
      else handleError st
  end.

Definition submitFinalAnswer (st : AppState) : AppState :=
  if answerMatches (inputFinalAnswer st) FINAL_ANSWER
  then setStep (AppStep_ "LIGHT_4") st
  else handleError st.

(** What a callback does when it runs. *)
Definition runCallback (cb : Callback) (st : AppState) : AppState :=
  match cb with
  | CbCountdown => countdownTick st
  | CbClearShake => setShakeError false st
  | CbNameDone => setIsTransitioning false (setStep (AppStep_ "CAROUSEL") st)
  | CbOpenFrame => setTimeout CbOpenFlip 600 (setIsExpanded true st)
  | CbOpenFlip => setTimeout CbOpenUnlock 600 (setIsFlipped true st)
  | CbOpenUnlock => setIsAnimating false st
  | CbCloseShrink s a sv =>
      setTimeout (CbCloseCommit s a sv) 600 (setIsExpanded false st)
  | CbCloseCommit s a sv => closeCommit s a sv st
  | CbSetStep v => setStep v st
  end.

(** The pending timer that fires next: the earliest due, the first
    registered among equals; and the timers left. *)
Fixpoint popEarliest (ts : list Timer) : option (Timer * list Timer) :=
  match ts with
  | [] => None
  | t :: ts' =>
      match popEarliest ts' with
      | None => Some (t, [])
      | Some (u, rest) =>
          if fst u <? fst t then Some (u, t :: rest) else Some (t, ts')
      end
  end.

(** A timer fires at its due instant (or now, when that is past). *)
Definition fireTimer (tm : Timer) (rest : list Timer) (st : AppState)
  : AppState :=
  runCallback (snd tm) (setNow (Z.max (now st) (fst tm)) (setTimers rest st)).

(** Fire the timers due up to instant [t] in order, then stop the clock
    at [t]; [None] when the fuel runs out first. *)
Fixpoint runUntil (fuel : nat) (t : Z) (st : AppState) : option AppState :=
  match popEarliest (timers st) with
  | Some (tm, rest) =>
      if fst tm <=? t then
        match fuel with
        | O => None
        | S f => runUntil f t (fireTimer tm rest st)
        end
      else Some (setNow t st)
  | None => Some (setNow t st)
  end.

(** An upper bound on the timers a pending timer can set off up to
    instant [t], itself included. *)
Definition weight (t : Z) (tm : Timer) : nat :=
  match snd tm with
  | CbCountdown =>
      if fst tm <=? t then S (Z.to_nat ((t - fst tm) / 1000)) else O
  | CbClearShake | CbNameDone | CbOpenUnlock => 1%nat
  | CbOpenFlip => 2%nat
  | CbOpenFrame => 3%nat
  | CbSetStep (Some LIGHT_1) => 3%nat
  | CbSetStep (Some LIGHT_2) => 2%nat
  | CbSetStep None => 2%nat
  | CbSetStep _ => 1%nat
  | CbCloseCommit _ _ _ => 4%nat
  | CbCloseShrink _ _ _ => 5%nat
  end.

Definition budget (t : Z) (ts : list Timer) : nat :=
  fold_right (fun tm n => (weight t tm + n)%nat) O ts.

(** Let [d] milliseconds pass. *)
Definition elapse (d : Z) (st : AppState) : AppState :=
  let t := now st + d in
  match runUntil (budget t (timers st)) t st with
  | Some st' => st'
  | None => st
  end.

(** What is rendered, as far as it decides which controls exist. *)
Definition isStep (n : string) (st : AppState) : bool :=
  stepEq (step st) (AppStep_ n).

Definition shouldRenderGameLayer (st : AppState) : bool :=
  existsb (stepEq (step st))
    [AppStep_ "NAME"; AppStep_ "CAROUSEL"; AppStep_ "LIGHT_1";
     AppStep_ "LIGHT_2"; AppStep_ "LIGHT_3"; AppStep_ "LIGHT_4";
     AppStep_ "END"].

Definition showCarouselUI (st : AppState) : bool :=
  isStep "NAME" st || isStep "CAROUSEL" st.

Definition isGameLayerInteractive (st : AppState) : bool :=
  negb (isStep "NAME" st).

Definition visibleCards (st : AppState) : list CardConfig :=
  slice CARDS_CONFIG (carouselIndex st) (carouselIndex st + visibleCount).

Definition prevDisabled (st : AppState) : bool := carouselIndex st =? 0.

Definition nextDisabled (st : AppState) : bool :=
  Z.of_nat (List.length CARDS_CONFIG) <=? carouselIndex st + visibleCount.

(** The [onClick] of a carousel card. *)
Definition cardClick (card : CardConfig) (st : AppState) : AppState :=
  let isSolved := includes (solvedCards (user st)) (id card) in
  let isActive := optZ_eqb (activeCardId st) (id card) in
  if isGameLayerInteractive st && negb isActive && negb isSolved
  then openCard (id card) st else st.

Definition cardOverlayShown (st : AppState) : bool :=
  shouldRenderGameLayer st && showCarouselUI st &&
  match activeCardId st with Some _ => true | None => false end.

(** What the user and the clock can do. A control that is not rendered,
    or is disabled, ignores the event. *)
Inductive Event : Type :=
| ClickHome
| ClickStart
| ChangeName (s : string)
| ClickNameSubmit
| ClickPrev
| ClickNext
| ClickCard (k : nat)
| ChangeCardAnswer (s : string)
| ClickCardSubmit
| ClickCardBack
| ChangeFinalAnswer (s : string)
| ClickFinalSubmit
| ClickMusic
| Elapse (d : Z).

Definition handle (e : Event) (st : AppState) : AppState :=
  match e with
  | ClickHome =>
      if isStep "HOME" st && isGameLive st
      then setStep (AppStep_ "START") st else st
  | ClickStart =>
      if isStep "START" st then setStep (AppStep_ "NAME") st else st
  | ChangeName s => if isStep "NAME" st then setInputName s st else st
  | ClickNameSubmit => if isStep "NAME" st then handleNameSubmit st else st
  | ClickPrev =>
      if shouldRenderGameLayer st && showCarouselUI st && negb (prevDisabled st)
      then handlePrev st else st
  | ClickNext =>
      if shouldRenderGameLayer st && showCarouselUI st && negb (nextDisabled st)
      then handleNext st else st
  | ClickCard k =>
      if shouldRenderGameLayer st && showCarouselUI st then
        match nth_error (visibleCards st) k with
        | Some card => cardClick card st
        | None => st
        end
      else st
  | ChangeCardAnswer s =>
      if cardOverlayShown st then setInputCardAnswer s st else st
  | ClickCardSubmit => if cardOverlayShown st then submitCardAnswer st else st
  | ClickCardBack => if cardOverlayShown st then closeCard false st else st
  | ChangeFinalAnswer s =>
      if shouldRenderGameLayer st && isStep "LIGHT_3" st
      then setInputFinalAnswer s st else st
  | ClickFinalSubmit =>
      if shouldRenderGameLayer st && isStep "LIGHT_3" st
      then submitFinalAnswer st else st
  | ClickMusic => toggleMusic st
  | Elapse d => if 0 <=? d then elapse d st else st
  end.

Definition run (evs : list Event) (st : AppState) : AppState :=
  fold_left (fun s e => handle e s) evs st.

(** What the two carousel handlers keep: the window start is a multiple
    of the page step, with at least two cards from it on unless it is 0. *)
Definition windowOk (st : AppState) : Prop :=
  (exists k, 0 <= k /\ carouselIndex st = 3 * k) /\
  (carouselIndex st = 0 \/
   carouselIndex st + 2 <= Z.of_nat (List.length CARDS_CONFIG)).

(** The callbacks of the open and close animations. *)
Definition isAnimCb (cb : Callback) : bool :=
  match cb with
  | CbOpenFrame | CbOpenFlip | CbOpenUnlock
  | CbCloseShrink _ _ _ | CbCloseCommit _ _ _ => true
  | _ => false
  end.

Definition animCount (ts : list Timer) : nat :=
  List.length (filter (fun tm => isAnimCb (snd tm)) ts).

(** A pending close callback captured the active card and the solved
    list that are still current. *)
Definition closureOk (a : option Z) (sv : list Z) (tm : Timer) : Prop :=
  match snd tm with
  | CbCloseShrink _ a' sv' | CbCloseCommit _ a' sv' => a' = a /\ sv' = sv
  | _ => True
  end.

(** What the card interaction keeps in every reachable state. *)
Definition cardInv (st : AppState) : Prop :=
  NoDup (solvedCards (user st)) /\
  incl (solvedCards (user st)) (map id CARDS_CONFIG) /\
  (forall i, activeCardId st = Some i ->
             ~ In i (solvedCards (user st)) /\ In i (map id CARDS_CONFIG)) /\
  (animCount (timers st) <= (if isAnimating st then 1 else 0))%nat /\
  Forall (closureOk (activeCardId st) (solvedCards (user st))) (timers st).

(** The step values of the transitions that do not name LIGHT_4, and the
    value of the name LIGHT_4. *)
Definition stepOk (v : option AppStep) : Prop :=
  v = AppStep_ "LIGHT_4" \/
  exists m, v = Some m /\
            In m [HOME; START; NAME; CAROUSEL; LIGHT_1; LIGHT_2; LIGHT_3; END].

Definition stepTimerOk (tm : Timer) : Prop :=
  match snd tm with
  | CbSetStep v => stepOk v
  | _ => True
  end.

Definition stepInv (st : AppState) : Prop :=
  stepOk (step st) /\ Forall stepTimerOk (timers st).

(** The steps before the carousel, and what can be pending in them: on
    HOME the countdown interval while the game is not live, on START
    nothing, on NAME the fades of name submissions. A step timer never
    leads back to one of them. *)
Definition isEarly (v : option AppStep) : bool :=
  match v with
  | Some HOME | Some START | Some NAME => true
  | _ => false
  end.

Definition lateTimer (tm : Timer) : Prop :=
  match snd tm with
  | CbSetStep v => isEarly v = false
  | _ => True
  end.

Definition earlyInv (st : AppState) : Prop :=
  Forall lateTimer (timers st) /\
  (isEarly (step st) = true -> activeCardId st = None) /\
  (step st = Some HOME ->
   timers st = [] \/
   (isGameLive st = false /\ exists due, timers st = [(due, CbCountdown)])) /\
  (step st = Some START -> timers st = []) /\
  (step st = Some NAME ->
   Forall (fun tm => snd tm = CbNameDone) (timers st)).

(** A sequence of calls of the two carousel handlers. *)
Inductive NavCall : Type := CallPrev | CallNext.

Definition navigate (calls : list NavCall) (st : AppState) : AppState :=
  fold_left
    (fun s c => match c with CallPrev => handlePrev s | CallNext => handleNext s end)
    calls st.

(** The states the component can be in: mounted at some instant, then any
    events. *)
Definition reachable (st : AppState) : Prop :=
  exists t0 evs, st = run evs (init t0).

(** [showCarouselBg] *)
Definition showCarouselBg (st : AppState) : bool :=
  existsb (stepEq (step st))
    [AppStep_ "NAME"; AppStep_ "CAROUSEL"; AppStep_ "LIGHT_1"].

(** The file name of one side of a card, as the template literals of the
    preload effect and of the render spell it. *)
Definition cardImage (i : Z) (side : string) : string :=
  ("card_" ++ Js.numberToString i ++ "_" ++ side ++ ".png")%string.

(** The names that the preload effect hands to [getImg], in order. *)
Definition preloadImages : list string :=
  ["home.png"; "start.png"; "name.png"; "carousel.png"]
  ++ map (fun c => cardImage (id c) "front") CARDS_CONFIG
  ++ map (fun c => cardImage (id c) "back") CARDS_CONFIG
  ++ ["light_1.png"; "light_2.png"; "light_3.png"; "light_4.png";
      "end.png"].

(** The names that the [img] elements of a render hand to [getImg], in
    document order. *)
Definition renderedImages (st : AppState) : list string :=
  (if isStep "HOME" st then ["home.png"] else [])
  ++ (if isStep "START" st then ["start.png"] else [])
  ++ (if isStep "NAME" st then ["name.png"] else [])
  ++ (if shouldRenderGameLayer st then
        (if showCarouselBg st then ["carousel.png"] else [])
        ++ (if showCarouselUI st then
              map (fun c => cardImage (id c) "front") (visibleCards st)
              ++ match activeCardId st with
                 | Some i => [cardImage i "front"; cardImage i "back"]
                 | None => []
                 end
            else [])
        ++ ["light_1.png"; "light_2.png"; "light_3.png"; "light_4.png"]
      else [])
  ++ (if isStep "END" st then ["end.png"] else []).

(** The place of a step value in the order the game goes through them;
    the value of the name LIGHT_4 comes between LIGHT_3 and END. *)
Definition stepRank (v : option AppStep) : nat :=
  match v with
  | Some HOME => 0
  | Some START => 1
  | Some NAME => 2
  | Some CAROUSEL => 3
  | Some CARD_BACK => 4
  | Some LIGHT_1 => 5
  | Some LIGHT_2 => 6
  | Some LIGHT_3 => 7
  | None => 8
  | Some END => 9
  end%nat.

(** The first tick of the countdown interval, counted from the mount at
    instant [t0], that runs after the target instant. *)
Definition firstLiveTick (t0 : Z) : Z := (TARGET_DATE - t0) / 1000 + 1.

(** The state of a game that is not live yet: the first page, nothing
    entered, and the countdown interval alone among the timers. *)
Definition lockedHome (st : AppState) : Prop :=
  step st = Some HOME /\ user st = mkUser "" [] false /\
  activeCardId st = None /\ carouselIndex st = 0 /\
  isAnimating st = false /\ shakeError st = false /\
  isTransitioning st = false /\
  inputName st = "" /\ inputCardAnswer st = "" /\ inputFinalAnswer st = "" /\
  Forall (fun tm => snd tm = CbCountdown) (timers st).

(** The timers that the Light effect arms after a render that changed
    the step to [v] at instant [t]. *)
Definition lightTimers (t : Z) (v : option AppStep) : list Timer :=
  match v with
  | Some LIGHT_1 => [(t + 2500, CbSetStep (Some LIGHT_2))]
  | Some LIGHT_2 => [(t + 1200, CbSetStep (Some LIGHT_3))]
  | None => [(t + 1200, CbSetStep (Some END))]
  | _ => []
  end.

Definition onCarouselPages (st : AppState) : Prop :=
  step st = Some NAME \/ step st = Some CAROUSEL.

(** What an event of the user does when it does anything: the guards
    that let it through, and the state it leaves. *)
Inductive userStep (st : AppState) : AppState -> Prop :=
| us_home :
    step st = Some HOME -> isGameLive st = true ->
    userStep st (setStepRaw (Some START) st)
| us_start :
    step st = Some START -> userStep st (setStepRaw (Some NAME) st)
| us_name s :
    step st = Some NAME -> userStep st (setInputName s st)
| us_submit :
    step st = Some NAME -> Js.truthy (Js.trim (inputName st)) = true ->
    userStep st
      (setTimeout CbNameDone 1000
         (setIsTransitioning true
            (setUser (mkUser (Js.trim (inputName st))
                        (solvedCards (user st)) (finalSolved (user st)))
               st)))
| us_prev :
    onCarouselPages st -> 0 < carouselIndex st ->
    userStep st (setCarouselIndex (carouselIndex st - 3) st)
| us_next :
    onCarouselPages st ->
    carouselIndex st + visibleCount < Z.of_nat (List.length CARDS_CONFIG) ->
    userStep st (setCarouselIndex (carouselIndex st + 3) st)
| us_open card :
    step st = Some CAROUSEL -> In card (visibleCards st) ->
    activeCardId st <> Some (id card) ->
    ~ In (id card) (solvedCards (user st)) -> isAnimating st = false ->
    userStep st
      (requestAnimationFrame CbOpenFrame
         (setInputCardAnswer ""
            (setActiveCardId (Some (id card)) (setIsAnimating true st))))
| us_card_answer s :
    onCarouselPages st -> activeCardId st <> None ->
    userStep st (setInputCardAnswer s st)
| us_solve card i :
    onCarouselPages st -> activeCardId st = Some i ->
    In card CARDS_CONFIG -> id card = i ->
    answerMatches (inputCardAnswer st) (answer card) = true ->
    isAnimating st = false ->
    userStep st
      (setTimeout (CbCloseShrink true (Some i) (solvedCards (user st))) 600
         (setIsFlipped false (setIsAnimating true st)))
| us_back i :
    onCarouselPages st -> activeCardId st = Some i ->
    isAnimating st = false ->
    userStep st
      (setTimeout (CbCloseShrink false (Some i) (solvedCards (user st))) 600
         (setIsFlipped false (setIsAnimating true st)))
| us_reject :
    (onCarouselPages st /\ activeCardId st <> None) \/
    step st = Some LIGHT_3 ->
    userStep st (setTimeout CbClearShake 500 (setShakeError true st))
| us_final_answer s :
    step st = Some LIGHT_3 -> userStep st (setInputFinalAnswer s st)
| us_final :
    step st = Some LIGHT_3 ->
    answerMatches (inputFinalAnswer st) FINAL_ANSWER = true ->
    userStep st
      (setTimers (timers st ++ [(now st + 1200, CbSetStep (Some END))])
         (setStepRaw None st))
| us_music :
    userStep st (setIsMusicPlaying (negb (isMusicPlaying st)) st).

(** The three invariants of the reachable states together. *)
Definition baseInv (st : AppState) : Prop :=
  stepInv st /\ cardInv st /\ earlyInv st.

(** A card id that some input answers: a card of the configuration
    carries it, and the input passes the answer check of that card. *)
Definition answered (i : Z) : Prop :=
  exists card input,
    In card CARDS_CONFIG /\ id card = i /\
    answerMatches input (answer card) = true.

Definition earned (i : Z) : Prop := i <> 0 /\ answered i.

(** What a pending close callback captured: a solved list of earned
    ids, and an answered card when it was created by a solve. *)
Definition closureEarned (tm : Timer) : Prop :=
  match snd tm with
  | CbCloseShrink s a sv | CbCloseCommit s a sv =>
      Forall earned sv /\ (s = true -> forall i, a = Some i -> answered i)
  | _ => True
  end.

Definition solvedInv (st : AppState) : Prop :=
  Forall earned (solvedCards (user st)) /\
  Forall closureEarned (timers st) /\
  finalSolved (user st) = false.

(** The name of the profile: trimmed, and not empty once a name fade is
    pending or the step is past NAME. *)
Definition nameInv (st : AppState) : Prop :=
  Js.startsWhite (name (user st)) = false /\
  Js.endsWhite (name (user st)) = false /\
  (isEarly (step st) = false \/ (step st = Some NAME /\ timers st <> []) ->
   Js.truthy (name (user st)) = true).

(** The steps after the carousel. *)
Definition pastCarousel (v : option AppStep) : bool :=
  match v with
  | Some LIGHT_1 | Some LIGHT_2 | Some LIGHT_3 | None | Some END => true
  | _ => false
  end.

Definition isStepTimer (tm : Timer) : Prop :=
  exists v, snd tm = CbSetStep v.

(** The lights are entered, or about to be, only with as many solved
    cards as there are cards. *)
Definition lightsInv (st : AppState) : Prop :=
  pastCarousel (step st) = true \/ Exists isStepTimer (timers st) ->
  List.length (solvedCards (user st)) = List.length CARDS_CONFIG /\
  solvedCards (user st) <> [].

(** Some input passes the check of the final answer. *)
Definition finalAnswered : Prop :=
  exists input, answerMatches input FINAL_ANSWER = true.

Definition leadsToEnd (tm : Timer) : Prop :=
  snd tm = CbSetStep None \/ snd tm = CbSetStep (Some END).

Definition finalInv (st : AppState) : Prop :=
  step st = None \/ step st = Some END \/ Exists leadsToEnd (timers st) ->
  finalAnswered.

(** No pending timer is overdue. *)
Definition timely (st : AppState) : Prop :=
  Forall (fun tm => now st <= fst tm) (timers st).

(** From the instant an animation callback is due, the time until the
    callback that releases the lock has run. *)
Definition unlockAfter (cb : Callback) : Z :=
  match cb with
  | CbOpenFrame => 1200
  | CbOpenFlip | CbCloseShrink _ _ _ => 600
  | _ => 0
  end.

(** The card flags while an animation callback is pending. *)
Definition phaseFlags (cb : Callback) (st : AppState) : Prop :=
  match cb with
  | CbOpenFrame => isExpanded st = isFlipped st
  | CbOpenFlip => isExpanded st = true
  | CbOpenUnlock => isExpanded st = true /\ isFlipped st = true
  | CbCloseShrink _ _ _ => isExpanded st = true /\ isFlipped st = false
  | CbCloseCommit _ _ _ => isExpanded st = false /\ isFlipped st = false
  | _ => True
  end.

Definition animOk (st : AppState) (tm : Timer) : Prop :=
  isAnimCb (snd tm) = true ->
  activeCardId st <> None /\ phaseFlags (snd tm) st /\
  fst tm + unlockAfter (snd tm) <= now st + 1200.

(** The card at rest: closed, or open with its back showing. *)
Definition atRest (st : AppState) : Prop :=
  (activeCardId st = None /\ isExpanded st = false /\ isFlipped st = false)
  \/
  (activeCardId st <> None /\ isExpanded st = true /\ isFlipped st = true).

(** The animation lock: held exactly while an animation callback is
    pending, the card at rest otherwise. *)
Definition lockInv (st : AppState) : Prop :=
  timely st /\
  (if isAnimating st then (1 <= animCount (timers st))%nat
   else atRest st /\ animCount (timers st) = O) /\
  Forall (animOk st) (timers st).

(** While the error pulse is on, a callback that clears it is pending
    and due within 500 ms. *)
Definition shakeInv (st : AppState) : Prop :=
  shakeError st = true ->
  exists due, In (due, CbClearShake) (timers st) /\ due <= now st + 500.

(** An invariant of the run, case by case: the first render, the steps
    of the user, the firings, and the clock stopping at an instant before
    which nothing is pending. *)
Definition stepwise (Q : AppState -> Prop) : Prop :=
  (forall t0, Q (init t0)) /\
  (forall st st', baseInv st -> baseInv st' -> Q st -> userStep st st' ->
                  Q st') /\
  (forall st tm rest,
     baseInv st -> baseInv (fireTimer tm rest st) -> Q st ->
     popEarliest (timers st) = Some (tm, rest) -> Q (fireTimer tm rest st)) /\
  (forall st t, baseInv st -> Q st -> now st <= t ->
                (forall tm, In tm (timers st) -> t < fst tm) ->
                Q (setNow t st)).

(** The step that a step timer pending on step [v] leads to. *)
Definition nextStep (v : option AppStep) : option (option AppStep) :=
  match v with
  | Some CAROUSEL => Some (Some LIGHT_1)
  | Some LIGHT_1 => Some (Some LIGHT_2)
  | Some LIGHT_2 => Some (Some LIGHT_3)
  | None => Some (Some END)
  | _ => None
  end.

Definition isSetStep (cb : Callback) : bool :=
  match cb with CbSetStep _ => true | _ => false end.

Definition stepCount (ts : list Timer) : nat :=
  List.length (filter (fun tm => isSetStep (snd tm)) ts).

(** From the instant an animation callback is due, the least time until
    a commit of [closeCard] can run. *)
Definition commitAfter (cb : Callback) : Z :=
  match cb with
  | CbOpenFrame => 2400
  | CbOpenFlip => 1800
  | CbOpenUnlock => 1200
  | CbCloseShrink _ _ _ => 600
  | _ => 0
  end.

(** What keeps the steps in order: at most one step timer is pending and
    it leads to the step after the current one; while a name fade is
    pending the step is NAME or CAROUSEL, no step timer is pending and no
    commit can run before the fade; and a card is animated or active only
    on CAROUSEL with no step timer pending. *)
Definition orderInv (st : AppState) : Prop :=
  (stepCount (timers st) <= 1)%nat /\
  (forall due v, In (due, CbSetStep v) (timers st) ->
                 nextStep (step st) = Some v) /\
  (forall due, In (due, CbNameDone) (timers st) ->
     onCarouselPages st /\ stepCount (timers st) = O /\
     (isAnimating st = false -> due < now st + 1200) /\
     (forall a, In a (timers st) -> isAnimCb (snd a) = true ->
                due < fst a + commitAfter (snd a))) /\
  (isAnimating st = true \/ activeCardId st <> None ->
   step st = Some CAROUSEL /\ stepCount (timers st) = O).

End WithConstants.

End App.

(* ------------------------------------------------------------------ *)
(** ** A concrete configuration for worked examples *)

Module Demo.

Import Types App.

(** A stand-in for the platform digest in the examples (the bytes
    themselves); every theorem below holds for any digest function. *)
Definition digest (bs : list byte) : list byte := bs.

Definition hashOf (s : string) : string := hashString digest s.

(** Two cards, answers abc and x y; final answer 42; the target date is
    instant 0 and the component is mounted at instant 10. *)
Definition cards : list CardConfig :=
  [mkCard 1 (hashOf "abc"); mkCard 2 (hashOf "x y")].

Definition finalAnswer : string := hashOf "42".

Definition start : AppState := init false 0 10.

Definition play (evs : list Event) : AppState :=
  run 0 cards finalAnswer digest evs start.

(** From HOME to the carousel under the name Alex. *)
Definition toCarousel : list Event :=
  [ClickHome; ClickStart; ChangeName " Alex "; ClickNameSubmit; Elapse 1000].

(** Open the first visible card and wait for the flip to finish. *)
Definition openFirst : list Event := [ClickCard 0%nat; Elapse 1200].

(** Solve card 1, then card 2. *)
Definition solveFirst : list Event :=
  openFirst ++ [ChangeCardAnswer " ABC"; ClickCardSubmit; Elapse 1200].

Definition solveSecond : list Event :=
  [ClickCard 1%nat; Elapse 1200; ChangeCardAnswer "X y"; ClickCardSubmit;
   Elapse 1200].

(** The whole game, from HOME to END. *)
Definition wholeGame : list Event :=
  toCarousel ++ solveFirst ++ solveSecond ++
  [Elapse 800; Elapse 2500; Elapse 1200;
   ChangeFinalAnswer " 42 "; ClickFinalSubmit; Elapse 1200].

(** Five cards, for the carousel. *)
Definition fiveCards : list CardConfig :=
  [mkCard 1 ""; mkCard 2 ""; mkCard 3 ""; mkCard 4 ""; mkCard 5 ""].

End Demo.

(* ------------------------------------------------------------------ *)
(** ** Facts about the string functions *)

Section JsFacts.

Import Js.

Local Ltac each_char c :=
  destruct c as [[] [] [] [] [] [] [] []]; vm_compute; intuition congruence.



Lemma lowerChar_not_upper (a : ascii) : isUpper (lowerChar a) = false.
Proof. each_char a. Qed.

Lemma lowerChar_of_upper (a : ascii) :
  isUpper a = true -> lowerChar a <> a.
Proof. each_char a. Qed.








Lemma trimStart_white (w : string) : allWhite w = true -> trimStart w = "".
Proof.
  induction w as [| c w IH]; simpl; trivial.
  intros H. apply andb_prop in H as [Hc Hw]. rewrite Hc. auto.
Qed.

Lemma trimEnd_white (w : string) : allWhite w = true -> trimEnd w = "".
Proof.
  induction w as [| c w IH]; simpl; trivial.
  intros H. apply andb_prop in H as [Hc Hw]. now rewrite (IH Hw), Hc.
Qed.





Lemma trimStart_split (s : string) :
  exists w, allWhite w = true /\ s = (w ++ trimStart s)%string /\
            startsWhite (trimStart s) = false.
Proof.
  induction s as [| a s (w & Hw & Hs & Hn)]; simpl.
  - now exists "".
  - destruct (isWhiteSpace a) eqn:Ha.
    + exists (String a w). simpl. rewrite Ha, Hw. repeat split; trivial.
      now rewrite <- Hs.
    + exists "". simpl. now rewrite Ha.
Qed.

Lemma trimEnd_split (s : string) :
  exists v, allWhite v = true /\ s = (trimEnd s ++ v)%string /\
            endsWhite (trimEnd s) = false /\
            startsWhite (trimEnd s) = (startsWhite s && negb (allWhite s)).
Proof.
  induction s as [| a s (v & Hv & Hs & Hn & Hst)]; simpl.
  - now exists "".
  - destruct (trimEnd s) as [| b r] eqn:Ht.
    + simpl in Hs. subst v. rewrite Hv.
      destruct (isWhiteSpace a) eqn:Ha.
      * exists (String a s). simpl. now rewrite Ha, Hv.
      * exists s. simpl. now rewrite Ha.
    + exists v. simpl in *. rewrite <- Hs. repeat split; trivial.
      destruct (allWhite s) eqn:Hw.
      * rewrite (trimEnd_white _ Hw) in Ht. discriminate.
      * now rewrite andb_false_r, andb_true_r.
Qed.

(** [trim] removes whitespace at both ends and nothing else. *)
Lemma trim_split (s : string) :
  exists w v, allWhite w = true /\ allWhite v = true /\
              s = (w ++ trim s ++ v)%string /\
              startsWhite (trim s) = false /\ endsWhite (trim s) = false.
Proof.
  destruct (trimStart_split s) as (w & Hw & Hs & Hn).
  destruct (trimEnd_split (trimStart s)) as (v & Hv & Hs' & Hn' & Hst).
  exists w, v. unfold trim. repeat split; trivial.
  - now rewrite <- Hs', <- Hs.
  - now rewrite Hst, Hn.
Qed.

Lemma trim_white (s : string) : allWhite s = true -> trim s = "".
Proof. intros H. unfold trim. now rewrite (trimStart_white _ H). Qed.

Lemma allWhite_app (a b : string) :
  allWhite (a ++ b) = allWhite a && allWhite b.
Proof.
  induction a as [| c a IH]; simpl; trivial. now rewrite IH, andb_assoc.
Qed.

Lemma trim_not_white (s : string) : allWhite s = false -> truthy (trim s) = true.
Proof.
  intros H. destruct (trim_split s) as (w & v & Hw & Hv & Hs & _).
  destruct (trim s); simpl; trivial.
  rewrite Hs in H. simpl in H. rewrite allWhite_app, Hw, Hv in H. discriminate.
Qed.

Lemma hexOfByte_digits (b : byte) :
  padStart2 (toString16 b) =
    String (hexDigit (Byte.to_N b / 16))
      (String (hexDigit (Byte.to_N b mod 16)) "") /\
  isLowerHex (hexDigit (Byte.to_N b / 16)) = true /\
  isLowerHex (hexDigit (Byte.to_N b mod 16)) = true.
Proof. destruct b; vm_compute; repeat split. Qed.

(** The digest text is two lower-case hexadecimal digits per byte. *)
Lemma hexOfBytes_lower (bs : list byte) :
  allChars isLowerHex (hexOfBytes bs) = true /\
  String.length (hexOfBytes bs) = (2 * List.length bs)%nat.
Proof.
  induction bs as [| b bs [IH1 IH2]]; simpl; [now split |].
  destruct (hexOfByte_digits b) as (-> & Hh & Hl). simpl.
  rewrite Hh, Hl, IH1, IH2. split; trivial. lia.
Qed.

End JsFacts.

(* ------------------------------------------------------------------ *)
(** ** The answer check *)

Section AnswerCheck.

Import Js App.

Variable sha256 : list byte -> list byte.



End AnswerCheck.


(* ------------------------------------------------------------------ *)
(** ** Step values and the timer queue *)

Section TimerFacts.

Import Types App.

Lemma AppStep_eqb_eq (a b : AppStep) : AppStep_eqb a b = true <-> a = b.
Proof. destruct a, b; simpl; split; congruence. Qed.

Lemma stepEq_eq (a b : option AppStep) : stepEq a b = true <-> a = b.
Proof.
  destruct a as [a |], b as [b |]; simpl; try (split; congruence).
  rewrite AppStep_eqb_eq. split; congruence.
Qed.

Lemma stepEq_refl (a : option AppStep) : stepEq a a = true.
Proof. now apply stepEq_eq. Qed.

Lemma popEarliest_nil (ts : list Timer) : popEarliest ts = None -> ts = [].
Proof.
  destruct ts as [| t ts]; simpl; trivial.
  destruct (popEarliest ts) as [[u rest] |]; [| discriminate].
  destruct (fst u <? fst t); discriminate.
Qed.

Lemma popEarliest_perm (ts : list Timer) (tm : Timer) (rest : list Timer) :
  popEarliest ts = Some (tm, rest) -> Permutation ts (tm :: rest).
Proof.
  revert tm rest. induction ts as [| t ts IH]; simpl; [discriminate |].
  intros tm rest. destruct (popEarliest ts) as [[u r] |] eqn:E.
  - destruct (fst u <? fst t); intros [= <- <-].
    + rewrite (IH _ _ eq_refl). apply perm_swap.
    + reflexivity.
  - intros [= <- <-]. now rewrite (popEarliest_nil _ E).
Qed.

Lemma popEarliest_least (ts : list Timer) (tm : Timer) (rest : list Timer) :
  popEarliest ts = Some (tm, rest) ->
  forall x, In x ts -> fst tm <= fst x.
Proof.
  revert tm rest. induction ts as [| t ts IH]; simpl; [discriminate |].
  intros tm rest. destruct (popEarliest ts) as [[u r] |] eqn:E.
  - specialize (IH _ _ eq_refl).
    destruct (fst u <? fst t) eqn:C; intros [= <- <-] x [<- | Hx].
    + apply Z.ltb_lt in C. lia.
    + auto.
    + lia.
    + apply Z.ltb_ge in C. specialize (IH _ Hx). lia.
  - intros [= <- <-] x [<- | Hx]; [lia |].
    rewrite (popEarliest_nil _ E) in Hx. destruct Hx.
Qed.

(** A single pending timer is the one that fires. *)
Lemma popEarliest_one (tm : Timer) : popEarliest [tm] = Some (tm, []).
Proof. reflexivity. Qed.

Lemma budget_app (t : Z) (a b : list Timer) :
  budget t (a ++ b) = (budget t a + budget t b)%nat.
Proof. induction a as [| x a IH]; simpl; trivial. rewrite IH. lia. Qed.

Lemma budget_perm (t : Z) (a b : list Timer) :
  Permutation a b -> budget t a = budget t b.
Proof. induction 1; simpl; lia. Qed.

End TimerFacts.

Section RunFacts.

Import Types App.

Variable TARGET_DATE : Z.
Variable CARDS_CONFIG : list CardConfig.

Local Abbreviation runCb := (runCallback TARGET_DATE CARDS_CONFIG).
Local Abbreviation fire := (fireTimer TARGET_DATE CARDS_CONFIG).
Local Abbreviation runTo := (runUntil TARGET_DATE CARDS_CONFIG).

Lemma timers_setStep (v : option AppStep) (st : AppState) :
  exists new, timers (setStep v st) = timers st ++ new /\
    forall t, (budget t new < weight t (0%Z, CbSetStep v))%nat.
Proof.
  unfold setStep. destruct (stepEq (step st) v).
  - exists []. rewrite app_nil_r. split; trivial.
    intros t. destruct v as [[] |]; unfold weight; simpl; lia.
  - destruct v as [[] |]; cbn.
    all: first [ exists []; rewrite app_nil_r; split; [reflexivity |]
               | eexists; split; [reflexivity |] ].
    all: intros t; unfold weight; simpl; lia.
Qed.

Lemma countdown_weight (t due n : Z) :
  due <= t -> due <= n ->
  (weight t ((n + 1000)%Z, CbCountdown) < weight t (due, CbCountdown))%nat.
Proof.
  intros Ht Hn. unfold weight; simpl.
  rewrite (proj2 (Z.leb_le due t) Ht).
  destruct (n + 1000 <=? t) eqn:E; [| lia].
  apply Z.leb_le in E.
  assert (H1 : (t - (n + 1000)) / 1000 <= (t - due - 1000) / 1000)
    by (apply Z.div_le_mono; lia).
  assert (H2 : (t - due - 1000) / 1000 = (t - due) / 1000 - 1).
  { replace (t - due - 1000) with ((t - due) + (-1) * 1000) by lia.
    rewrite Z.div_add by lia. lia. }
  assert (H3 : 0 <= (t - (n + 1000)) / 1000) by (apply Z.div_pos; lia).
  lia.
Qed.

(** A callback only adds timers, and fewer than its weight allows. *)
Lemma runCallback_budget (t due : Z) (cb : Callback) (st : AppState) :
  due <= t -> due <= now st ->
  exists new, timers (runCb cb st) = timers st ++ new /\
    (budget t new < weight t (due, cb))%nat.
Proof.
  intros Ht Hn. destruct cb; simpl.
  - unfold countdownTick. destruct (TARGET_DATE - now st <? 0).
    + exists []. rewrite app_nil_r. split; trivial.
      unfold weight; simpl. rewrite (proj2 (Z.leb_le due t) Ht). simpl. lia.
    + eexists; split; [reflexivity |]. simpl. rewrite Nat.add_0_r.
      now apply countdown_weight.
  - exists []. rewrite app_nil_r. split; trivial. unfold weight; simpl; lia.
  - destruct (timers_setStep (AppStep_ "CAROUSEL") st) as (new & -> & Hb).
    exists new; split; [reflexivity | apply (Hb t)].
  - eexists; split; [reflexivity |]. unfold weight; simpl; lia.
  - eexists; split; [reflexivity |]. unfold weight; simpl; lia.
  - exists []. rewrite app_nil_r. split; trivial. unfold weight; simpl; lia.
  - eexists; split; [reflexivity |]. unfold weight; simpl; lia.
  - unfold closeCommit.
    destruct active as [i |]; simpl;
      [destruct solved, (negb (i =? 0)); simpl;
       [destruct (Nat.eqb _ _); simpl | ..] |].
    all: first [ exists []; rewrite app_nil_r; split; [reflexivity |]
               | eexists; split; [reflexivity |] ].
    all: unfold weight; simpl; lia.
  - destruct (timers_setStep target st) as (new & -> & Hb).
    exists new; split; [reflexivity | apply (Hb t)].
Qed.

Lemma fireTimer_budget (t : Z) (tm : Timer) (rest : list Timer)
    (st : AppState) :
  fst tm <= t ->
  (budget t (timers (fire tm rest st)) < weight t tm + budget t rest)%nat.
Proof.
  intros Ht. unfold fireTimer. destruct tm as [due cb]; simpl in *.
  destruct (runCallback_budget t due cb
              (setNow (Z.max (now st) due) (setTimers rest st)) Ht)
    as (new & -> & Hb); simpl; [lia |].
  rewrite budget_app. lia.
Qed.

(** The fuel of [elapse] is enough: every timer due up to the target
    instant fires. *)
Lemma runUntil_total (fuel : nat) (t : Z) (st : AppState) :
  (budget t (timers st) <= fuel)%nat ->
  exists st', runTo fuel t st = Some st'.
Proof.
  revert st. induction fuel as [| f IH]; intros st Hb; simpl.
  - destruct (popEarliest (timers st)) as [[tm rest] |] eqn:E; [| eauto].
    destruct (fst tm <=? t) eqn:C; [| eauto].
    apply Z.leb_le in C. exfalso.
    rewrite (budget_perm t _ _ (popEarliest_perm _ _ _ E)) in Hb. simpl in Hb.
    pose proof (fireTimer_budget t tm rest st C). lia.
  - destruct (popEarliest (timers st)) as [[tm rest] |] eqn:E; [| eauto].
    destruct (fst tm <=? t) eqn:C; [| eauto].
    apply Z.leb_le in C. apply IH.
    rewrite (budget_perm t _ _ (popEarliest_perm _ _ _ E)) in Hb. simpl in Hb.
    pose proof (fireTimer_budget t tm rest st C). lia.
Qed.

Lemma runUntil_more_fuel (f f' : nat) (t : Z) (st st' : AppState) :
  runTo f t st = Some st' -> (f <= f')%nat -> runTo f' t st = Some st'.
Proof.
  revert f' st. induction f as [| f IH]; intros f' st; simpl.
  - destruct f'; simpl; trivial;
      destruct (popEarliest (timers st)) as [[tm rest] |]; trivial;
      destruct (fst tm <=? t); trivial; discriminate.
  - destruct f' as [| f']; [lia |]. simpl.
    destruct (popEarliest (timers st)) as [[tm rest] |]; trivial.
    destruct (fst tm <=? t); trivial. intros H Hf. apply IH; trivial. lia.
Qed.

(** Whatever fuel completes the run gives the state [elapse] returns. *)
Lemma elapse_runUntil (f : nat) (d : Z) (st st' : AppState) :
  runTo f (now st + d) st = Some st' ->
  elapse TARGET_DATE CARDS_CONFIG d st = st'.
Proof.
  intros H. unfold elapse.
  destruct (runUntil_total (budget (now st + d) (timers st)) (now st + d) st
              (le_n _)) as (r & Hr).
  rewrite Hr.
  pose proof (runUntil_more_fuel _ _ _ _ _ H (Nat.le_max_l f (budget (now st + d) (timers st)))) as H1.
  pose proof (runUntil_more_fuel _ _ _ _ _ Hr (Nat.le_max_r f (budget (now st + d) (timers st)))) as H2.
  congruence.
Qed.

(** A property kept by every firing and by the clock is kept by a run. *)
Lemma runUntil_invariant (P : AppState -> Prop) :
  (forall st tm rest, P st -> popEarliest (timers st) = Some (tm, rest) ->
                      P (fire tm rest st)) ->
  (forall st t, P st -> P (setNow t st)) ->
  forall fuel t st st', P st -> runTo fuel t st = Some st' -> P st'.
Proof.
  intros Hfire Hclock fuel t. induction fuel as [| f IH]; intros st st' HP; simpl.
  - destruct (popEarliest (timers st)) as [[tm rest] |]; [| intros [= <-]; auto].
    destruct (fst tm <=? t); [discriminate | intros [= <-]; auto].
  - destruct (popEarliest (timers st)) as [[tm rest] |] eqn:E;
      [| intros [= <-]; auto].
    destruct (fst tm <=? t); [| intros [= <-]; auto].
    apply IH. eauto.
Qed.

Lemma elapse_invariant (P : AppState -> Prop) :
  (forall st tm rest, P st -> popEarliest (timers st) = Some (tm, rest) ->
                      P (fire tm rest st)) ->
  (forall st t, P st -> P (setNow t st)) ->
  forall d st, P st -> P (elapse TARGET_DATE CARDS_CONFIG d st).
Proof.
  intros Hfire Hclock d st HP. unfold elapse.
  destruct (runTo _ _ st) as [st' |] eqn:E; trivial.
  eapply runUntil_invariant; eauto.
Qed.

End RunFacts.

(* ------------------------------------------------------------------ *)
(** ** Stepping the clock on a known timer queue *)

Section Stepping.

Import Types App.

Variable TARGET_DATE : Z.
Variable CARDS_CONFIG : list CardConfig.

Local Abbreviation fire := (fireTimer TARGET_DATE CARDS_CONFIG).
Local Abbreviation runTo := (runUntil TARGET_DATE CARDS_CONFIG).

Lemma runUntil_fire (f : nat) (t : Z) (st : AppState)
    (tm : Timer) (rest : list Timer) :
  popEarliest (timers st) = Some (tm, rest) -> fst tm <= t ->
  runTo (S f) t st = runTo f t (fire tm rest st).
Proof.
  intros E H. simpl. rewrite E. now rewrite (proj2 (Z.leb_le _ _) H).
Qed.

Lemma runUntil_wait (f : nat) (t : Z) (st : AppState)
    (tm : Timer) (rest : list Timer) :
  popEarliest (timers st) = Some (tm, rest) -> t < fst tm ->
  runTo f t st = Some (setNow t st).
Proof.
  intros E H. destruct f; simpl; rewrite E;
    now rewrite (proj2 (Z.leb_gt _ _) H).
Qed.

Lemma runUntil_idle (f : nat) (t : Z) (st : AppState) :
  timers st = [] -> runTo f t st = Some (setNow t st).
Proof. intros E. destruct f; simpl; now rewrite E. Qed.

End Stepping.

Arguments App.runUntil : simpl never.
Arguments App.elapse : simpl never.

Ltac zdecide :=
  repeat match goal with
    | |- context [Z.max ?a ?b] =>
        first [ rewrite (Z.max_r a b) by lia
              | rewrite (Z.max_l a b) by lia ]
    | |- context [?a <=? ?b] =>
        first [ rewrite (proj2 (Z.leb_le a b)) by lia
              | rewrite (proj2 (Z.leb_gt a b)) by lia ]
    | |- context [?a <? ?b] =>
        first [ rewrite (proj2 (Z.ltb_lt a b)) by lia
              | rewrite (proj2 (Z.ltb_ge a b)) by lia ]
    end.

(** [flat] evaluates the setters, so that a state whose fields were named
    by [destruct] is a single record again after every step. *)
Ltac flat :=
  cbv beta iota zeta delta
    [App.fireTimer App.runCallback App.closeCommit App.closeCard App.openCard
     App.handleError App.countdownTick
     snd fst App.setTimeout App.requestAnimationFrame
     App.setStepRaw App.setUser App.setIsTransitioning App.setCarouselIndex
     App.setActiveCardId App.setIsExpanded App.setIsFlipped
     App.setIsAnimating App.setInputName App.setInputCardAnswer
     App.setInputFinalAnswer App.setShakeError App.setIsMusicPlaying
     App.setIsGameLive App.setTimeLeft App.setNow App.setTimers
     App.step App.user App.isTransitioning App.carouselIndex
     App.activeCardId App.isExpanded App.isFlipped App.isAnimating
     App.inputName App.inputCardAnswer App.inputFinalAnswer App.shakeError
     App.isMusicPlaying App.isGameLive App.timeLeft App.now App.timers
     andb negb App.truthyId];
  rewrite ?app_nil_l.

(** [flat_in H] is [flat] in a hypothesis. *)
Ltac flat_in H :=
  cbv beta iota zeta delta
    [App.fireTimer App.runCallback App.closeCommit App.closeCard App.openCard
     App.handleError App.countdownTick
     snd fst App.setTimeout App.requestAnimationFrame
     App.setStepRaw App.setUser App.setIsTransitioning App.setCarouselIndex
     App.setActiveCardId App.setIsExpanded App.setIsFlipped
     App.setIsAnimating App.setInputName App.setInputCardAnswer
     App.setInputFinalAnswer App.setShakeError App.setIsMusicPlaying
     App.setIsGameLive App.setTimeLeft App.setNow App.setTimers
     App.step App.user App.isTransitioning App.carouselIndex
     App.activeCardId App.isExpanded App.isFlipped App.isAnimating
     App.inputName App.inputCardAnswer App.inputFinalAnswer App.shakeError
     App.isMusicPlaying App.isGameLive App.timeLeft App.now App.timers
     andb negb App.truthyId] in H;
  rewrite ?app_nil_l in H.

Ltac name_fields st :=
  destruct st; cbn [App.step App.user App.isTransitioning App.carouselIndex
     App.activeCardId App.isExpanded App.isFlipped App.isAnimating
     App.inputName App.inputCardAnswer App.inputFinalAnswer App.shakeError
     App.isMusicPlaying App.isGameLive App.timeLeft App.now App.timers] in *;
  subst.

(** [fire_next] fires the earliest pending timer of the run in the goal,
    [stop_clock] ends a run whose pending timers are all due later. *)
Ltac pop_known :=
  repeat (cbn [App.popEarliest App.timers fst snd app]; zdecide);
  reflexivity.

Ltac fire_next :=
  erewrite runUntil_fire; [ | pop_known | cbn [fst snd]; lia ];
  flat; zdecide.

Ltac stop_clock :=
  first [ erewrite runUntil_wait; [ | pop_known | cbn [fst snd]; lia ]
        | rewrite runUntil_idle by reflexivity ];
  flat.

(** [elapse_with n tac]: replace the [elapse] of the goal by the state
    that [tac] shows a run of fuel [n] to end in. *)
Ltac elapse_with n tac :=
  erewrite (elapse_runUntil _ _ n); [ | flat; tac ]; flat.

Section CardFacts.

Import Types App.

Variable TARGET_DATE : Z.
Variable CARDS_CONFIG : list CardConfig.

Local Abbreviation elapse' := (elapse TARGET_DATE CARDS_CONFIG).

Lemma includes_In (l : list Z) (i : Z) : includes l i = true <-> In i l.
Proof.
  unfold includes. rewrite existsb_exists. split.
  - intros (x & Hx & E). apply Z.eqb_eq in E. now subst.
  - intros H. exists i. split; trivial. apply Z.eqb_refl.
Qed.

(** C10. Closing the card whose id is 0 with solved = true, from rest,
    leaves solvedCards as it was and schedules no transition to LIGHT_1
    (the commit is guarded by the truthiness of the captured active id);
    for a card with a nonzero id the commit appends the id and schedules
    LIGHT_1 after 800 ms when the new length equals the number of cards. *)
Theorem closeCard_zero_id_never_solved (st : AppState)
    (Hlock : isAnimating st = false) (Hquiet : timers st = []) :
  let st' := elapse' 1200 (closeCard true st) in
  (activeCardId st = Some 0 ->
     solvedCards (user st') = solvedCards (user st) /\
     timers st' = [] /\ step st' = step st) /\
  (forall i, i <> 0 -> activeCardId st = Some i ->
     solvedCards (user st') = solvedCards (user st) ++ [i] /\
     timers st' =
       if Nat.eqb (List.length (solvedCards (user st) ++ [i]))
                  (List.length CARDS_CONFIG)
       then [(now st + 2000, CbSetStep (Some LIGHT_1))] else []).
Proof.
  intros st'. subst st'. name_fields st. flat. split.
  - intros [= ->].
    elapse_with 2%nat ltac:(do 2 fire_next; stop_clock; reflexivity).
    auto.
  - intros i Hi [= ->]. apply Z.eqb_neq in Hi.
    destruct (Nat.eqb (List.length (solvedCards user0 ++ [i]))
                (List.length CARDS_CONFIG)) eqn:EN.
    + elapse_with 2%nat ltac:(do 2 fire_next; rewrite Hi, EN;
                              stop_clock; reflexivity).
      replace (now0 + 600 + 600 + 800) with (now0 + 2000) by lia.
      now split.
    + elapse_with 2%nat ltac:(do 2 fire_next; rewrite Hi, EN;
                              stop_clock; reflexivity).
      now split.
Qed.

(** C5, as the code has it. A click on a card is ignored while the
    animation lock is held, when the card is the active one, and when its
    id is in solvedCards; [openCard] itself checks the lock only, so a
    second open before the lock clears changes nothing and the first card
    stays the active one. *)
Theorem open_ignored_when_locked_same_or_solved
    (st : AppState) (card : CardConfig) (i j : Z)
    (H : isAnimating st = true \/ activeCardId st = Some (id card) \/
         In (id card) (solvedCards (user st))) :
  cardClick card st = st /\
  (isAnimating st = true -> openCard i st = st) /\
  openCard j (openCard i st) = openCard i st /\
  (isAnimating st = false ->
   activeCardId (openCard j (openCard i st)) = Some i).
Proof.
  repeat split.
  - unfold cardClick, openCard.
    destruct H as [H | [H | H]].
    + rewrite H. now destruct (_ && _).
    + rewrite H. simpl. rewrite Z.eqb_refl. simpl.
      now rewrite andb_false_r.
    + apply includes_In in H. rewrite H. simpl. now rewrite andb_false_r.
  - unfold openCard. now intros ->.
  - unfold openCard. destruct (isAnimating st) eqn:E; [now rewrite E |].
    reflexivity.
  - unfold openCard. now intros ->.
Qed.

(** C8 at its boundary. A tick that runs at the target instant itself
    (remaining = 0) leaves the flag as it was, whereas the initializer at
    that same instant already gives true; so does a mount one second
    earlier whose first tick falls on the target. *)
Theorem countdown_tick_at_target_stays_locked (st : AppState) :
  isGameLive (countdownTick TARGET_DATE (setNow TARGET_DATE st))
    = isGameLive st /\
  initialGameLive false TARGET_DATE TARGET_DATE = true /\
  isGameLive (init false 5000 4000) = false /\
  isGameLive (elapse 5000 CARDS_CONFIG 1000 (init false 5000 4000)) = false /\
  isGameLive (elapse 5000 CARDS_CONFIG 2000 (init false 5000 4000)) = true.
Proof.
  split; [| split; [| split; [| split]]].
  - unfold countdownTick. simpl. rewrite Z.sub_diag. reflexivity.
  - unfold initialGameLive. apply Z.leb_refl.
  - reflexivity.
  - vm_compute. reflexivity.
  - vm_compute. reflexivity.
Qed.

End CardFacts.

(* ------------------------------------------------------------------ *)
(** ** Timers are never cancelled *)

Section StepTimers.

Import Types App.

Variable TARGET_DATE : Z.
Variable CARDS_CONFIG : list CardConfig.
Variable FINAL_ANSWER : string.
Variable sha256 : list byte -> list byte.

Local Abbreviation handle' :=
  (handle TARGET_DATE CARDS_CONFIG FINAL_ANSWER sha256).



End StepTimers.

(** [elapse_at d n tac]: as [elapse_with], for the [elapse] of [d]
    milliseconds. *)
Ltac elapse_at d n tac :=
  erewrite (elapse_runUntil _ _ n d); [ | flat; tac ]; flat.

Section PulseFacts.

Import Types App.

Variable TARGET_DATE : Z.
Variable CARDS_CONFIG : list CardConfig.
Variable FINAL_ANSWER : string.
Variable sha256 : list byte -> list byte.

Local Abbreviation elapse' := (elapse TARGET_DATE CARDS_CONFIG).

(** C6, as the code has it. A rejected submission is [handleError]: it
    turns the pulse on and arms a clear 500 ms later, and the pulse is on
    throughout those 500 ms and off at their end. A second rejection [d]
    ms into the pulse arms a second clear and leaves the first in place, so
    the pulse goes off 500 ms after the first rejection, [d] ms before the
    500 ms of the second are over. *)
Theorem error_pulse_cleared_by_first_timer (st : AppState) (d : Z)
    (Hquiet : timers st = []) (Hd : 0 <= d < 500) :
  (forall card,
     find (fun c => optZ_eqb (activeCardId st) (id c)) CARDS_CONFIG
       = Some card ->
     answerMatches sha256 (inputCardAnswer st) (answer card) = false ->
     submitCardAnswer CARDS_CONFIG sha256 st = handleError st) /\
  (answerMatches sha256 (inputFinalAnswer st) FINAL_ANSWER = false ->
   submitFinalAnswer FINAL_ANSWER sha256 st = handleError st) /\
  shakeError (handleError st) = true /\
  (forall e, 0 <= e < 500 -> shakeError (elapse' e (handleError st)) = true) /\
  shakeError (elapse' 500 (handleError st)) = false /\
  (let st2 := handleError (elapse' d (handleError st)) in
   shakeError st2 = true /\
   timers st2 =
     [(now st + 500, CbClearShake); (now st + d + 500, CbClearShake)] /\
   shakeError (elapse' (500 - d) st2) = false /\
   now (elapse' (500 - d) st2) = now st + 500).
Proof.
  split; [| split; [| split; [| split; [| split]]]].
  - intros card Hf Hm. unfold submitCardAnswer. now rewrite Hf, Hm.
  - intros Hm. unfold submitFinalAnswer. now rewrite Hm.
  - reflexivity.
  - intros e He. name_fields st.
    elapse_at e 0%nat ltac:(stop_clock; reflexivity). reflexivity.
  - name_fields st.
    elapse_at 500 1%nat ltac:(fire_next; stop_clock; reflexivity).
    reflexivity.
  - cbv zeta. name_fields st.
    elapse_at d 0%nat ltac:(stop_clock; reflexivity).
    split; [reflexivity | split; [reflexivity |]].
    destruct (Z.eq_dec d 0) as [-> | Hne].
    + elapse_at (500 - 0) 2%nat ltac:(do 2 fire_next; stop_clock; reflexivity).
      split; [reflexivity | lia].
    + elapse_at (500 - d) 1%nat ltac:(fire_next; stop_clock; reflexivity).
      split; [reflexivity | lia].
Qed.

End PulseFacts.

(* ------------------------------------------------------------------ *)
(** ** The carousel *)

Section CarouselFacts.

Import Types App.

Variable CARDS_CONFIG : list CardConfig.

Local Abbreviation total := (Z.of_nat (List.length CARDS_CONFIG)).

Lemma handlePrev_windowOk (st : AppState) :
  windowOk CARDS_CONFIG st -> windowOk CARDS_CONFIG (handlePrev st).
Proof.
  intros [(k & Hk & E) Hb]. unfold handlePrev.
  destruct (0 <? carouselIndex st) eqn:C; [| now split; eauto].
  apply Z.ltb_lt in C. split; cbn [carouselIndex setCarouselIndex].
  - exists (k - 1). split; lia.
  - lia.
Qed.

Lemma handleNext_windowOk (st : AppState) :
  windowOk CARDS_CONFIG st -> windowOk CARDS_CONFIG (handleNext CARDS_CONFIG st).
Proof.
  intros [(k & Hk & E) Hb]. unfold handleNext, visibleCount.
  destruct (carouselIndex st + 4 <? total) eqn:C; [| now split; eauto].
  apply Z.ltb_lt in C. split; cbn [carouselIndex setCarouselIndex].
  - exists (k + 1). split; lia.
  - lia.
Qed.

Lemma navigate_windowOk (calls : list NavCall) (st : AppState) :
  windowOk CARDS_CONFIG st -> windowOk CARDS_CONFIG (navigate CARDS_CONFIG calls st).
Proof.
  revert st. induction calls as [| c calls IH]; intros st H; simpl; trivial.
  apply IH. destruct c; [apply handlePrev_windowOk | apply handleNext_windowOk];
    trivial.
Qed.

(** C4, as the code has it. Whatever the number of cards and the calls of
    prev and next from window start 0, the window start is a multiple of 3
    within [0, max(0, total - 2)]; next is disabled exactly when window
    start + window size >= total, prev exactly when the window start is 0,
    and a handler does nothing exactly when its button is disabled. *)
Theorem carousel_window_bounds (calls : list NavCall) (st : AppState)
    (H0 : carouselIndex st = 0) :
  let st' := navigate CARDS_CONFIG calls st in
  0 <= carouselIndex st' <= Z.max 0 (total - 2) /\
  carouselIndex st' mod 3 = 0 /\
  (nextDisabled CARDS_CONFIG st' = true <->
     carouselIndex st' + visibleCount >= total) /\
  (nextDisabled CARDS_CONFIG st' = true <->
     handleNext CARDS_CONFIG st' = st') /\
  (prevDisabled st' = true <-> carouselIndex st' = 0) /\
  (prevDisabled st' = true <-> handlePrev st' = st').
Proof.
  intros st'.
  assert (Hok : windowOk CARDS_CONFIG st').
  { apply navigate_windowOk. split; [exists 0; lia | now left]. }
  destruct Hok as [(k & Hk & E) Hb].
  split; [lia |]. split.
  { rewrite E, Z.mul_comm. apply Z.mod_mul. lia. }
  unfold nextDisabled, prevDisabled, handleNext, handlePrev, visibleCount.
  repeat split.
  - intros H. apply Z.leb_le in H. lia.
  - intros H. apply Z.leb_le. lia.
  - intros H. apply Z.leb_le in H.
    now rewrite (proj2 (Z.ltb_ge _ _) H).
  - intros H. apply Z.leb_le.
    destruct (carouselIndex st' + 4 <? total) eqn:C; [| now apply Z.ltb_ge].
    apply (f_equal carouselIndex) in H.
      cbn [carouselIndex setCarouselIndex] in H. lia.
  - apply Z.eqb_eq.
  - apply Z.eqb_eq.
  - intros H. apply Z.eqb_eq in H. now rewrite H.
  - intros H. apply Z.eqb_eq.
    destruct (0 <? carouselIndex st') eqn:C.
    + apply (f_equal carouselIndex) in H.
      cbn [carouselIndex setCarouselIndex] in H. lia.
    + apply Z.ltb_ge in C. lia.
Qed.

End CarouselFacts.

Lemma carousel_window_bounds_witness :
  App.carouselIndex Demo.start = 0 /\
  0 <= App.carouselIndex
         (App.navigate Demo.fiveCards [App.CallNext; App.CallNext] Demo.start)
    <= 3.
Proof.
  split; [reflexivity |].
  exact (proj1 (carousel_window_bounds Demo.fiveCards
                  [App.CallNext; App.CallNext] Demo.start eq_refl)).
Defined.

(** With five cards one call of next moves the window start to 3, beyond
    max(0, total - windowSize) = 1. *)
Lemma carousel_window_exceeds_spec_bound :
  ~ (forall (cards : list Types.CardConfig) (calls : list App.NavCall)
            (st : App.AppState),
       App.carouselIndex st = 0 ->
       0 <= App.carouselIndex (App.navigate cards calls st)
         <= Z.max 0 (Z.of_nat (List.length cards) - App.visibleCount)).
Proof.
  intros H.
  specialize (H Demo.fiveCards [App.CallNext] Demo.start eq_refl).
  vm_compute in H. destruct H as [_ H]. now apply H.
Qed.

(* ------------------------------------------------------------------ *)
(** ** Worked runs on the concrete configuration *)

Section DemoRuns.

Import Types App Demo.

Local Abbreviation elapseD := (elapse 0 cards).
Local Abbreviation handleD := (handle 0 cards finalAnswer digest).

(** The whole experience: both cards solved, the light steps, the final
    answer, END. *)
Example demo_reaches_end :
  let st := play (toCarousel ++ solveFirst ++ solveSecond ++
                  [Elapse 800; Elapse 2500; Elapse 1200;
                   ChangeFinalAnswer " 42 "; ClickFinalSubmit; Elapse 1200]) in
  step st = Some END /\ name (user st) = "Alex" /\
  solvedCards (user st) = [1; 2] /\ timers st = [].
Proof. vm_compute. repeat split. Qed.

Lemma closeCard_zero_id_never_solved_witness :
  let st := play (toCarousel ++ openFirst) in
  isAnimating st = false /\ timers st = [] /\
  solvedCards (user (elapseD 1200 (closeCard true st))) = [1].
Proof.
  assert (H1 : isAnimating (play (toCarousel ++ openFirst)) = false)
    by (vm_compute; reflexivity).
  assert (H2 : timers (play (toCarousel ++ openFirst)) = [])
    by (vm_compute; reflexivity).
  split; [exact H1 |]. split; [exact H2 |].
  exact (proj1 (proj2 (closeCard_zero_id_never_solved 0 cards _ H1 H2)
                  1 ltac:(lia) ltac:(vm_compute; reflexivity))).
Defined.

Lemma open_ignored_when_locked_same_or_solved_witness :
  let st := play (toCarousel ++ solveFirst) in
  In 1 (solvedCards (user st)) /\
  cardClick (mkCard 1 "") st = st.
Proof.
  assert (H : In 1 (solvedCards (user (play (toCarousel ++ solveFirst)))))
    by (vm_compute; auto).
  split; [exact H |].
  exact (proj1 (open_ignored_when_locked_same_or_solved
                  (play (toCarousel ++ solveFirst)) (mkCard 1 "") 1 2
                  (or_intror (or_intror H)))).
Defined.

(** With card 1 open and the lock clear, an open of card 2 makes card 2
    the active card: the state is not left unchanged. *)
Lemma open_replaces_the_active_card :
  let st := play (toCarousel ++ openFirst) in
  activeCardId st = Some 1 /\ isAnimating st = false /\
  activeCardId (openCard 2 st) = Some 2 /\
  activeCardId (handleD (ClickCard 1%nat) st) = Some 2 /\
  openCard 2 st <> st.
Proof.
  vm_compute. repeat split. discriminate.
Qed.




Lemma error_pulse_cleared_by_first_timer_witness :
  let st := play (toCarousel ++ openFirst) in
  timers st = [] /\ 0 <= 300 < 500 /\
  shakeError (elapseD (500 - 300) (handleError (elapseD 300 (handleError st))))
  = false.
Proof.
  assert (H : timers (play (toCarousel ++ openFirst)) = [])
    by (vm_compute; reflexivity).
  split; [exact H |]. split; [lia |].
  destruct (error_pulse_cleared_by_first_timer 0 cards finalAnswer digest
              _ 300 H ltac:(lia)) as (_ & _ & _ & _ & _ & _ & _ & H3 & _).
  exact H3.
Defined.

(** Two wrong answers 300 ms apart: 200 ms after the second one the pulse
    is already off, 300 ms before the 500 ms of the second are over. *)
Lemma second_rejection_does_not_extend_pulse :
  let st := play (toCarousel ++ openFirst ++
                  [ChangeCardAnswer "nope"; ClickCardSubmit; Elapse 300;
                   ClickCardSubmit]) in
  shakeError st = true /\
  timers st = [(now st + 200, CbClearShake); (now st + 500, CbClearShake)] /\
  shakeError (handleD (Elapse 200) st) = false.
Proof. vm_compute. repeat split. Qed.

(** CARD_BACK is a member of the enum and is not among the steps of the
    specification. *)
Lemma AppStep_members_differ_from_spec :
  ~ (forall n : string, AppStep_ n <> None <-> In n spec_Step_names).
Proof.
  intros H. destruct (H "CARD_BACK") as [H1 _].
  assert (Hin : In "CARD_BACK" spec_Step_names) by (apply H1; discriminate).
  simpl in Hin. repeat destruct Hin as [Hin | Hin]; try discriminate Hin.
  exact Hin.
Qed.

End DemoRuns.

(* ------------------------------------------------------------------ *)
(** ** Reachable states *)

Ltac steps_known :=
  change (Types.AppStep_ "HOME") with (Some Types.HOME) in *;
  change (Types.AppStep_ "START") with (Some Types.START) in *;
  change (Types.AppStep_ "NAME") with (Some Types.NAME) in *;
  change (Types.AppStep_ "CAROUSEL") with (Some Types.CAROUSEL) in *;
  change (Types.AppStep_ "LIGHT_1") with (Some Types.LIGHT_1) in *;
  change (Types.AppStep_ "LIGHT_2") with (Some Types.LIGHT_2) in *;
  change (Types.AppStep_ "LIGHT_3") with (Some Types.LIGHT_3) in *;
  change (Types.AppStep_ "LIGHT_4") with (@None Types.AppStep) in *;
  change (Types.AppStep_ "END") with (Some Types.END) in *.

Section ReachFacts.

Import Types App.

Variable TEST_MODE : bool.
Variable TARGET_DATE : Z.
Variable CARDS_CONFIG : list CardConfig.
Variable FINAL_ANSWER : string.
Variable sha256 : list byte -> list byte.

Local Abbreviation handle' :=
  (handle TARGET_DATE CARDS_CONFIG FINAL_ANSWER sha256).
Local Abbreviation run' := (run TARGET_DATE CARDS_CONFIG FINAL_ANSWER sha256).
Local Abbreviation reachable' :=
  (reachable TEST_MODE TARGET_DATE CARDS_CONFIG FINAL_ANSWER sha256).
Local Abbreviation fire := (fireTimer TARGET_DATE CARDS_CONFIG).

Lemma run_invariant (P : AppState -> Prop) :
  (forall e st, P st -> P (handle' e st)) ->
  forall evs st, P st -> P (run' evs st).
Proof.
  intros Hstep evs. unfold run.
  induction evs as [| e evs IH]; intros st HP; simpl; auto.
Qed.

Lemma reachable_invariant (P : AppState -> Prop) :
  (forall t0, P (init TEST_MODE TARGET_DATE t0)) ->
  (forall e st, P st -> P (handle' e st)) ->
  forall st, reachable' st -> P st.
Proof.
  intros Hinit Hstep st (t0 & evs & ->). apply run_invariant; auto.
Qed.

(** An invariant is kept by every event when it is kept by the events of
    the user, by each firing of a timer and by the clock. *)
Lemma handle_invariant (P : AppState -> Prop) :
  (forall e st, (forall d, e <> Elapse d) -> P st -> P (handle' e st)) ->
  (forall st tm rest, P st -> popEarliest (timers st) = Some (tm, rest) ->
                      P (fire tm rest st)) ->
  (forall st t, P st -> P (setNow t st)) ->
  forall e st, P st -> P (handle' e st).
Proof.
  intros Huser Hfire Hclock e st HP.
  destruct e; try (apply Huser; [intros ? ?; discriminate | assumption]).
  simpl. destruct (0 <=? d); trivial.
  apply elapse_invariant; auto.
Qed.

Lemma run_app (a b : list Event) (st : AppState) :
  run' (a ++ b) st = run' b (run' a st).
Proof. unfold run. apply fold_left_app. Qed.

Lemma reachable_handle (e : Event) (st : AppState) :
  reachable' st -> reachable' (handle' e st).
Proof.
  intros (t0 & evs & ->). exists t0, (evs ++ [e]). now rewrite run_app.
Qed.

Lemma Forall_pop (P : Timer -> Prop) (ts : list Timer) (tm : Timer)
    (rest : list Timer) :
  popEarliest ts = Some (tm, rest) -> Forall P ts -> P tm /\ Forall P rest.
Proof.
  intros Hpop H. apply popEarliest_perm in Hpop.
  rewrite Hpop in H. now inversion H.
Qed.

(** *** Step values *)

Lemma stepInv_ext (st st' : AppState) :
  step st' = step st -> timers st' = timers st -> stepInv st -> stepInv st'.
Proof. unfold stepInv. now intros -> ->. Qed.

Lemma stepInv_frame (st st' : AppState) (new : list Timer) :
  step st' = step st -> timers st' = timers st ++ new ->
  Forall stepTimerOk new -> stepInv st -> stepInv st'.
Proof.
  unfold stepInv. intros -> -> Hn [Hs Ht]. split; trivial.
  apply Forall_app. now split.
Qed.

Lemma stepOk_member (m : AppStep) :
  In m [HOME; START; NAME; CAROUSEL; LIGHT_1; LIGHT_2; LIGHT_3; END] ->
  stepOk (Some m).
Proof. intros H. right. now exists m. Qed.

Lemma setStep_stepInv (v : option AppStep) (st : AppState) :
  stepOk v -> stepInv st -> stepInv (setStep v st).
Proof.
  intros Hv [Hs Ht]. unfold setStep.
  destruct (stepEq (step st) v); [now split |].
  unfold lightEffect, setTimeout. steps_known.
  repeat match goal with
         | |- context [if ?c then _ else _] => destruct c
         end;
    (split; [assumption |]); simpl;
    rewrite ?Forall_app; repeat split; trivial;
    (apply Forall_cons; [| apply Forall_nil]);
    unfold stepTimerOk; cbn [snd]; apply stepOk_member; simpl; tauto.
Qed.

Lemma stepInv_user_event (e : Event) (st : AppState) :
  (forall d, e <> Elapse d) -> stepInv st -> stepInv (handle' e st).
Proof.
  intros He H.
  destruct e; try (exfalso; eapply He; reflexivity); cbn [handle].
  - destruct (_ && _); trivial. apply setStep_stepInv; [apply stepOk_member; simpl; tauto | assumption].
  - destruct (isStep _ _); trivial. apply setStep_stepInv; [apply stepOk_member; simpl; tauto | assumption].
  - destruct (isStep _ _); trivial; now apply (stepInv_ext st).
  - destruct (isStep _ _); trivial. unfold handleNameSubmit.
    destruct (negb _); trivial.
    eapply (stepInv_frame st); [reflexivity | reflexivity | | assumption].
    repeat constructor.
  - destruct (_ && _); trivial. unfold handlePrev.
    destruct (_ <? _); trivial; now apply (stepInv_ext st).
  - destruct (_ && _); trivial. unfold handleNext.
    destruct (_ <? _); trivial; now apply (stepInv_ext st).
  - destruct (_ && _); trivial. destruct (nth_error _ _); trivial.
    unfold cardClick. destruct (_ && _); trivial. unfold openCard.
    destruct (isAnimating st); trivial.
    eapply (stepInv_frame st); [reflexivity | reflexivity | | assumption].
    repeat constructor.
  - destruct (cardOverlayShown st); trivial; now apply (stepInv_ext st).
  - destruct (cardOverlayShown st); trivial. unfold submitCardAnswer.
    destruct (find _ _); trivial. destruct (answerMatches _ _ _).
    + unfold closeCard. destruct (isAnimating st); trivial.
      eapply (stepInv_frame st); [reflexivity | reflexivity | | assumption].
      repeat constructor.
    + eapply (stepInv_frame st); [reflexivity | reflexivity | | assumption].
      repeat constructor.
  - destruct (cardOverlayShown st); trivial.
    unfold closeCard. destruct (isAnimating st); trivial.
    eapply (stepInv_frame st); [reflexivity | reflexivity | | assumption].
    repeat constructor.
  - destruct (_ && _); trivial; now apply (stepInv_ext st).
  - destruct (_ && _); trivial. unfold submitFinalAnswer.
    destruct (answerMatches _ _ _).
    + apply setStep_stepInv; [now left | assumption].
    + eapply (stepInv_frame st); [reflexivity | reflexivity | | assumption].
      repeat constructor.
  - trivial; now apply (stepInv_ext st).
Qed.

Lemma stepInv_fire (st : AppState) (tm : Timer) (rest : list Timer) :
  stepInv st -> popEarliest (timers st) = Some (tm, rest) ->
  stepInv (fire tm rest st).
Proof.
  intros [Hs Ht] Hpop.
  destruct (Forall_pop _ _ _ _ Hpop Ht) as [Htm Hrest].
  assert (H0 : stepInv (setNow (Z.max (now st) (fst tm)) (setTimers rest st)))
    by now split.
  unfold fireTimer.
  set (st0 := setNow (Z.max (now st) (fst tm)) (setTimers rest st)) in *.
  clearbody st0. clear Hpop Ht Hs Hrest.
  destruct tm as [due cb]. destruct cb; cbn [snd runCallback].
  - unfold countdownTick. destruct (_ <? _).
    + now apply (stepInv_ext st0).
    + eapply (stepInv_frame st0); [reflexivity | reflexivity | | assumption].
      repeat constructor.
  - now apply (stepInv_ext st0).
  - apply (stepInv_ext (setStep (AppStep_ "CAROUSEL") st0)); trivial.
    apply setStep_stepInv; [apply stepOk_member; simpl; tauto | assumption].
  - eapply (stepInv_frame st0); [reflexivity | reflexivity | | assumption].
    repeat constructor.
  - eapply (stepInv_frame st0); [reflexivity | reflexivity | | assumption].
    repeat constructor.
  - now apply (stepInv_ext st0).
  - eapply (stepInv_frame st0); [reflexivity | reflexivity | | assumption].
    repeat constructor.
  - unfold closeCommit. destruct active as [i |];
      [| now apply (stepInv_ext st0)].
    destruct (_ && _); [| now apply (stepInv_ext st0)].
    destruct (Nat.eqb _ _); [| now apply (stepInv_ext st0)].
    eapply (stepInv_frame st0); [reflexivity | reflexivity | | assumption].
    apply Forall_cons; [| apply Forall_nil].
    unfold stepTimerOk. cbn [snd]. steps_known.
    apply stepOk_member; simpl; tauto.
  - apply setStep_stepInv; trivial.
Qed.

Lemma stepInv_reachable (st : AppState) : reachable' st -> stepInv st.
Proof.
  apply reachable_invariant.
  - intros t0. split; [apply stepOk_member; simpl; tauto |].
    unfold init. cbn [timers]. destruct (initialGameLive _ _ _);
      repeat constructor.
  - apply handle_invariant.
    + apply stepInv_user_event.
    + apply stepInv_fire.
    + intros st0 t H. now apply (stepInv_ext st0).
Qed.

End ReachFacts.

Section StepValues.

Import Types App.

Variable TEST_MODE : bool.
Variable TARGET_DATE : Z.
Variable CARDS_CONFIG : list CardConfig.
Variable FINAL_ANSWER : string.
Variable sha256 : list byte -> list byte.

(** C1, as the code has it. Leaving the name LIGHT_4 aside, the members
    of the enum are exactly HOME, START, NAME, CAROUSEL, CARD_BACK,
    LIGHT_1, LIGHT_2, LIGHT_3 and END; CARD_BACK is never assigned, and
    the step of every reachable state is one of HOME, START, NAME,
    CAROUSEL, LIGHT_1, LIGHT_2, LIGHT_3, END or the value that the name
    LIGHT_4 evaluates to. *)
Theorem step_values_are_enum_members (st : AppState) (n : string)
    (Hreach : reachable TEST_MODE TARGET_DATE CARDS_CONFIG FINAL_ANSWER
                sha256 st)
    (Hname : n <> "LIGHT_4") :
  (AppStep_ n <> None <->
   In n ["HOME"; "START"; "NAME"; "CAROUSEL"; "CARD_BACK"; "LIGHT_1";
         "LIGHT_2"; "LIGHT_3"; "END"]) /\
  (step st = AppStep_ "LIGHT_4" \/
   exists m, step st = Some m /\
             In m [HOME; START; NAME; CAROUSEL; LIGHT_1; LIGHT_2; LIGHT_3;
                   END]) /\
  step st <> Some CARD_BACK.
Proof.
  split; [| split].
  - split.
    + intros H. unfold AppStep_, AppStep_members, lookupMember in H.
      repeat match type of H with
             | context [String.eqb n ?k] =>
                 destruct (String.eqb_spec n k) as [-> | ?];
                 [simpl; tauto |]
             end.
      contradiction.
    + intros H. simpl in H.
      repeat (destruct H as [<- | H]; [vm_compute; discriminate |]).
      destruct H.
  - apply (stepInv_reachable _ _ _ _ _ _ Hreach).
  - destruct (stepInv_reachable _ _ _ _ _ _ Hreach) as [[E | (m & E & Hm)] _];
      rewrite E; [vm_compute; discriminate |].
    simpl in Hm. intros [= ->]. intuition discriminate.
Qed.

End StepValues.

Lemma step_values_are_enum_members_witness :
  App.reachable false 0 Demo.cards Demo.finalAnswer Demo.digest
    (Demo.play Demo.toCarousel) /\
  "CAROUSEL" <> "LIGHT_4" /\
  (Types.AppStep_ "CAROUSEL" <> None <->
   In "CAROUSEL" ["HOME"; "START"; "NAME"; "CAROUSEL"; "CARD_BACK";
                  "LIGHT_1"; "LIGHT_2"; "LIGHT_3"; "END"]).
Proof.
  assert (Hr : App.reachable false 0 Demo.cards Demo.finalAnswer Demo.digest
                 (Demo.play Demo.toCarousel))
    by (exists 10, Demo.toCarousel; reflexivity).
  assert (Hn : "CAROUSEL" <> "LIGHT_4") by discriminate.
  split; [exact Hr |]. split; [exact Hn |].
  exact (proj1 (step_values_are_enum_members false 0 Demo.cards
                  Demo.finalAnswer Demo.digest _ "CAROUSEL" Hr Hn)).
Defined.

(* ------------------------------------------------------------------ *)
(** ** The solved list along every run *)

Section CardInvariant.

Import Types App.

Variable TEST_MODE : bool.
Variable TARGET_DATE : Z.
Variable CARDS_CONFIG : list CardConfig.
Variable FINAL_ANSWER : string.
Variable sha256 : list byte -> list byte.

Local Abbreviation handle' :=
  (handle TARGET_DATE CARDS_CONFIG FINAL_ANSWER sha256).
Local Abbreviation reachable' :=
  (reachable TEST_MODE TARGET_DATE CARDS_CONFIG FINAL_ANSWER sha256).
Local Abbreviation fire := (fireTimer TARGET_DATE CARDS_CONFIG).
Local Abbreviation cardInv' := (cardInv CARDS_CONFIG).

Lemma animCount_app (a b : list Timer) :
  animCount (a ++ b) = (animCount a + animCount b)%nat.
Proof. unfold animCount. now rewrite filter_app, length_app. Qed.

Lemma animCount_perm (a b : list Timer) :
  Permutation a b -> animCount a = animCount b.
Proof.
  unfold animCount. induction 1 as [| x a b _ IH | x y a | a b c _ IH1 _ IH2];
    simpl; trivial.
  - destruct (isAnimCb (snd x)); simpl; now rewrite IH.
  - destruct (isAnimCb (snd x)), (isAnimCb (snd y)); reflexivity.
  - now rewrite IH1.
Qed.

Lemma animCount_pop (ts : list Timer) (tm : Timer) (rest : list Timer) :
  popEarliest ts = Some (tm, rest) ->
  animCount ts = ((if isAnimCb (snd tm) then 1 else 0) + animCount rest)%nat.
Proof.
  intros H. rewrite (animCount_perm _ _ (popEarliest_perm _ _ _ H)).
  unfold animCount. simpl. now destruct (isAnimCb (snd tm)).
Qed.

Lemma closureOk_no_anim (a : option Z) (sv : list Z) (ts : list Timer) :
  animCount ts = O -> Forall (closureOk a sv) ts.
Proof.
  unfold animCount. induction ts as [| [due cb] ts IH]; simpl; [constructor |].
  destruct (isAnimCb cb) eqn:E; simpl; [discriminate |].
  intros H. constructor; auto.
  unfold closureOk. simpl. destruct cb; trivial; discriminate.
Qed.

Lemma In_firstn {A} (n : nat) (l : list A) (x : A) :
  In x (firstn n l) -> In x l.
Proof.
  revert l. induction n as [| n IH]; intros [| y l]; simpl; try tauto.
  intros [-> | H]; auto.
Qed.

Lemma In_skipn {A} (n : nat) (l : list A) (x : A) :
  In x (skipn n l) -> In x l.
Proof.
  revert l. induction n as [| n IH]; intros [| y l]; simpl; try tauto.
  intros H. auto.
Qed.

Lemma In_slice {A} (l : list A) (a b : Z) (x : A) :
  In x (slice l a b) -> In x l.
Proof. unfold slice. intros H. eapply In_skipn, In_firstn, H. Qed.

Lemma cardInv_ext (st st' : AppState) :
  activeCardId st' = activeCardId st ->
  solvedCards (user st') = solvedCards (user st) ->
  isAnimating st' = isAnimating st ->
  timers st' = timers st ->
  cardInv' st -> cardInv' st'.
Proof. unfold cardInv. now intros -> -> -> ->. Qed.

Lemma cardInv_frame (st st' : AppState) (new : list Timer) :
  activeCardId st' = activeCardId st ->
  solvedCards (user st') = solvedCards (user st) ->
  isAnimating st' = isAnimating st ->
  timers st' = timers st ++ new ->
  animCount new = O ->
  cardInv' st -> cardInv' st'.
Proof.
  unfold cardInv. intros -> -> -> -> Hn (H1 & H2 & H3 & H4 & H5).
  split; [| split; [| split; [| split]]]; trivial.
  - rewrite animCount_app, Hn. lia.
  - apply Forall_app. split; trivial. now apply closureOk_no_anim.
Qed.

Lemma setStep_cardInv (v : option AppStep) (st : AppState) :
  cardInv' st -> cardInv' (setStep v st).
Proof.
  intros H. unfold setStep. destruct (stepEq (step st) v); trivial.
  unfold lightEffect, setTimeout.
  repeat match goal with
         | |- context [if ?c then _ else _] => destruct c
         end;
    (eapply (cardInv_frame st);
     [reflexivity | reflexivity | reflexivity
     | simpl; rewrite <- ?app_assoc; try reflexivity;
       symmetry; apply app_nil_r
     | reflexivity | assumption]).
Qed.

Lemma openCard_cardInv (i : Z) (st : AppState) :
  includes (solvedCards (user st)) i = false ->
  In i (map id CARDS_CONFIG) ->
  cardInv' st -> cardInv' (openCard i st).
Proof.
  intros Hi Hid H. unfold openCard.
  destruct (isAnimating st) eqn:E; [exact H |].
  destruct H as (H1 & H2 & H3 & H4 & H5). rewrite E in H4.
  unfold cardInv. simpl. split; [| split; [| split; [| split]]]; trivial.
  - intros j [= <-]. split; trivial.
    intros Hin. apply includes_In in Hin. congruence.
  - rewrite animCount_app. unfold animCount in *. simpl. lia.
  - apply Forall_app. split; [| repeat constructor].
    apply closureOk_no_anim. lia.
Qed.

Lemma closeCard_cardInv (s : bool) (st : AppState) :
  cardInv' st -> cardInv' (closeCard s st).
Proof.
  intros H. unfold closeCard.
  destruct (isAnimating st) eqn:E; [exact H |].
  destruct H as (H1 & H2 & H3 & H4 & H5). rewrite E in H4.
  unfold cardInv. simpl. split; [| split; [| split; [| split]]]; trivial.
  - rewrite animCount_app. unfold animCount in *. simpl. lia.
  - apply Forall_app. split; trivial. repeat constructor.
Qed.

Lemma cardInv_user_event (e : Event) (st : AppState) :
  (forall d, e <> Elapse d) -> cardInv' st -> cardInv' (handle' e st).
Proof.
  intros He H.
  destruct e; try (exfalso; eapply He; reflexivity); cbn [handle].
  - destruct (_ && _); trivial. now apply setStep_cardInv.
  - destruct (isStep _ _); trivial. now apply setStep_cardInv.
  - destruct (isStep _ _); trivial; now apply (cardInv_ext st).
  - destruct (isStep _ _); trivial. unfold handleNameSubmit.
    destruct (negb _); trivial.
    now eapply (cardInv_frame st); [reflexivity | reflexivity | reflexivity
                                   | reflexivity | reflexivity | ].
  - destruct (_ && _); trivial. unfold handlePrev.
    destruct (_ <? _); trivial; now apply (cardInv_ext st).
  - destruct (_ && _); trivial. unfold handleNext.
    destruct (_ <? _); trivial; now apply (cardInv_ext st).
  - destruct (_ && _); trivial.
    destruct (nth_error _ _) as [card |] eqn:En; trivial.
    unfold cardClick.
    destruct (isGameLayerInteractive st); simpl; trivial.
    destruct (optZ_eqb _ _); simpl; trivial.
    destruct (includes _ _) eqn:Ei; simpl; trivial.
    apply openCard_cardInv; trivial.
    apply in_map. eapply In_slice, nth_error_In, En.
  - destruct (cardOverlayShown st); trivial; now apply (cardInv_ext st).
  - destruct (cardOverlayShown st); trivial. unfold submitCardAnswer.
    destruct (find _ _); trivial. destruct (answerMatches _ _ _).
    + now apply closeCard_cardInv.
    + now eapply (cardInv_frame st); [reflexivity | reflexivity | reflexivity
                                     | reflexivity | reflexivity | ].
  - destruct (cardOverlayShown st); trivial. now apply closeCard_cardInv.
  - destruct (_ && _); trivial; now apply (cardInv_ext st).
  - destruct (_ && _); trivial. unfold submitFinalAnswer.
    destruct (answerMatches _ _ _).
    + now apply setStep_cardInv.
    + now eapply (cardInv_frame st); [reflexivity | reflexivity | reflexivity
                                     | reflexivity | reflexivity | ].
  - trivial; now apply (cardInv_ext st).
Qed.

Lemma setStep_solved (v : option AppStep) (st : AppState) :
  solvedCards (user (setStep v st)) = solvedCards (user st).
Proof.
  unfold setStep. destruct (stepEq (step st) v); trivial.
  unfold lightEffect, setTimeout.
  repeat match goal with
         | |- context [if ?c then _ else _] => destruct c
         end; reflexivity.
Qed.


(** A firing keeps the invariant and can only append to the solved
    list. *)
Lemma cardInv_fire (st : AppState) (tm : Timer) (rest : list Timer) :
  cardInv' st -> popEarliest (timers st) = Some (tm, rest) ->
  cardInv' (fire tm rest st) /\
  exists more,
    solvedCards (user (fire tm rest st)) = solvedCards (user st) ++ more.
Proof.
  intros (H1 & H2 & H3 & H4 & H5) Hpop.
  destruct (Forall_pop _ _ _ _ Hpop H5) as [Htm Hrest].
  rewrite (animCount_pop _ _ _ Hpop) in H4.
  unfold fireTimer.
  set (st0 := setNow (Z.max (now st) (fst tm)) (setTimers rest st)).
  assert (Ea : activeCardId st0 = activeCardId st) by reflexivity.
  assert (Es : solvedCards (user st0) = solvedCards (user st)) by reflexivity.
  assert (Eb : isAnimating st0 = isAnimating st) by reflexivity.
  assert (Et : timers st0 = rest) by reflexivity.
  assert (H0 : cardInv' st0).
  { unfold cardInv. rewrite Ea, Es, Eb, Et.
    split; [| split; [| split; [| split]]]; trivial.
    destruct (isAnimCb (snd tm)); lia. }
  rewrite <- Ea, <- Es in Htm. rewrite <- Eb in H4. rewrite <- Es.
  clearbody st0. clear Hpop H5 H1 H2 H3 Ea Es Eb Hrest.
  destruct tm as [due cb]. unfold closureOk in Htm.
  destruct cb; cbn [snd runCallback isAnimCb] in *.
  - split; [| exists []; rewrite app_nil_r; unfold countdownTick;
                destruct (_ <? _); reflexivity].
    unfold countdownTick. destruct (_ <? _).
    + now apply (cardInv_ext st0).
    + now eapply (cardInv_frame st0);
        [reflexivity | reflexivity | reflexivity | reflexivity
        | reflexivity | ].
  - split; [now apply (cardInv_ext st0) | exists []; now rewrite app_nil_r].
  - split.
    + apply (cardInv_ext (setStep (AppStep_ "CAROUSEL") st0)); trivial.
      now apply setStep_cardInv.
    + exists []. rewrite app_nil_r. simpl. apply setStep_solved.
  - split; [| exists []; now rewrite app_nil_r].
    destruct H0 as (H1 & H2 & H3 & _ & H5). rewrite Et in *.
    destruct (isAnimating st0) eqn:E; [| lia].
    unfold cardInv. simpl. rewrite E, Et.
    split; [| split; [| split; [| split]]]; trivial.
    + rewrite animCount_app. unfold animCount in *. simpl. lia.
    + apply Forall_app. split; trivial. repeat constructor.
  - split; [| exists []; now rewrite app_nil_r].
    destruct H0 as (H1 & H2 & H3 & _ & H5). rewrite Et in *.
    destruct (isAnimating st0) eqn:E; [| lia].
    unfold cardInv. simpl. rewrite E, Et.
    split; [| split; [| split; [| split]]]; trivial.
    + rewrite animCount_app. unfold animCount in *. simpl. lia.
    + apply Forall_app. split; trivial. repeat constructor.
  - split; [| exists []; now rewrite app_nil_r].
    destruct H0 as (H1 & H2 & H3 & _ & H5). rewrite Et in *.
    unfold cardInv. simpl. rewrite Et.
    split; [| split; [| split; [| split]]]; trivial.
    destruct (isAnimating st0); lia.
  - split; [| exists []; now rewrite app_nil_r].
    destruct Htm as [-> ->].
    destruct H0 as (H1 & H2 & H3 & _ & H5). rewrite Et in *.
    destruct (isAnimating st0) eqn:E; [| lia].
    unfold cardInv. simpl. rewrite E, Et.
    split; [| split; [| split; [| split]]]; trivial.
    + rewrite animCount_app. unfold animCount in *. simpl. lia.
    + apply Forall_app. split; trivial. repeat constructor.
  - destruct Htm as [-> ->].
    destruct H0 as (H1 & H2 & H3 & _ & H5). rewrite Et in *.
    assert (Hrest0 : animCount rest = O)
      by (destruct (isAnimating st0); lia).
    unfold closeCommit.
    destruct (activeCardId st0) as [i |] eqn:Ei.
    + destruct (H3 i eq_refl) as [Hnew Hid].
      destruct (solved && truthyId (Some i)).
      * split.
        -- assert (Hinv : cardInv'
                   (setUser (mkUser (name (user st0))
                               (solvedCards (user st0) ++ [i])
                               (finalSolved (user st0)))
                      (setIsAnimating false (setActiveCardId None st0)))).
           { unfold cardInv. simpl. rewrite Et.
             split; [| split; [| split; [| split]]].
             - apply NoDup_app; trivial; [repeat constructor; simpl; tauto |].
               intros x Hx [<- | []]. contradiction.
             - apply incl_app; trivial. intros x [<- | []]. trivial.
             - discriminate.
             - lia.
             - now apply closureOk_no_anim. }
           destruct (Nat.eqb _ _); trivial.
           match type of Hinv with
           | cardInv _ ?s =>
               eapply (cardInv_frame s);
               [reflexivity | reflexivity | reflexivity
               | reflexivity | reflexivity | exact Hinv]
           end.
        -- exists [i]. destruct (Nat.eqb _ _); reflexivity.
      * split; [| exists []; now rewrite app_nil_r].
        unfold cardInv. simpl. rewrite Et.
        split; [| split; [| split; [| split]]]; trivial;
          first [discriminate | lia | now apply closureOk_no_anim].
    + split; [| exists []; now rewrite app_nil_r].
      unfold cardInv. simpl. rewrite Et.
      split; [| split; [| split; [| split]]]; trivial;
        first [discriminate | lia | now apply closureOk_no_anim].
  - split; [now apply setStep_cardInv |].
    exists []. rewrite app_nil_r. apply setStep_solved.
Qed.

Lemma cardInv_reachable (st : AppState) : reachable' st -> cardInv' st.
Proof.
  apply reachable_invariant.
  - intros t0. unfold cardInv, init. simpl.
    split; [constructor | split; [intros x [] | split; [discriminate |]]].
    destruct (initialGameLive _ _ _); simpl; split; auto.
    repeat constructor.
  - apply handle_invariant.
    + apply cardInv_user_event.
    + intros st0 tm rest H Hpop. now apply cardInv_fire.
    + intros st0 t H. now apply (cardInv_ext st0).
Qed.


End CardInvariant.

Section SolvedList.

Import Types App.

Variable TEST_MODE : bool.
Variable TARGET_DATE : Z.
Variable CARDS_CONFIG : list CardConfig.
Variable FINAL_ANSWER : string.
Variable sha256 : list byte -> list byte.


End SolvedList.


(* ------------------------------------------------------------------ *)
(** ** The steps before the carousel *)

Section EarlySteps.

Import Types App.

Variable TEST_MODE : bool.
Variable TARGET_DATE : Z.
Variable CARDS_CONFIG : list CardConfig.
Variable FINAL_ANSWER : string.
Variable sha256 : list byte -> list byte.

Local Abbreviation handle' :=
  (handle TARGET_DATE CARDS_CONFIG FINAL_ANSWER sha256).
Local Abbreviation reachable' :=
  (reachable TEST_MODE TARGET_DATE CARDS_CONFIG FINAL_ANSWER sha256).
Local Abbreviation fire := (fireTimer TARGET_DATE CARDS_CONFIG).

Lemma isStep_eq (n : string) (st : AppState) :
  isStep n st = true -> step st = AppStep_ n.
Proof. apply stepEq_eq. Qed.

Lemma carouselShown (st : AppState) :
  shouldRenderGameLayer st && showCarouselUI st = true ->
  step st = Some NAME \/ step st = Some CAROUSEL.
Proof.
  intros H. apply andb_prop in H as [_ H]. unfold showCarouselUI in H.
  apply orb_prop in H as [H | H]; apply isStep_eq in H; auto.
Qed.

Lemma overlayShown (st : AppState) :
  cardOverlayShown st = true ->
  (step st = Some NAME \/ step st = Some CAROUSEL) /\
  activeCardId st <> None.
Proof.
  unfold cardOverlayShown. intros H. apply andb_prop in H as [H Ha].
  split; [now apply carouselShown |]. now destruct (activeCardId st).
Qed.

Lemma step_setStep (v : option AppStep) (st : AppState) :
  step (setStep v st) = v.
Proof.
  unfold setStep. destruct (stepEq (step st) v) eqn:E.
  - now apply stepEq_eq.
  - unfold lightEffect, setTimeout.
    repeat match goal with
           | |- context [if ?c then _ else _] => destruct c
           end; reflexivity.
Qed.

Lemma setStep_same (v : option AppStep) (st : AppState) :
  activeCardId (setStep v st) = activeCardId st /\
  isGameLive (setStep v st) = isGameLive st /\
  user (setStep v st) = user st /\
  inputName (setStep v st) = inputName st.
Proof.
  unfold setStep. destruct (stepEq (step st) v); [now repeat split |].
  unfold lightEffect, setTimeout.
  repeat match goal with
         | |- context [if ?c then _ else _] => destruct c
         end; now repeat split.
Qed.

(** The timers a step change arms lead to LIGHT_2, LIGHT_3 or END, and
    a change to an early step or to CAROUSEL arms none. *)
Lemma timers_setStep_late (v : option AppStep) (st : AppState) :
  exists new, timers (setStep v st) = timers st ++ new /\
    Forall lateTimer new /\
    (isEarly v = true \/ v = Some CAROUSEL -> new = []).
Proof.
  unfold setStep. destruct (stepEq (step st) v).
  { exists []. now rewrite app_nil_r. }
  destruct v as [[] |]; cbn;
    first [ exists []; rewrite app_nil_r; split; [reflexivity |]
          | eexists; split; [reflexivity |] ];
    (split; [repeat constructor |]); trivial;
    intros [H | H]; discriminate.
Qed.

Lemma earlyInv_same (st st' : AppState) :
  step st' = step st -> activeCardId st' = activeCardId st ->
  isGameLive st' = isGameLive st -> timers st' = timers st ->
  earlyInv st -> earlyInv st'.
Proof. unfold earlyInv. now intros -> -> -> ->. Qed.

Lemma earlyInv_late (st' : AppState) :
  isEarly (step st') = false -> Forall lateTimer (timers st') ->
  earlyInv st'.
Proof.
  intros E H. unfold earlyInv.
  split; [exact H |]. rewrite E.
  repeat split; try discriminate; intros Hs; rewrite Hs in E; discriminate.
Qed.

Lemma earlyInv_late_frame (st st' : AppState) (new : list Timer) :
  isEarly (step st') = false -> timers st' = timers st ++ new ->
  Forall lateTimer new -> earlyInv st -> earlyInv st'.
Proof.
  intros E Ht Hn [Hl _]. apply earlyInv_late; trivial.
  rewrite Ht. apply Forall_app. now split.
Qed.

Lemma earlyInv_user_event (e : Event) (st : AppState) :
  (forall d, e <> Elapse d) -> earlyInv st -> earlyInv (handle' e st).
Proof.
  intros He H.
  destruct e; try (exfalso; eapply He; reflexivity); cbn [handle].
  - (* HOME to START *)
    destruct (isStep "HOME" st) eqn:Es; simpl; trivial.
    destruct (isGameLive st) eqn:El; trivial.
    apply isStep_eq in Es. steps_known.
    destruct H as (Hl & Ha & Hh & _).
    destruct (Hh Es) as [Ht | [Hf _]]; [| congruence].
    destruct (timers_setStep_late (Some START) st) as (new & En & _ & Hn).
    rewrite (Hn (or_introl eq_refl)), app_nil_r in En.
    destruct (setStep_same (Some START) st) as (Ea' & _).
    unfold earlyInv. rewrite step_setStep, En, Ea', Ht.
    repeat split; try discriminate; trivial.
    intros _. apply Ha. now rewrite Es.
  - (* START to NAME *)
    destruct (isStep "START" st) eqn:Es; trivial.
    apply isStep_eq in Es. steps_known.
    destruct H as (Hl & Ha & _ & Hs & _).
    destruct (timers_setStep_late (Some NAME) st) as (new & En & _ & Hn).
    rewrite (Hn (or_introl eq_refl)), app_nil_r in En.
    destruct (setStep_same (Some NAME) st) as (Ea' & _).
    unfold earlyInv. rewrite step_setStep, En, Ea', (Hs Es).
    repeat split; try discriminate; trivial.
    intros _. apply Ha. now rewrite Es.
  - destruct (isStep _ _); trivial; now apply (earlyInv_same st).
  - (* the name is submitted *)
    destruct (isStep "NAME" st) eqn:Es; trivial.
    apply isStep_eq in Es. steps_known.
    unfold handleNameSubmit. destruct (negb _); trivial.
    destruct H as (Hl & Ha & _ & _ & Hn).
    unfold earlyInv. simpl. rewrite Es.
    repeat split; try discriminate.
    + apply Forall_app. split; trivial. repeat constructor.
    + intros _. apply Ha. now rewrite Es.
    + intros _. apply Forall_app. split; [now apply Hn |].
      repeat constructor.
  - destruct (_ && _); trivial. unfold handlePrev.
    destruct (_ <? _); trivial; now apply (earlyInv_same st).
  - destruct (_ && _); trivial. unfold handleNext.
    destruct (_ <? _); trivial; now apply (earlyInv_same st).
  - (* a card is clicked *)
    destruct (shouldRenderGameLayer st && showCarouselUI st) eqn:Eg; trivial.
    destruct (nth_error _ _) as [card |]; trivial.
    unfold cardClick, isGameLayerInteractive.
    destruct (isStep "NAME" st) eqn:Es; simpl; trivial.
    destruct (negb _ && negb _); trivial.
    unfold openCard. destruct (isAnimating st); trivial.
    destruct (carouselShown st Eg) as [E | E].
    + unfold isStep in Es. steps_known. rewrite E in Es. discriminate.
    + eapply (earlyInv_late_frame st);
        [simpl; now rewrite E | reflexivity | repeat constructor | exact H].
  - destruct (cardOverlayShown st); trivial; now apply (earlyInv_same st).
  - (* an answer is submitted *)
    destruct (cardOverlayShown st) eqn:Eg; trivial.
    destruct (overlayShown st Eg) as [E Ha].
    assert (El : isEarly (step st) = false).
    { destruct E as [E | E]; [| now rewrite E].
      destruct H as (_ & Hn & _). exfalso. apply Ha, Hn. now rewrite E. }
    unfold submitCardAnswer. destruct (find _ _); trivial.
    destruct (answerMatches _ _ _).
    + unfold closeCard. destruct (isAnimating st); trivial.
      eapply (earlyInv_late_frame st);
        [exact El | reflexivity | repeat constructor | exact H].
    + eapply (earlyInv_late_frame st);
        [exact El | reflexivity | repeat constructor | exact H].
  - (* back *)
    destruct (cardOverlayShown st) eqn:Eg; trivial.
    destruct (overlayShown st Eg) as [E Ha].
    assert (El : isEarly (step st) = false).
    { destruct E as [E | E]; [| now rewrite E].
      destruct H as (_ & Hn & _). exfalso. apply Ha, Hn. now rewrite E. }
    unfold closeCard. destruct (isAnimating st); trivial.
    eapply (earlyInv_late_frame st);
      [exact El | reflexivity | repeat constructor | exact H].
  - destruct (_ && _); trivial; now apply (earlyInv_same st).
  - (* the final answer is submitted *)
    destruct (shouldRenderGameLayer st); simpl; trivial.
    destruct (isStep "LIGHT_3" st) eqn:Es; trivial.
    apply isStep_eq in Es. steps_known.
    unfold submitFinalAnswer. destruct (answerMatches _ _ _).
    + destruct (timers_setStep_late (AppStep_ "LIGHT_4") st)
        as (new & En & Hn & _).
      eapply (earlyInv_late_frame st);
        [now rewrite step_setStep | exact En | exact Hn | exact H].
    + eapply (earlyInv_late_frame st);
        [simpl; now rewrite Es | reflexivity | repeat constructor | exact H].
  - trivial; now apply (earlyInv_same st).
Qed.

(** On an early step the timer that fires is the countdown (HOME) or a
    name fade (NAME). *)
Lemma early_pop (st : AppState) (tm : Timer) (rest : list Timer) :
  earlyInv st -> isEarly (step st) = true ->
  popEarliest (timers st) = Some (tm, rest) ->
  (step st = Some HOME /\ snd tm = CbCountdown /\ rest = [] /\
   isGameLive st = false) \/
  (step st = Some NAME /\ snd tm = CbNameDone /\
   Forall (fun x => snd x = CbNameDone) rest).
Proof.
  intros (_ & _ & Hh & Hs & Hn) He Hpop.
  destruct (step st) as [[] |] eqn:E; try discriminate.
  - left. destruct (Hh eq_refl) as [Ht | (Hl & due & Ht)];
      rewrite Ht in Hpop; [discriminate |].
    injection Hpop as <- <-. auto.
  - rewrite (Hs eq_refl) in Hpop. discriminate.
  - right. destruct (Forall_pop _ _ _ _ Hpop (Hn eq_refl)). auto.
Qed.

Lemma earlyInv_fire (st : AppState) (tm : Timer) (rest : list Timer) :
  earlyInv st -> popEarliest (timers st) = Some (tm, rest) ->
  earlyInv (fire tm rest st).
Proof.
  intros H Hpop.
  pose proof H as (Hl & Ha & _).
  destruct (Forall_pop _ _ _ _ Hpop Hl) as [Htm Hrest].
  unfold fireTimer.
  set (st0 := setNow (Z.max (now st) (fst tm)) (setTimers rest st)).
  assert (Es0 : step st0 = step st) by reflexivity.
  assert (Et0 : timers st0 = rest) by reflexivity.
  assert (Ea0 : activeCardId st0 = activeCardId st) by reflexivity.
  assert (Eg0 : isGameLive st0 = isGameLive st) by reflexivity.
  destruct (isEarly (step st)) eqn:Ee.
  - (* an early step *)
    destruct (early_pop st tm rest H Ee Hpop)
      as [(Es & Ecb & -> & Hlive) | (Es & Ecb & Hn)];
      rewrite Ecb; cbn [runCallback].
    + unfold countdownTick. destruct (_ <? _).
      * unfold earlyInv. simpl. rewrite Es.
        split; [constructor |].
        split; [intros _; now apply Ha |].
        split; [now left |]. split; discriminate.
      * unfold earlyInv. simpl. rewrite Es.
        split; [repeat constructor |].
        split; [intros _; now apply Ha |].
        split; [intros _; right; split; [exact Hlive | eauto] |].
        split; discriminate.
    + destruct (timers_setStep_late (AppStep_ "CAROUSEL") st0)
        as (new & En & _ & Hnew).
      rewrite (Hnew (or_intror eq_refl)), app_nil_r, Et0 in En.
      apply earlyInv_late; simpl.
      * now rewrite step_setStep.
      * now rewrite En.
  - (* a later step *)
    assert (Hlate : forall s new,
               step s = step st0 -> timers s = timers st0 ++ new ->
               Forall lateTimer new -> earlyInv s).
    { intros s new E1 E2 Hn. apply earlyInv_late.
      - now rewrite E1, Es0.
      - rewrite E2, Et0. apply Forall_app. now split. }
    destruct tm as [due cb]. unfold lateTimer in Htm.
    destruct cb; cbn [snd runCallback] in *.
    + unfold countdownTick. destruct (_ <? _).
      * apply (Hlate _ []); [reflexivity | now rewrite app_nil_r | constructor].
      * eapply Hlate; [reflexivity | reflexivity | repeat constructor].
    + apply (Hlate _ []); [reflexivity | now rewrite app_nil_r | constructor].
    + destruct (timers_setStep_late (AppStep_ "CAROUSEL") st0)
        as (new & En & Hn & _).
      apply earlyInv_late; simpl.
      * now rewrite step_setStep.
      * rewrite En, Et0. apply Forall_app. now split.
    + eapply Hlate; [reflexivity | reflexivity | repeat constructor].
    + eapply Hlate; [reflexivity | reflexivity | repeat constructor].
    + apply (Hlate _ []); [reflexivity | now rewrite app_nil_r | constructor].
    + eapply Hlate; [reflexivity | reflexivity | repeat constructor].
    + unfold closeCommit.
      destruct active as [i |];
        [| apply (Hlate _ []);
           [reflexivity | now rewrite app_nil_r | constructor]].
      destruct (_ && _);
        [| apply (Hlate _ []);
           [reflexivity | now rewrite app_nil_r | constructor]].
      destruct (Nat.eqb _ _).
      * eapply Hlate; [reflexivity | reflexivity | repeat constructor].
      * apply (Hlate _ []);
          [reflexivity | now rewrite app_nil_r | constructor].
    + destruct (timers_setStep_late target st0) as (new & En & Hn & _).
      apply earlyInv_late.
      * now rewrite step_setStep.
      * rewrite En, Et0. apply Forall_app. now split.
Qed.

Lemma earlyInv_reachable (st : AppState) : reachable' st -> earlyInv st.
Proof.
  apply reachable_invariant.
  - intros t0. unfold earlyInv, init. simpl.
    destruct (initialGameLive _ _ _); repeat split; try discriminate; auto.
    + repeat constructor.
    + intros _. right. eauto.
  - apply handle_invariant.
    + apply earlyInv_user_event.
    + apply earlyInv_fire.
    + intros st0 t H. now apply (earlyInv_same st0).
Qed.

Lemma runUntil_unfold (f : nat) (t : Z) (st : AppState) :
  runUntil TARGET_DATE CARDS_CONFIG f t st =
  match popEarliest (timers st) with
  | Some (tm, rest) =>
      if fst tm <=? t then
        match f with
        | O => None
        | S f' => runUntil TARGET_DATE CARDS_CONFIG f' t (fire tm rest st)
        end
      else Some (setNow t st)
  | None => Some (setNow t st)
  end.
Proof. destruct f; reflexivity. Qed.

(** After [elapse d] no pending timer is due at or before the instant
    reached. *)
Lemma runUntil_settled (f : nat) (t : Z) (st st' : AppState) :
  runUntil TARGET_DATE CARDS_CONFIG f t st = Some st' ->
  forall tm, In tm (timers st') -> t < fst tm.
Proof.
  revert st. induction f as [| f IH]; intros st; rewrite runUntil_unfold.
  - destruct (popEarliest (timers st)) as [[tm0 rest] |] eqn:E.
    + destruct (fst tm0 <=? t) eqn:C; [discriminate |].
      intros [= <-] tm Hin. apply Z.leb_gt in C.
      pose proof (popEarliest_least _ _ _ E tm Hin). lia.
    + intros [= <-] tm Hin. apply popEarliest_nil in E.
      simpl in Hin. rewrite E in Hin. destruct Hin.
  - destruct (popEarliest (timers st)) as [[tm0 rest] |] eqn:E.
    + destruct (fst tm0 <=? t) eqn:C; [apply IH |].
      intros [= <-] tm Hin. apply Z.leb_gt in C.
      pose proof (popEarliest_least _ _ _ E tm Hin). lia.
    + intros [= <-] tm Hin. apply popEarliest_nil in E.
      simpl in Hin. rewrite E in Hin. destruct Hin.
Qed.

Lemma elapse_settled (d : Z) (st : AppState) (tm : Timer) :
  In tm (timers (elapse TARGET_DATE CARDS_CONFIG d st)) ->
  now st + d < fst tm.
Proof.
  unfold elapse.
  destruct (runUntil_total TARGET_DATE CARDS_CONFIG
              (budget (now st + d) (timers st)) (now st + d) st (le_n _))
    as (r & Hr).
  rewrite Hr. eapply runUntil_settled, Hr.
Qed.

End EarlySteps.

Section NameSubmit.

Import Types App.

Variable TEST_MODE : bool.
Variable TARGET_DATE : Z.
Variable CARDS_CONFIG : list CardConfig.
Variable FINAL_ANSWER : string.
Variable sha256 : list byte -> list byte.

Local Abbreviation handle' :=
  (handle TARGET_DATE CARDS_CONFIG FINAL_ANSWER sha256).
Local Abbreviation elapse' := (elapse TARGET_DATE CARDS_CONFIG).

(** Once the fade of a name submission is among the pending timers, all
    of them name fades, the step is CAROUSEL when its instant is
    reached. *)
Lemma name_fade_ends_in_carousel (st : AppState) (due : Z) (n : string) :
  Forall (fun tm => snd tm = CbNameDone) (timers st) ->
  In (due, CbNameDone) (timers st) ->
  name (user st) = n ->
  due <= now st + 1000 ->
  let st' := elapse' 1000 st in
  step st' = Some CAROUSEL /\ isTransitioning st' = false /\
  name (user st') = n.
Proof.
  intros Hall Hin Hn Hdue st'.
  pose (R := fun s : AppState =>
               Forall (fun tm => snd tm = CbNameDone) (timers s) /\
               name (user s) = n /\
               (In (due, CbNameDone) (timers s) \/
                (step s = Some CAROUSEL /\ isTransitioning s = false))).
  assert (HR : R st').
  { apply elapse_invariant.
    - intros s tm rest (Ha & Hu & _) Hpop.
      destruct (Forall_pop _ _ _ _ Hpop Ha) as [Hcb Hrest].
      unfold fireTimer. rewrite Hcb. cbn [runCallback].
      set (s0 := setNow (Z.max (now s) (fst tm)) (setTimers rest s)).
      destruct (timers_setStep_late (AppStep_ "CAROUSEL") s0)
        as (new & En & _ & Hnew).
      rewrite (Hnew (or_intror eq_refl)), app_nil_r in En.
      destruct (setStep_same (AppStep_ "CAROUSEL") s0) as (_ & _ & Eu & _).
      unfold R. simpl. rewrite En, Eu, step_setStep. auto.
    - intros s t H. exact H.
    - unfold R. auto. }
  destruct HR as (_ & Hu & [Hstill | [Hs Ht]]); [| auto].
  apply elapse_settled in Hstill. simpl in Hstill. lia.
Qed.

(** C9. An empty or whitespace-only name makes the submit a no-op: the
    state is returned as it is. Otherwise the trimmed name is in the
    profile and the fade is on as soon as the handler returns, the step
    still being NAME; 1000 ms later the step is CAROUSEL, the fade is off
    and the name is kept (and not before, when nothing else was
    pending). *)
Theorem name_submit_commits_then_fades (st : AppState)
    (Hreach : reachable TEST_MODE TARGET_DATE CARDS_CONFIG FINAL_ANSWER
                sha256 st)
    (Hstep : step st = Some NAME) :
  (Js.allWhite (inputName st) = true ->
   handleNameSubmit st = st /\ handle' ClickNameSubmit st = st) /\
  (Js.allWhite (inputName st) = false ->
   let st1 := handle' ClickNameSubmit st in
   let st2 := elapse' 1000 st1 in
   name (user st1) = Js.trim (inputName st) /\
   Js.truthy (name (user st1)) = true /\
   isTransitioning st1 = true /\ step st1 = Some NAME /\
   timers st1 = timers st ++ [(now st + 1000, CbNameDone)] /\
   step st2 = Some CAROUSEL /\ isTransitioning st2 = false /\
   name (user st2) = Js.trim (inputName st) /\
   (timers st = [] -> forall d, 0 <= d < 1000 ->
    step (elapse' d st1) = Some NAME /\
    isTransitioning (elapse' d st1) = true)).
Proof.
  assert (Hclick : handle' ClickNameSubmit st = handleNameSubmit st).
  { cbn [handle]. unfold isStep. rewrite Hstep. reflexivity. }
  split.
  - intros Hw. rewrite Hclick. unfold handleNameSubmit.
    rewrite (trim_white _ Hw). now split.
  - intros Hw. cbv zeta. rewrite Hclick. unfold handleNameSubmit.
    pose proof (trim_not_white _ Hw) as Ht. rewrite Ht. cbn [negb].
    destruct (earlyInv_reachable _ _ _ _ _ _ Hreach) as (_ & _ & _ & _ & Hn).
    specialize (Hn Hstep).
    split; [reflexivity |]. split; [exact Ht |].
    split; [reflexivity |]. split; [exact Hstep |].
    split; [reflexivity |].
    match goal with
    | |- context [elapse' 1000 ?s] =>
        destruct (name_fade_ends_in_carousel s (now st + 1000)
                    (Js.trim (inputName st))) as (H1 & H2 & H3)
    end.
    + simpl. apply Forall_app. split; trivial. repeat constructor.
    + simpl. apply in_or_app. right. now left.
    + reflexivity.
    + simpl. lia.
    + split; [exact H1 |]. split; [exact H2 |]. split; [exact H3 |].
      intros Hq d Hd. clear H1 H2 H3 Hn Hclick Hreach.
      name_fields st.
      elapse_at d 0%nat ltac:(stop_clock; reflexivity).
      now split.
Qed.

End NameSubmit.

Lemma name_submit_commits_then_fades_witness :
  let st := Demo.play [App.ClickHome; App.ClickStart;
                       App.ChangeName " Alex "] in
  App.reachable false 0 Demo.cards Demo.finalAnswer Demo.digest st /\
  App.step st = Some Types.NAME /\
  Types.name
    (App.user
       (App.handle 0 Demo.cards Demo.finalAnswer Demo.digest
          App.ClickNameSubmit st)) = "Alex".
Proof.
  assert (Hr : App.reachable false 0 Demo.cards Demo.finalAnswer Demo.digest
                 (Demo.play [App.ClickHome; App.ClickStart;
                             App.ChangeName " Alex "]))
    by (eexists 10, _; reflexivity).
  assert (Hs : App.step (Demo.play [App.ClickHome; App.ClickStart;
                                    App.ChangeName " Alex "])
               = Some Types.NAME) by (vm_compute; reflexivity).
  split; [exact Hr |]. split; [exact Hs |].
  exact (proj1 (proj2 (name_submit_commits_then_fades false 0 Demo.cards
                         Demo.finalAnswer Demo.digest _ Hr Hs)
                  ltac:(vm_compute; reflexivity))).
Defined.

(* ------------------------------------------------------------------ *)
(** ** The countdown latch *)

Section Latch.

Import Types App.

Variable TARGET_DATE : Z.
Variable CARDS_CONFIG : list CardConfig.
Variable FINAL_ANSWER : string.
Variable sha256 : list byte -> list byte.

Local Abbreviation handle' :=
  (handle TARGET_DATE CARDS_CONFIG FINAL_ANSWER sha256).

Lemma user_event_live (e : Event) (st : AppState) :
  (forall d, e <> Elapse d) ->
  isGameLive (handle' e st) = isGameLive st.
Proof.
  intros He.
  destruct e; try (exfalso; eapply He; reflexivity); cbn [handle];
    repeat match goal with
           | |- context [setStep ?v ?s] =>
               rewrite (proj1 (proj2 (setStep_same v s)))
           | |- context [if ?c then _ else _] => destruct c
           | |- context [match ?c with Some _ => _ | None => _ end] =>
               destruct c
           | _ => progress unfold handleNameSubmit, handlePrev, handleNext,
                    cardClick, openCard, submitCardAnswer, closeCard,
                    submitFinalAnswer, handleError
           end; reflexivity.
Qed.

(** X6. Once the game is live it stays live, whatever happens next: no
    event of the user, no firing of a timer and no advance of the clock
    sets the flag back. *)
Lemma game_live_latch (evs : list Event) (st : AppState) :
  isGameLive st = true ->
  isGameLive (run TARGET_DATE CARDS_CONFIG FINAL_ANSWER sha256 evs st) = true.
Proof.
  apply (run_invariant TARGET_DATE CARDS_CONFIG FINAL_ANSWER sha256
           (fun s => isGameLive s = true)).
  apply (handle_invariant TARGET_DATE CARDS_CONFIG FINAL_ANSWER sha256
           (fun s => isGameLive s = true)).
  - intros e s He H. now rewrite user_event_live.
  - intros s [due cb] rest H _. unfold fireTimer. cbn [snd fst].
    set (s0 := setNow (Z.max (now s) due) (setTimers rest s)).
    assert (H0 : isGameLive s0 = true) by exact H. clearbody s0.
    destruct cb; cbn [runCallback]; trivial.
    + unfold countdownTick. destruct (_ <? _); trivial.
    + simpl. now rewrite (proj1 (proj2 (setStep_same _ s0))).
    + unfold closeCommit. destruct active; trivial.
      destruct (_ && _); trivial. destruct (Nat.eqb _ _); trivial.
    + now rewrite (proj1 (proj2 (setStep_same _ s0))).
  - intros s t H. exact H.
Qed.

End Latch.

(* ------------------------------------------------------------------ *)
(** ** The digest text *)

Section DigestText.

Import Js App.

Variable sha256 : list byte -> list byte.






(** X2. A stored digest that is not an even number of lower-case hexadecimal
    digits is matched by no input: the card submit and the final submit
    then always end in [handleError]. *)
Theorem malformed_digest_is_never_matched
    (CARDS_CONFIG : list Types.CardConfig) (FINAL_ANSWER : string)
    (st : AppState) (digest : string)
    (Hbad : allChars isLowerHex digest = false \/
            Nat.odd (String.length digest) = true) :
  (forall input, answerMatches sha256 input digest = false) /\
  (forall card,
     find (fun c => optZ_eqb (activeCardId st) (Types.id c)) CARDS_CONFIG
       = Some card ->
     Types.answer card = digest ->
     submitCardAnswer CARDS_CONFIG sha256 st = handleError st) /\
  (FINAL_ANSWER = digest ->
   submitFinalAnswer FINAL_ANSWER sha256 st = handleError st).
Proof.
  assert (Hno : forall input, answerMatches sha256 input digest = false).
  { intros input. unfold answerMatches.
    destruct (String.eqb _ digest) eqn:E; trivial.
    apply String.eqb_eq in E. exfalso.
    destruct (hexOfBytes_lower
                (sha256 (encode (toLowerCase (trim input))))) as [Hl Hn].
    unfold hashString in E. rewrite E in Hl, Hn.
    destruct Hbad as [Hb | Hb]; [congruence |].
    rewrite Hn, Nat.odd_mul in Hb. discriminate. }
  split; [exact Hno |]. split.
  - intros card Hf Ha. unfold submitCardAnswer. now rewrite Hf, Ha, Hno.
  - intros ->. unfold submitFinalAnswer. now rewrite Hno.
Qed.

End DigestText.

Lemma malformed_digest_is_never_matched_witness :
  App.submitFinalAnswer "ABCD" Demo.digest Demo.start
    = App.handleError Demo.start.
Proof.
  refine (proj2 (proj2 (malformed_digest_is_never_matched Demo.digest
                          Demo.cards "ABCD" Demo.start "ABCD" _)) eq_refl).
  left. vm_compute. reflexivity.
Defined.

(* ------------------------------------------------------------------ *)
(** ** The countdown *)

Section Countdown.

Import Types App.

Variable TEST_MODE : bool.
Variable TARGET_DATE : Z.
Variable CARDS_CONFIG : list CardConfig.
Variable FINAL_ANSWER : string.
Variable sha256 : list byte -> list byte.

Local Abbreviation handle' :=
  (handle TARGET_DATE CARDS_CONFIG FINAL_ANSWER sha256).
Local Abbreviation reachable' :=
  (reachable TEST_MODE TARGET_DATE CARDS_CONFIG FINAL_ANSWER sha256).
Local Abbreviation fire := (fireTimer TARGET_DATE CARDS_CONFIG).
Local Abbreviation runTo := (runUntil TARGET_DATE CARDS_CONFIG).
Local Abbreviation tick := (countdownTick TARGET_DATE).

(** X3. The text of a tick that runs at or before the target: whole days,
    then hours, minutes and seconds within their ranges, which together
    are the whole seconds left; the flag is not touched and the interval
    goes on. A tick that runs after the target sets the flag, shows the
    zero text and ends the interval. *)
Theorem countdown_text_splits_the_seconds_left (st : AppState) :
  (0 <= TARGET_DATE - now st ->
   exists d h m s,
     timeLeft (tick st) = TLRemaining d h m s /\
     0 <= d /\ 0 <= h < 24 /\ 0 <= m < 60 /\ 0 <= s < 60 /\
     ((d * 24 + h) * 60 + m) * 60 + s = (TARGET_DATE - now st) / 1000 /\
     isGameLive (tick st) = isGameLive st /\
     timers (tick st) = timers st ++ [(now st + 1000, CbCountdown)]) /\
  (TARGET_DATE - now st < 0 ->
   timeLeft (tick st) = TLZero /\ isGameLive (tick st) = true /\
   timers (tick st) = timers st).
Proof.
  unfold countdownTick. split; intros H.
  - rewrite (proj2 (Z.ltb_ge _ _) H). cbv zeta.
    set (diff := TARGET_DATE - now st) in *.
    do 4 eexists. split; [reflexivity |].
    set (q := diff / 1000).
    assert (Hq : 0 <= q) by (apply Z.div_pos; lia).
    assert (E1 : diff / (1000 * 60 * 60 * 24) = q / 86400).
    { unfold q. rewrite Z.div_div by lia. reflexivity. }
    assert (E2 : diff / (1000 * 60 * 60) = q / 3600).
    { unfold q. rewrite Z.div_div by lia. reflexivity. }
    rewrite E1, E2.
    assert (E4 : q / 3600 = q / 60 / 60) by (rewrite Z.div_div by lia; reflexivity).
    assert (E5 : q / 86400 = q / 3600 / 24) by (rewrite Z.div_div by lia; reflexivity).
    pose proof (Z.div_mod q 60 ltac:(lia)) as D1.
    pose proof (Z.div_mod (q / 60) 60 ltac:(lia)) as D2.
    pose proof (Z.div_mod (q / 3600) 24 ltac:(lia)) as D3.
    pose proof (Z.mod_pos_bound q 60 ltac:(lia)).
    pose proof (Z.mod_pos_bound (q / 60) 60 ltac:(lia)).
    pose proof (Z.mod_pos_bound (q / 3600) 24 ltac:(lia)).
    assert (0 <= q / 86400) by (apply Z.div_pos; lia).
    repeat split; first [lia | reflexivity].
  - rewrite (proj2 (Z.ltb_lt _ _) H). repeat split.
Qed.

(** A run of the clock over a pending countdown interval alone: the flag
    is set by the first tick after the target, [j] ticks after the one
    that is pending. *)
Lemma countdown_run (t : Z) (fuel : nat) :
  forall (due j : Z) (st st' : AppState),
    timers st = [(due, CbCountdown)] -> isGameLive st = false ->
    now st <= due -> 0 <= j -> TARGET_DATE < due + 1000 * j ->
    (j = 0 \/ due + 1000 * (j - 1) <= TARGET_DATE) ->
    runTo fuel t st = Some st' ->
    isGameLive st' = (due + 1000 * j <=? t) /\ step st' = step st /\
    (isGameLive st' = true -> timers st' = [] /\ timeLeft st' = TLZero).
Proof.
  induction fuel as [| f IH]; intros due j st st' Ht Hl Hn Hj Hlate Hprev;
    name_fields st; rewrite runUntil_unfold; cbn [timers];
    rewrite popEarliest_one; cbn [fst].
  - destruct (due <=? t) eqn:C; [discriminate |]. intros [= <-].
    apply Z.leb_gt in C. flat.
    split; [symmetry; apply Z.leb_gt; lia |]. split; [reflexivity |].
    discriminate.
  - destruct (due <=? t) eqn:C.
    + apply Z.leb_le in C. intros Hrun. flat_in Hrun.
      rewrite (Z.max_r _ _ Hn) in Hrun.
      destruct (TARGET_DATE - due <? 0) eqn:D.
      * apply Z.ltb_lt in D. rewrite runUntil_idle in Hrun by reflexivity.
        injection Hrun as <-. flat.
        assert (j = 0) by lia. subst j.
        split; [symmetry; apply Z.leb_le; lia |]. now repeat split.
      * apply Z.ltb_ge in D.
        eapply (IH (due + 1000) (j - 1)) in Hrun;
          [| reflexivity | reflexivity | cbn [now]; lia | lia | lia | lia].
        destruct Hrun as (H1 & H2 & H3).
        split; [| split; trivial].
        rewrite H1. f_equal. lia.
    + intros [= <-]. apply Z.leb_gt in C. flat.
      split; [symmetry; apply Z.leb_gt; lia |]. split; [reflexivity |].
      discriminate.
Qed.

(** X4. When the game goes live. Mounted in test mode or at or after the
    target it is live from the start and no interval is set up. Mounted
    before the target it goes live at the first tick of the interval that
    runs after the target, which is up to a second after it: a tick that
    falls on the target leaves the game locked. The interval then ends,
    and the step is HOME throughout. *)
Theorem game_goes_live_at_first_tick_after_target (t0 d : Z)
    (Hd : 0 <= d) :
  let st' := elapse TARGET_DATE CARDS_CONFIG d (init TEST_MODE TARGET_DATE t0) in
  isGameLive st' =
    TEST_MODE || (TARGET_DATE <=? t0)
    || (1000 * firstLiveTick TARGET_DATE t0 <=? d) /\
  step st' = Some HOME /\
  (isGameLive st' = true -> timers st' = []) /\
  (TEST_MODE = false -> t0 < TARGET_DATE -> t0 + d <= TARGET_DATE ->
   isGameLive st' = false) /\
  (TARGET_DATE + 1000 <= t0 + d -> isGameLive st' = true).
Proof.
  intros st'.
  assert (Hmain : isGameLive st' =
                    TEST_MODE || (TARGET_DATE <=? t0)
                    || (1000 * firstLiveTick TARGET_DATE t0 <=? d) /\
                  step st' = Some HOME /\
                  (isGameLive st' = true -> timers st' = [])).
  { subst st'. unfold init, initialGameLive.
    destruct (TEST_MODE || (TARGET_DATE <=? t0)) eqn:E.
    - assert (El : (if TEST_MODE then true else TARGET_DATE <=? t0) = true)
        by (destruct TEST_MODE; trivial).
      rewrite El.
      erewrite (elapse_runUntil _ _ 0%nat);
        [| apply runUntil_idle; reflexivity].
      now repeat split.
    - apply orb_false_elim in E as [E1 E2]. rewrite E1, E2.
      apply Z.leb_gt in E2.
      match goal with
      | |- context [elapse _ _ d ?s] =>
          destruct (runUntil_total TARGET_DATE CARDS_CONFIG
                      (budget (now s + d) (timers s)) (now s + d) s (le_n _))
            as (r & Hr);
          rewrite (elapse_runUntil _ _ _ _ _ _ Hr)
      end.
      pose proof (Z.div_mod (TARGET_DATE - t0) 1000 ltac:(lia)) as Hdm.
      pose proof (Z.mod_pos_bound (TARGET_DATE - t0) 1000 ltac:(lia)) as Hb.
      assert (Hq : 0 <= (TARGET_DATE - t0) / 1000) by (apply Z.div_pos; lia).
      eapply (countdown_run _ _ (t0 + 1000) ((TARGET_DATE - t0) / 1000))
        in Hr; [| reflexivity | reflexivity | cbn [now]; lia | exact Hq
               | lia | right; lia].
      destruct Hr as (H1 & H2 & H3).
      split; [| split; [exact H2 | apply H3]].
      rewrite H1. cbn [now orb]. unfold firstLiveTick.
      destruct (Z.leb_spec (t0 + 1000 + 1000 * ((TARGET_DATE - t0) / 1000))
                  (t0 + d));
        symmetry; [apply Z.leb_le | apply Z.leb_gt]; lia. }
  destruct Hmain as (H1 & H2 & H3).
  split; [exact H1 |]. split; [exact H2 |]. split; [exact H3 |].
  pose proof (Z.div_mod (TARGET_DATE - t0) 1000 ltac:(lia)) as Hdm.
  pose proof (Z.mod_pos_bound (TARGET_DATE - t0) 1000 ltac:(lia)) as Hb.
  unfold firstLiveTick in H1. split.
  - intros -> Hlt Hle. rewrite H1. cbn [orb].
    rewrite (proj2 (Z.leb_gt _ _)) by lia.
    cbn [orb]. apply Z.leb_gt. lia.
  - intros Hge. rewrite H1.
    destruct TEST_MODE; trivial. cbn [orb].
    destruct (TARGET_DATE <=? t0) eqn:C; trivial. cbn [orb].
    apply Z.leb_gt in C. apply Z.leb_le. lia.
Qed.

End Countdown.

Lemma game_goes_live_at_first_tick_after_target_witness :
  App.isGameLive (App.elapse 5000 Demo.cards 1000 (App.init false 5000 4000))
    = false.
Proof.
  exact (proj1 (proj2 (proj2 (proj2
           (game_goes_live_at_first_tick_after_target false 5000 Demo.cards
              4000 1000 ltac:(lia)))))
           eq_refl ltac:(lia) ltac:(lia)).
Defined.

(* ------------------------------------------------------------------ *)
(** ** Before the game is live *)

Section LockedHome.

Import Types App.

Variable TEST_MODE : bool.
Variable TARGET_DATE : Z.
Variable CARDS_CONFIG : list CardConfig.
Variable FINAL_ANSWER : string.
Variable sha256 : list byte -> list byte.

Local Abbreviation handle' :=
  (handle TARGET_DATE CARDS_CONFIG FINAL_ANSWER sha256).
Local Abbreviation reachable' :=
  (reachable TEST_MODE TARGET_DATE CARDS_CONFIG FINAL_ANSWER sha256).
Local Abbreviation fire := (fireTimer TARGET_DATE CARDS_CONFIG).

(** No callback clears the flag. *)
Lemma runCallback_keeps_live (cb : Callback) (st : AppState) :
  isGameLive st = true ->
  isGameLive (runCallback TARGET_DATE CARDS_CONFIG cb st) = true.
Proof.
  intros H. destruct cb; cbn [runCallback]; trivial.
  - unfold countdownTick. destruct (_ <? _); trivial.
  - simpl. now rewrite (proj1 (proj2 (setStep_same _ st))).
  - unfold closeCommit. destruct active; trivial.
    destruct (_ && _); trivial. destruct (Nat.eqb _ _); trivial.
  - now rewrite (proj1 (proj2 (setStep_same _ st))).
Qed.

Lemma lockedHome_user_event (e : Event) (st : AppState) :
  (forall d, e <> Elapse d) -> e <> ClickMusic ->
  isGameLive st = false -> lockedHome st -> handle' e st = st.
Proof.
  intros He Hm Hl (Hs & _ & Ha & _).
  destruct e; try (exfalso; eapply He; reflexivity);
    try (exfalso; apply Hm; reflexivity); cbn [handle];
    unfold isStep, cardOverlayShown, shouldRenderGameLayer, showCarouselUI,
      isStep; rewrite ?Hs, ?Hl, ?Ha; reflexivity.
Qed.

Lemma lockedHome_reachable (st : AppState) :
  reachable' st -> isGameLive st = false -> lockedHome st.
Proof.
  apply (reachable_invariant TEST_MODE TARGET_DATE CARDS_CONFIG FINAL_ANSWER
           sha256 (fun s => isGameLive s = false -> lockedHome s)).
  - intros t0. unfold init. cbn [isGameLive]. intros ->.
    unfold lockedHome. cbn. repeat split. repeat constructor.
  - apply (handle_invariant TARGET_DATE CARDS_CONFIG FINAL_ANSWER sha256
             (fun s => isGameLive s = false -> lockedHome s)).
    + intros e s He IH Hl. rewrite user_event_live in Hl by assumption.
      specialize (IH Hl).
      destruct e; try (rewrite lockedHome_user_event; trivial; discriminate).
      exact IH.
    + intros s [due cb] rest IH Hpop Hl. unfold fireTimer in *.
      cbn [fst snd] in *.
      destruct (isGameLive s) eqn:El.
      { rewrite runCallback_keeps_live in Hl by exact El. discriminate. }
      destruct (IH eq_refl) as (H1 & H2 & H3 & H4 & H5 & H6 & H7 & H8 & H9
                                & H10 & H11).
      destruct (Forall_pop _ _ _ _ Hpop H11) as [Hcb Hrest].
      cbn [snd] in Hcb. subst cb. cbn [runCallback] in *.
      unfold countdownTick in *. cbn [now setNow] in *.
      destruct (_ <? _); [discriminate |].
      unfold lockedHome. cbn. repeat split; trivial.
      apply Forall_app. split; trivial. repeat constructor.
    + intros s t IH Hl. exact (IH Hl).
Qed.

(** X5. While the game is not live nothing can be done: the step is HOME,
    nothing has been entered or opened, the only pending timer is the
    countdown interval, and every event of the user other than the music
    button leaves the state as it is. *)
Theorem locked_game_stays_on_home (st : AppState)
    (Hreach : reachable' st) (Hlocked : isGameLive st = false) :
  step st = Some HOME /\ user st = mkUser "" [] false /\
  activeCardId st = None /\ carouselIndex st = 0 /\
  Forall (fun tm => snd tm = CbCountdown) (timers st) /\
  (forall e, (forall d, e <> Elapse d) -> e <> ClickMusic ->
             handle' e st = st) /\
  step (handle' ClickMusic st) = Some HOME.
Proof.
  pose proof (lockedHome_reachable st Hreach Hlocked) as H.
  pose proof H as (H1 & H2 & H3 & H4 & _ & _ & _ & _ & _ & _ & H11).
  repeat split; trivial.
  intros e He Hm. now apply lockedHome_user_event.
Qed.

End LockedHome.

Lemma locked_game_stays_on_home_witness :
  App.handle 5000 Demo.cards Demo.finalAnswer Demo.digest App.ClickHome
    (App.init false 5000 4000) = App.init false 5000 4000.
Proof.
  refine (proj1 (proj2 (proj2 (proj2 (proj2 (proj2
            (locked_game_stays_on_home false 5000 Demo.cards Demo.finalAnswer
               Demo.digest (App.init false 5000 4000) _ eq_refl))))))
            App.ClickHome _ _);
    [exists 4000, []; reflexivity | discriminate | discriminate].
Defined.

(** Once live, always live. *)
Lemma game_live_latch_witness :
  App.isGameLive
    (App.run 0 Demo.cards Demo.finalAnswer Demo.digest
       (Demo.toCarousel ++ Demo.solveFirst) Demo.start) = true.
Proof.
  exact (game_live_latch 0 Demo.cards Demo.finalAnswer Demo.digest
           (Demo.toCarousel ++ Demo.solveFirst) Demo.start eq_refl).
Defined.

(* ------------------------------------------------------------------ *)
(** ** The carousel window *)

Section CarouselWindow.

Import Types App.

Variable CARDS_CONFIG : list CardConfig.

Local Abbreviation total := (Z.of_nat (List.length CARDS_CONFIG)).
Local Abbreviation visible := (visibleCards CARDS_CONFIG).
Local Abbreviation nav := (navigate CARDS_CONFIG).

Lemma nth_error_visibleCards (st : AppState) (j : nat) :
  0 <= carouselIndex st ->
  nth_error (visible st) j =
    if (j <? 4)%nat
    then nth_error CARDS_CONFIG (Z.to_nat (carouselIndex st) + j)
    else None.
Proof.
  intros H0. unfold visibleCards, slice, visibleCount.
  set (i := carouselIndex st) in *.
  rewrite (proj2 (Z.ltb_ge i 0)) by lia.
  rewrite (proj2 (Z.ltb_ge (i + 4) 0)) by lia.
  rewrite nth_error_firstn, nth_error_skipn.
  destruct (Nat.ltb_spec j 4) as [Hj | Hj].
  - destruct (Nat.ltb_spec j (Z.to_nat (Z.min (i + 4) total - Z.min i total)))
      as [Hm | Hm].
    + f_equal. lia.
    + symmetry. apply nth_error_None. lia.
  - destruct (Nat.ltb_spec j (Z.to_nat (Z.min (i + 4) total - Z.min i total)))
      as [Hm | Hm]; trivial. lia.
Qed.

Lemma length_visibleCards (st : AppState) :
  0 <= carouselIndex st ->
  Z.of_nat (List.length (visible st))
    = Z.max 0 (Z.min 4 (total - carouselIndex st)).
Proof.
  intros H0. unfold visibleCards, slice, visibleCount.
  set (i := carouselIndex st) in *.
  rewrite (proj2 (Z.ltb_ge i 0)) by lia.
  rewrite (proj2 (Z.ltb_ge (i + 4) 0)) by lia.
  rewrite length_firstn, length_skipn. lia.
Qed.

(** [n] calls of next in a row, each of them enabled. *)
Lemma navigate_nexts (n : nat) :
  forall st,
    (n = O \/ carouselIndex st + 3 * (Z.of_nat n - 1) + 4 < total) ->
    carouselIndex (nav (repeat CallNext n) st)
      = carouselIndex st + 3 * Z.of_nat n.
Proof.
  induction n as [| n IH]; intros st H; [simpl; lia |].
  destruct H as [H | H]; [discriminate |].
  cbn [repeat navigate fold_left].
  change (fold_left _ (repeat CallNext n) ?s) with (nav (repeat CallNext n) s).
  assert (E : carouselIndex (handleNext CARDS_CONFIG st) = carouselIndex st + 3).
  { unfold handleNext, visibleCount.
    rewrite (proj2 (Z.ltb_lt _ _)) by lia. reflexivity. }
  rewrite IH; rewrite E; [lia |].
  destruct n; [now left | right; lia].
Qed.

(** X7. What the window shows. After any calls of prev and next from window
    start 0, the visible cards are the cards of the list from the window
    start on, four of them or as many as are left; there is at least one
    when there are cards at all, and at least two on every page but the
    first. *)
Theorem carousel_window_shows_up_to_four_cards
    (calls : list NavCall) (st : AppState) (H0 : carouselIndex st = 0) :
  let st' := nav calls st in
  (forall j, nth_error (visible st') j =
             if (j <? 4)%nat
             then nth_error CARDS_CONFIG
                    (Z.to_nat (carouselIndex st') + j)
             else None) /\
  Z.of_nat (List.length (visible st')) = Z.min 4 (total - carouselIndex st') /\
  (CARDS_CONFIG <> [] -> visible st' <> []) /\
  (0 < carouselIndex st' -> (2 <= List.length (visible st'))%nat) /\
  (nextDisabled CARDS_CONFIG st' = false ->
   List.length (visible st') = 4%nat).
Proof.
  intros st'.
  assert (Hok : windowOk CARDS_CONFIG st').
  { apply navigate_windowOk. split; [exists 0; lia | now left]. }
  destruct Hok as [(k & Hk & E) Hb].
  assert (Hi : 0 <= carouselIndex st') by lia.
  pose proof (length_visibleCards st' Hi) as Hlen.
  split; [intros j; now apply nth_error_visibleCards |].
  split; [lia |]. split; [| split].
  - intros Hne Hv. rewrite Hv in Hlen. simpl in Hlen.
    destruct CARDS_CONFIG; [now apply Hne | simpl List.length in *; lia].
  - intros Hpos. lia.
  - unfold nextDisabled, visibleCount. intros Hn.
    apply Z.leb_gt in Hn. lia.
Qed.

(** X8. Every card can be brought into the window: for each position of the
    card list some number of calls of next from window start 0 shows the
    card at that position. *)
Theorem every_card_is_shown_on_some_page
    (st : AppState) (k : nat) (card : CardConfig)
    (H0 : carouselIndex st = 0)
    (Hk : nth_error CARDS_CONFIG k = Some card) :
  exists n j,
    let st' := nav (repeat CallNext n) st in
    nth_error (visible st') j = Some card /\
    (Z.to_nat (carouselIndex st') + j)%nat = k.
Proof.
  assert (Hlt : (k < List.length CARDS_CONFIG)%nat).
  { apply nth_error_Some. congruence. }
  pose proof (Nat.div_mod_eq k 3) as Hdm.
  pose proof (Nat.mod_upper_bound k 3 ltac:(lia)) as Hr.
  set (q := (k / 3)%nat) in *. set (r := (k mod 3)%nat) in *.
  destruct (Z_lt_dec (3 * Z.of_nat q + 1) total) as [Hfit | Hend].
  - exists q, r. cbv zeta.
    assert (E : carouselIndex (nav (repeat CallNext q) st) = 3 * Z.of_nat q).
    { rewrite navigate_nexts; [lia |].
      destruct q; [now left | right; lia]. }
    rewrite nth_error_visibleCards by lia. rewrite E.
    rewrite (proj2 (Nat.ltb_lt r 4)) by lia.
    replace (Z.to_nat (3 * Z.of_nat q) + r)%nat with k by lia.
    split; [exact Hk | reflexivity].
  - destruct q as [| q'].
    + exists O, r. cbv zeta. simpl repeat. cbn [navigate fold_left].
      rewrite nth_error_visibleCards by lia. rewrite H0.
      rewrite (proj2 (Nat.ltb_lt r 4)) by lia.
      replace (Z.to_nat 0 + r)%nat with k by lia.
      split; [exact Hk | reflexivity].
    + exists q', 3%nat. cbv zeta.
      assert (E : carouselIndex (nav (repeat CallNext q') st)
                  = 3 * Z.of_nat q').
      { rewrite navigate_nexts; [lia |].
        destruct q'; [now left | right; lia]. }
      rewrite nth_error_visibleCards by lia. rewrite E.
      cbn [Nat.ltb Nat.leb].
      replace (Z.to_nat (3 * Z.of_nat q') + 3)%nat with k by lia.
      split; [exact Hk | reflexivity].
Qed.

(** X9. Prev and next undo each other: from a window reached by calls of
    prev and next from window start 0, next followed by prev gives the
    window back when next is enabled, and so does prev followed by next
    when prev is enabled. *)
Theorem prev_and_next_undo_each_other
    (calls : list NavCall) (st : AppState) (H0 : carouselIndex st = 0) :
  let st' := nav calls st in
  (nextDisabled CARDS_CONFIG st' = false ->
   handlePrev (handleNext CARDS_CONFIG st') = st') /\
  (prevDisabled st' = false ->
   handleNext CARDS_CONFIG (handlePrev st') = st').
Proof.
  intros st'.
  assert (Hok : windowOk CARDS_CONFIG st').
  { apply navigate_windowOk. split; [exists 0; lia | now left]. }
  destruct Hok as [(k & Hk & E) Hb]. clearbody st'.
  unfold nextDisabled, prevDisabled, handleNext, handlePrev, visibleCount.
  destruct st'; cbn [carouselIndex setCarouselIndex] in *. split; intros H.
  - apply Z.leb_gt in H.
    rewrite (proj2 (Z.ltb_lt (carouselIndex0 + 4) total)) by lia.
    cbv [setCarouselIndex]; cbn [carouselIndex].
    rewrite (proj2 (Z.ltb_lt 0 (carouselIndex0 + 3))) by lia.
    cbn. f_equal. lia.
  - apply Z.eqb_neq in H.
    rewrite (proj2 (Z.ltb_lt 0 carouselIndex0)) by lia.
    cbv [setCarouselIndex]; cbn [carouselIndex].
    rewrite (proj2 (Z.ltb_lt (carouselIndex0 - 3 + 4) total)) by lia.
    cbn. f_equal. lia.
Qed.

End CarouselWindow.

Lemma carousel_window_shows_up_to_four_cards_witness :
  Z.of_nat (List.length
              (App.visibleCards Demo.fiveCards
                 (App.navigate Demo.fiveCards [App.CallNext] Demo.start)))
    = 2.
Proof.
  exact (proj1 (proj2 (carousel_window_shows_up_to_four_cards Demo.fiveCards
                         [App.CallNext] Demo.start eq_refl))).
Defined.

Lemma every_card_is_shown_on_some_page_witness :
  exists n j,
    nth_error
      (App.visibleCards Demo.fiveCards
         (App.navigate Demo.fiveCards (repeat App.CallNext n) Demo.start)) j
      = Some (Types.mkCard 5 "").
Proof.
  destruct (every_card_is_shown_on_some_page Demo.fiveCards Demo.start
              4%nat (Types.mkCard 5 "") eq_refl eq_refl) as (n & j & H & _).
  exists n, j. exact H.
Defined.

Lemma prev_and_next_undo_each_other_witness :
  App.handlePrev (App.handleNext Demo.fiveCards Demo.start) = Demo.start.
Proof.
  exact (proj1 (prev_and_next_undo_each_other Demo.fiveCards [] Demo.start
                  eq_refl) eq_refl).
Defined.

(* ------------------------------------------------------------------ *)
(** ** Events and firings, case by case *)

Section EventCases.

Import Types App.

Variable TEST_MODE : bool.
Variable TARGET_DATE : Z.
Variable CARDS_CONFIG : list CardConfig.
Variable FINAL_ANSWER : string.
Variable sha256 : list byte -> list byte.

Local Abbreviation handle' :=
  (handle TARGET_DATE CARDS_CONFIG FINAL_ANSWER sha256).
Local Abbreviation reachable' :=
  (reachable TEST_MODE TARGET_DATE CARDS_CONFIG FINAL_ANSWER sha256).
Local Abbreviation fire := (fireTimer TARGET_DATE CARDS_CONFIG).
Local Abbreviation userStep' := (userStep CARDS_CONFIG FINAL_ANSWER sha256).
Local Abbreviation baseInv' := (baseInv CARDS_CONFIG).

(** A step change is no change at all, or the new step with the timers
    of the Light effect after the pending ones. *)
Lemma setStep_cases (v : option AppStep) (st : AppState) :
  (step st = v /\ setStep v st = st) \/
  (step st <> v /\
   setStep v st =
     match lightTimers (now st) v with
     | [] => setStepRaw v st
     | new => setTimers (timers st ++ new) (setStepRaw v st)
     end).
Proof.
  unfold setStep. destruct (stepEq (step st) v) eqn:E.
  - left. split; trivial. now apply stepEq_eq.
  - right. split.
    + intros H. apply stepEq_eq in H. congruence.
    + destruct v as [[] |]; reflexivity.
Qed.

Lemma find_some_card (a : option Z) (card : CardConfig) :
  find (fun c => optZ_eqb a (id c)) CARDS_CONFIG = Some card ->
  In card CARDS_CONFIG /\ a = Some (id card).
Proof.
  intros H. apply find_some in H as [Hin He]. split; trivial.
  destruct a as [j |]; [| discriminate]. simpl in He.
  apply Z.eqb_eq in He. now subst.
Qed.

(** An event of the user changes nothing or is one of the steps of
    [userStep]. *)
Lemma handle_userStep (e : Event) (st : AppState) :
  (forall d, e <> Elapse d) ->
  handle' e st = st \/ userStep' st (handle' e st).
Proof.
  intros He.
  destruct e; try (exfalso; eapply He; reflexivity); cbn [handle].
  - destruct (isStep "HOME" st) eqn:Es; [| now left].
    destruct (isGameLive st) eqn:El; [| now left]. cbn [andb].
    apply isStep_eq in Es. steps_known. right.
    replace (setStep (Some START) st) with (setStepRaw (Some START) st)
      by (unfold setStep; rewrite Es; reflexivity).
    now constructor.
  - destruct (isStep "START" st) eqn:Es; [| now left].
    apply isStep_eq in Es. steps_known. right.
    replace (setStep (Some NAME) st) with (setStepRaw (Some NAME) st)
      by (unfold setStep; rewrite Es; reflexivity).
    now constructor.
  - destruct (isStep "NAME" st) eqn:Es; [| now left].
    apply isStep_eq in Es. right. now constructor.
  - destruct (isStep "NAME" st) eqn:Es; [| now left].
    apply isStep_eq in Es. unfold handleNameSubmit.
    destruct (Js.truthy (Js.trim (inputName st))) eqn:Et; [| now left].
    right. now constructor.
  - destruct (shouldRenderGameLayer st && showCarouselUI st) eqn:Eg;
      [| now left]. apply carouselShown in Eg.
    unfold prevDisabled, handlePrev.
    destruct (carouselIndex st =? 0) eqn:E0; [now left |]. cbn [negb].
    destruct (0 <? carouselIndex st) eqn:E1; [| now left].
    right. apply us_prev; trivial. now apply Z.ltb_lt.
  - destruct (shouldRenderGameLayer st && showCarouselUI st) eqn:Eg;
      [| now left]. apply carouselShown in Eg.
    unfold nextDisabled, handleNext.
    destruct (_ <=? _) eqn:E0; [now left |]. cbn [negb].
    destruct (_ <? _) eqn:E1; [| now left].
    right. apply us_next; trivial. now apply Z.ltb_lt.
  - destruct (shouldRenderGameLayer st && showCarouselUI st) eqn:Eg;
      [| now left]. apply carouselShown in Eg.
    destruct (nth_error (visibleCards CARDS_CONFIG st) k) as [card |] eqn:Ek;
      [| now left].
    apply nth_error_In in Ek.
    unfold cardClick, isGameLayerInteractive.
    destruct (isStep "NAME" st) eqn:Es; [now left |]. cbn [negb andb].
    destruct (optZ_eqb (activeCardId st) (id card)) eqn:Ea; [now left |].
    destruct (includes (solvedCards (user st)) (id card)) eqn:Ei;
      [now left |]. cbn [negb andb].
    unfold openCard. destruct (isAnimating st) eqn:El; [now left |].
    right. apply us_open; trivial.
    + destruct Eg as [E | E]; trivial.
      unfold isStep in Es. rewrite E in Es. discriminate.
    + intros E. rewrite E in Ea. simpl in Ea. now rewrite Z.eqb_refl in Ea.
    + intros H. apply includes_In in H. congruence.
  - destruct (cardOverlayShown st) eqn:Eg; [| now left].
    apply overlayShown in Eg as [E Ha]. right. now constructor.
  - destruct (cardOverlayShown st) eqn:Eg; [| now left].
    apply overlayShown in Eg as [E Ha]. unfold submitCardAnswer.
    destruct (find _ _) as [card |] eqn:Ef; [| now left].
    apply find_some_card in Ef as [Hin Hid].
    destruct (answerMatches _ _ _) eqn:Em.
    + unfold closeCard. destruct (isAnimating st) eqn:El; [now left |].
      right. rewrite Hid. eapply us_solve; eauto.
    + right. apply us_reject. now left.
  - destruct (cardOverlayShown st) eqn:Eg; [| now left].
    apply overlayShown in Eg as [E Ha]. unfold closeCard.
    destruct (isAnimating st) eqn:El; [now left |].
    destruct (activeCardId st) as [i |] eqn:Ei; [| congruence].
    right. now apply us_back.
  - destruct (shouldRenderGameLayer st); [| now left]. cbn [andb].
    destruct (isStep "LIGHT_3" st) eqn:Es; [| now left].
    apply isStep_eq in Es. right. now constructor.
  - destruct (shouldRenderGameLayer st); [| now left]. cbn [andb].
    destruct (isStep "LIGHT_3" st) eqn:Es; [| now left].
    apply isStep_eq in Es. steps_known. unfold submitFinalAnswer.
    destruct (answerMatches _ _ _) eqn:Em.
    + right.
      replace (setStep (AppStep_ "LIGHT_4") st)
        with (setTimers (timers st ++ [(now st + 1200, CbSetStep (Some END))])
                (setStepRaw None st))
        by (unfold setStep; rewrite Es; reflexivity).
      now constructor.
    + right. apply us_reject. now right.
  - right. constructor.
Qed.

(** The clock of a run: callbacks leave the instant alone, and a firing
    moves it to the due instant of the timer, never back. *)
Lemma now_setStep (v : option AppStep) (st : AppState) :
  now (setStep v st) = now st.
Proof.
  destruct (setStep_cases v st) as [[_ ->] | [_ ->]]; trivial.
  destruct (lightTimers _ _); reflexivity.
Qed.

Lemma now_runCallback (cb : Callback) (st : AppState) :
  now (runCallback TARGET_DATE CARDS_CONFIG cb st) = now st.
Proof.
  destruct cb; cbn [runCallback]; trivial.
  - unfold countdownTick. destruct (_ <? _); reflexivity.
  - cbn [now setIsTransitioning]. apply now_setStep.
  - unfold closeCommit. destruct active; trivial.
    destruct (_ && _); trivial. destruct (Nat.eqb _ _); reflexivity.
  - apply now_setStep.
Qed.

Lemma now_fire (tm : Timer) (rest : list Timer) (st : AppState) :
  now (fire tm rest st) = Z.max (now st) (fst tm).
Proof. unfold fireTimer. now rewrite now_runCallback. Qed.

(** A property kept by every firing, and by the clock when it stops at
    an instant not before the current one with every pending timer due
    later, is kept by [elapse]. *)
Lemma runUntil_invariant_clock (P : AppState -> Prop) :
  (forall st tm rest, P st -> popEarliest (timers st) = Some (tm, rest) ->
                      P (fire tm rest st)) ->
  (forall st t, P st -> now st <= t ->
                (forall tm, In tm (timers st) -> t < fst tm) ->
                P (setNow t st)) ->
  forall fuel t st st', P st -> now st <= t ->
    runUntil TARGET_DATE CARDS_CONFIG fuel t st = Some st' -> P st'.
Proof.
  intros Hfire Hclock fuel t.
  induction fuel as [| f IH]; intros st st' HP Hn; rewrite runUntil_unfold.
  - destruct (popEarliest (timers st)) as [[tm rest] |] eqn:E.
    + destruct (fst tm <=? t) eqn:C; [discriminate |].
      intros [= <-]. apply Hclock; trivial. intros x Hx.
      apply Z.leb_gt in C. pose proof (popEarliest_least _ _ _ E x Hx). lia.
    + intros [= <-]. apply Hclock; trivial. intros x Hx.
      apply popEarliest_nil in E. rewrite E in Hx. destruct Hx.
  - destruct (popEarliest (timers st)) as [[tm rest] |] eqn:E.
    + destruct (fst tm <=? t) eqn:C.
      * apply IH; [now apply Hfire |]. rewrite now_fire.
        apply Z.leb_le in C. lia.
      * intros [= <-]. apply Hclock; trivial. intros x Hx.
        apply Z.leb_gt in C. pose proof (popEarliest_least _ _ _ E x Hx). lia.
    + intros [= <-]. apply Hclock; trivial. intros x Hx.
      apply popEarliest_nil in E. rewrite E in Hx. destruct Hx.
Qed.

Lemma elapse_invariant_clock (P : AppState -> Prop) :
  (forall st tm rest, P st -> popEarliest (timers st) = Some (tm, rest) ->
                      P (fire tm rest st)) ->
  (forall st t, P st -> now st <= t ->
                (forall tm, In tm (timers st) -> t < fst tm) ->
                P (setNow t st)) ->
  forall d st, 0 <= d -> P st -> P (elapse TARGET_DATE CARDS_CONFIG d st).
Proof.
  intros Hfire Hclock d st Hd HP. unfold elapse.
  destruct (runUntil _ _ _ _ st) as [st' |] eqn:E; trivial.
  eapply runUntil_invariant_clock; eauto. lia.
Qed.

Lemma baseInv_init (t0 : Z) : baseInv' (init TEST_MODE TARGET_DATE t0).
Proof.
  assert (H : reachable' (init TEST_MODE TARGET_DATE t0))
    by (exists t0, []; reflexivity).
  split; [| split].
  - eapply stepInv_reachable, H.
  - eapply cardInv_reachable, H.
  - eapply earlyInv_reachable, H.
Qed.

Lemma baseInv_user_event (e : Event) (st : AppState) :
  (forall d, e <> Elapse d) -> baseInv' st -> baseInv' (handle' e st).
Proof.
  intros He (H1 & H2 & H3). split; [| split].
  - now apply stepInv_user_event.
  - now apply cardInv_user_event.
  - now apply earlyInv_user_event.
Qed.

Lemma baseInv_fire (st : AppState) (tm : Timer) (rest : list Timer) :
  baseInv' st -> popEarliest (timers st) = Some (tm, rest) ->
  baseInv' (fire tm rest st).
Proof.
  intros (H1 & H2 & H3) Hpop. split; [| split].
  - now apply stepInv_fire.
  - now apply cardInv_fire.
  - now apply earlyInv_fire.
Qed.

Lemma baseInv_clock (st : AppState) (t : Z) :
  baseInv' st -> baseInv' (setNow t st).
Proof.
  intros (H1 & H2 & H3). split; [| split].
  - now apply (stepInv_ext st).
  - now apply (cardInv_ext CARDS_CONFIG st).
  - now apply (earlyInv_same st).
Qed.

(** An invariant of the reachable states, by cases: the first render,
    the steps of the user, the firings and the clock; in each case the
    three invariants above are at hand, before and after. *)
Lemma reachable_by_cases (P : AppState -> Prop) :
  (forall t0, P (init TEST_MODE TARGET_DATE t0)) ->
  (forall st st', baseInv' st -> baseInv' st' -> P st ->
                  userStep' st st' -> P st') ->
  (forall st tm rest, baseInv' st -> baseInv' (fire tm rest st) -> P st ->
                      popEarliest (timers st) = Some (tm, rest) ->
                      P (fire tm rest st)) ->
  (forall st t, baseInv' st -> P st -> now st <= t ->
                (forall tm, In tm (timers st) -> t < fst tm) ->
                P (setNow t st)) ->
  forall st, reachable' st -> baseInv' st /\ P st.
Proof.
  intros Hinit Huser Hfire Hclock.
  apply reachable_invariant.
  { intros t0. split; [apply baseInv_init | apply Hinit]. }
  intros e st [HB HP].
  destruct e;
    try (match goal with
         | |- _ /\ P (handle' ?e st) =>
             pose proof (baseInv_user_event e st
                           ltac:(intros ? ?; discriminate) HB) as HB';
             split; [exact HB' |];
             destruct (handle_userStep e st ltac:(intros ? ?; discriminate))
               as [E | Hus];
             [rewrite E; exact HP | exact (Huser _ _ HB HB' HP Hus)]
         end).
  cbn [handle]. destruct (0 <=? d) eqn:C; [| now split].
  apply (elapse_invariant_clock (fun s => baseInv' s /\ P s)).
  - intros s tm rest [HB0 HP0] Hpop.
    pose proof (baseInv_fire s tm rest HB0 Hpop) as HB1.
    split; [exact HB1 | now apply Hfire].
  - intros s t [HB0 HP0] Hn Hs. split; [now apply baseInv_clock |].
    now apply Hclock.
  - now apply Z.leb_le.
  - now split.
Qed.

Lemma stepwise_reachable (Q : AppState -> Prop) :
  stepwise TEST_MODE TARGET_DATE CARDS_CONFIG FINAL_ANSWER sha256 Q ->
  forall st, reachable' st -> baseInv' st /\ Q st.
Proof. intros (H1 & H2 & H3 & H4). now apply reachable_by_cases. Qed.

(** A second invariant on top of a first one. *)
Lemma stepwise_and (Q P : AppState -> Prop) :
  stepwise TEST_MODE TARGET_DATE CARDS_CONFIG FINAL_ANSWER sha256 Q ->
  (forall t0, P (init TEST_MODE TARGET_DATE t0)) ->
  (forall st st', baseInv' st -> baseInv' st' -> Q st -> Q st' -> P st ->
                  userStep' st st' -> P st') ->
  (forall st tm rest,
     baseInv' st -> baseInv' (fire tm rest st) -> Q st ->
     Q (fire tm rest st) -> P st ->
     popEarliest (timers st) = Some (tm, rest) -> P (fire tm rest st)) ->
  (forall st t, baseInv' st -> Q st -> P st -> now st <= t ->
                (forall tm, In tm (timers st) -> t < fst tm) ->
                P (setNow t st)) ->
  stepwise TEST_MODE TARGET_DATE CARDS_CONFIG FINAL_ANSWER sha256
    (fun s => Q s /\ P s).
Proof.
  intros (Q1 & Q2 & Q3 & Q4) P1 P2 P3 P4.
  split; [| split; [| split]].
  - intros t0. split; [apply Q1 | apply P1].
  - intros st st' HB HB' [HQ HP] Hus.
    pose proof (Q2 st st' HB HB' HQ Hus) as HQ'.
    split; [exact HQ' | exact (P2 st st' HB HB' HQ HQ' HP Hus)].
  - intros st tm rest HB HB' [HQ HP] Hpop.
    pose proof (Q3 st tm rest HB HB' HQ Hpop) as HQ'.
    split; [exact HQ' | exact (P3 st tm rest HB HB' HQ HQ' HP Hpop)].
  - intros st t HB [HQ HP] Hn Hs.
    split; [exact (Q4 st t HB HQ Hn Hs) | exact (P4 st t HB HQ HP Hn Hs)].
Qed.

End EventCases.

(* ------------------------------------------------------------------ *)
(** ** What the profile records *)

Section Profile.

Import Types App.

Variable TEST_MODE : bool.
Variable TARGET_DATE : Z.
Variable CARDS_CONFIG : list CardConfig.
Variable FINAL_ANSWER : string.
Variable sha256 : list byte -> list byte.

Local Abbreviation handle' :=
  (handle TARGET_DATE CARDS_CONFIG FINAL_ANSWER sha256).
Local Abbreviation reachable' :=
  (reachable TEST_MODE TARGET_DATE CARDS_CONFIG FINAL_ANSWER sha256).
Local Abbreviation fire := (fireTimer TARGET_DATE CARDS_CONFIG).
Local Abbreviation solvedInv' := (solvedInv CARDS_CONFIG sha256).
Local Abbreviation earned' := (earned CARDS_CONFIG sha256).
Local Abbreviation closureEarned' := (closureEarned CARDS_CONFIG sha256).
Local Abbreviation baseInv' := (baseInv CARDS_CONFIG).
Local Abbreviation lightsInv' := (lightsInv CARDS_CONFIG).
Local Abbreviation finalInv' := (finalInv FINAL_ANSWER sha256).

Local Ltac fields st :=
  name_fields st; flat; cbn [solvedCards finalSolved name id answer].

Local Ltac plain_timer :=
  apply Forall_app; split; [assumption |];
  apply Forall_cons; [exact I | apply Forall_nil].

Lemma solvedInv_setStep (v : option AppStep) (st : AppState) :
  solvedInv' st -> solvedInv' (setStep v st).
Proof.
  intros (H1 & H2 & H3).
  destruct (setStep_cases v st) as [[_ ->] | [_ ->]]; [now repeat split |].
  destruct v as [[] |]; cbn [lightTimers]; unfold solvedInv; fields st;
    repeat split; trivial; plain_timer.
Qed.

Lemma solvedInv_reachable (st : AppState) : reachable' st -> solvedInv' st.
Proof.
  intros H.
  apply (reachable_by_cases TEST_MODE TARGET_DATE CARDS_CONFIG FINAL_ANSWER
           sha256 solvedInv') in H; [apply H | | | |].
  - intros t0. unfold solvedInv, init. cbn.
    split; [constructor | split; trivial].
    destruct (initialGameLive _ _ _); repeat constructor.
  - intros s s' _ _ (H1 & H2 & H3) Hus. unfold solvedInv.
    destruct Hus; fields s; repeat split; trivial; try plain_timer.
    + apply Forall_app. split; trivial.
      apply Forall_cons; [| apply Forall_nil]. split; trivial.
      intros _ j [= <-]. now exists card, inputCardAnswer0.
    + apply Forall_app. split; trivial.
      apply Forall_cons; [| apply Forall_nil]. split; trivial.
      discriminate.
  - intros s [due cb] rest _ _ (H1 & H2 & H3) Hpop.
    destruct (Forall_pop _ _ _ _ Hpop H2) as [Hcb Hrest].
    unfold fireTimer. cbn [fst snd].
    set (s0 := setNow (Z.max (now s) due) (setTimers rest s)).
    assert (H0 : solvedInv' s0) by (repeat split; assumption).
    clearbody s0. clear H1 H2 H3 Hpop Hrest s.
    destruct H0 as (H1 & H2 & H3).
    destruct cb; cbn [runCallback].
    + unfold solvedInv. fields s0. destruct (_ <? _); flat;
        repeat split; trivial. plain_timer.
    + unfold solvedInv. fields s0. now repeat split.
    + assert (Hs : solvedInv' (setStep (AppStep_ "CAROUSEL") s0))
        by (apply solvedInv_setStep; repeat split; assumption).
      exact Hs.
    + unfold solvedInv. fields s0. repeat split; trivial. plain_timer.
    + unfold solvedInv. fields s0. repeat split; trivial. plain_timer.
    + unfold solvedInv. fields s0. now repeat split.
    + unfold solvedInv. fields s0. repeat split; trivial.
      apply Forall_app. split; trivial.
      apply Forall_cons; [exact Hcb | apply Forall_nil].
    + destruct Hcb as [Hsv Ha]. cbn [snd] in *.
      unfold solvedInv. fields s0.
      destruct active as [i |]; [| now repeat split].
      destruct solved; cbn [andb]; [| now repeat split].
      destruct (i =? 0) eqn:Ei; cbn [negb]; [now repeat split |].
      apply Z.eqb_neq in Ei.
      assert (Hnew : Forall earned' (solvedSeen ++ [i])).
      { apply Forall_app. split; trivial.
        apply Forall_cons; [| apply Forall_nil]. split; trivial.
        now apply Ha. }
      destruct (Nat.eqb _ _); flat; cbn [solvedCards finalSolved];
        repeat split; trivial. plain_timer.
    + apply solvedInv_setStep. repeat split; assumption.
  - intros s t _ H0 _ _. exact H0.
Qed.

(** *** The name *)

Lemma user_setStep (v : option AppStep) (st : AppState) :
  user (setStep v st) = user st.
Proof. apply setStep_same. Qed.

Lemma user_runCallback_name (cb : Callback) (st : AppState) :
  name (user (runCallback TARGET_DATE CARDS_CONFIG cb st)) = name (user st).
Proof.
  destruct cb; cbn [runCallback]; trivial.
  - unfold countdownTick. destruct (_ <? _); reflexivity.
  - cbn [user setIsTransitioning]. now rewrite user_setStep.
  - unfold closeCommit. destruct active; trivial.
    destruct (_ && _); trivial. destruct (Nat.eqb _ _); reflexivity.
  - now rewrite user_setStep.
Qed.

Lemma pop_nonempty (ts : list Timer) (tm : Timer) (rest : list Timer) :
  popEarliest ts = Some (tm, rest) -> ts <> [].
Proof. intros H E. rewrite E in H. discriminate. Qed.

Lemma nameInv_reachable (st : AppState) : reachable' st -> nameInv st.
Proof.
  intros H.
  apply (reachable_by_cases TEST_MODE TARGET_DATE CARDS_CONFIG FINAL_ANSWER
           sha256 nameInv) in H; [apply H | | | |].
  - intros t0. unfold nameInv, init. cbn.
    repeat split. intros [H0 | [H0 _]]; discriminate.
  - intros s s' (_ & _ & He) _ (H1 & H2 & H3) Hus.
    destruct He as (_ & Hact & _ & Hstart & _).
    unfold nameInv, onCarouselPages in *.
    destruct Hus; unfold onCarouselPages in *; fields s;
      try (split; [assumption | split; [assumption |]];
           intros Hpost; apply H3;
           first [ left; reflexivity
                 | destruct Hpost as [Hp | [Hp Ht]];
                   [now left | right; split; assumption] ]).
    + repeat split; trivial. intros [Hp | [Hp _]]; discriminate.
    + specialize (Hstart eq_refl). subst timers0.
      repeat split; trivial. intros [Hp | [_ Hp]]; [discriminate | congruence].
    + destruct (trim_split inputName0) as (w & v & _ & _ & _ & Hs & He).
      repeat split; trivial.
    + split; [assumption | split; [assumption |]].
      intros _. apply H3. left.
      match goal with
      | Hp : _ \/ _ |- _ =>
          destruct Hp as [Hp | Hp];
          [rewrite Hp in Hact; specialize (Hact eq_refl); discriminate
          | now rewrite Hp]
      end.
    + split; [assumption | split; [assumption |]].
      intros _. apply H3. left.
      match goal with
      | Hp : _ \/ _ |- _ =>
          destruct Hp as [Hp | Hp];
          [rewrite Hp in Hact; specialize (Hact eq_refl); discriminate
          | now rewrite Hp]
      end.
    + split; [assumption | split; [assumption |]].
      intros _. apply H3. left.
      match goal with
      | Hp : _ \/ _ |- _ =>
          destruct Hp as [[[Hp | Hp] Ha] | Hp];
          [rewrite Hp in Hact; specialize (Hact eq_refl); congruence
          | now rewrite Hp ..]
      end.
  - intros s tm rest (_ & _ & He) _ (H1 & H2 & H3) Hpop.
    assert (Hkeep : Js.truthy (name (user s)) = true ->
                    nameInv (fire tm rest s)).
    { intros Ht. unfold nameInv, fireTimer.
      rewrite user_runCallback_name. now repeat split. }
    destruct (isEarly (step s)) eqn:Ee; [| apply Hkeep, H3; now left].
    destruct (early_pop s tm rest He Ee Hpop)
      as [(Es & Ecb & -> & Hlive) | (Es & Ecb & Hn)].
    + unfold nameInv, fireTimer. rewrite user_runCallback_name, Ecb.
      split; [assumption | split; [assumption |]].
      cbn [runCallback]. unfold countdownTick.
      destruct (_ <? _); cbn [step setTimeLeft setIsGameLive setTimeout
                                setTimers setNow]; rewrite Es;
        intros [Hp | [Hp _]]; discriminate.
    + apply Hkeep, H3. right. split; trivial.
      eapply pop_nonempty, Hpop.
  - intros s t _ H0 _ _. exact H0.
Qed.

(** *** The lights and the end *)

Lemma Exists_pop (P : Timer -> Prop) (ts : list Timer) (tm : Timer)
    (rest : list Timer) :
  popEarliest ts = Some (tm, rest) -> Exists P (tm :: rest) -> Exists P ts.
Proof.
  intros Hpop H. apply popEarliest_perm in Hpop.
  apply Exists_exists in H as (x & Hx & Hp). apply Exists_exists.
  exists x. split; trivial. eapply Permutation_in; [symmetry |]; eassumption.
Qed.

Lemma Exists_snoc (P : Timer -> Prop) (ts : list Timer) (x : Timer) :
  Exists P (ts ++ [x]) -> ~ P x -> Exists P ts.
Proof.
  intros H Hx. apply Exists_app in H as [H | H]; trivial.
  inversion H as [? ? Hp | ? ? Hp]; [contradiction | inversion Hp].
Qed.

Local Ltac not_step_timer :=
  let v := fresh in let E := fresh in intros [v E]; discriminate E.

Local Ltac not_leading :=
  let E := fresh in intros [E | E]; discriminate E.

Lemma lightsInv_stepwise :
  stepwise TEST_MODE TARGET_DATE CARDS_CONFIG FINAL_ANSWER sha256 lightsInv'.
Proof.
  split; [| split; [| split]].
  - intros t0. unfold lightsInv, init. cbn. intros [H0 | H0]; [discriminate |].
    destruct (initialGameLive _ _ _); [inversion H0 |].
    apply Exists_snoc with (ts := []) in H0; [inversion H0 | not_step_timer].
  - intros s s' _ _ Hpre Hus. unfold lightsInv in *.
    destruct Hus; unfold onCarouselPages in *; fields s;
      intros Hpost; apply Hpre;
      try (destruct Hpost as [Hp | Hp];
           [first [ discriminate Hp | now left ]
           | right; first [ exact Hp
                          | apply Exists_snoc in Hp;
                            [exact Hp | not_step_timer] ]]).
    now left.
  - intros s [due cb] rest (_ & Hc & _) (_ & Hc' & _) Hpre Hpop.
    assert (Hrest : pastCarousel (step s) = true \/ Exists isStepTimer rest ->
                    List.length (solvedCards (user s))
                      = List.length CARDS_CONFIG /\
                    solvedCards (user s) <> []).
    { intros [Hp | Hp]; apply Hpre; [now left | right].
      eapply Exists_pop; [exact Hpop |]. now apply Exists_cons_tl. }
    assert (Hmine : isStepTimer (due, cb) ->
                    List.length (solvedCards (user s))
                      = List.length CARDS_CONFIG /\
                    solvedCards (user s) <> []).
    { intros Hp. apply Hpre. right.
      eapply Exists_pop; [exact Hpop |]. now apply Exists_cons_hd. }
    destruct Hc as (_ & _ & _ & _ & Hclo).
    destruct (Forall_pop _ _ _ _ Hpop Hclo) as [Hcb _].
    destruct Hc' as (Hnd & Hincl & _).
    clear Hpre Hclo Hpop. revert Hnd Hincl.
    unfold fireTimer, lightsInv. cbn [fst snd].
    destruct cb; cbn [runCallback].
    + intros _ _. fields s. destruct (_ <? _); flat; intros Hpost;
        apply Hrest; (destruct Hpost as [Hp | Hp]; [now left | right]);
        trivial.
      apply Exists_snoc in Hp; [exact Hp | not_step_timer].
    + intros _ _. fields s. exact Hrest.
    + intros _ _.
      match goal with
      | |- context [setStep ?v ?s0] =>
          destruct (setStep_cases v s0) as [[_ ->] | [_ ->]]
      end; cbn [lightTimers AppStep_ lookupMember AppStep_members String.eqb
                  Ascii.eqb Bool.eqb]; fields s.
      * exact Hrest.
      * intros [Hp | Hp]; [discriminate |]. apply Hrest. now right.
    + intros _ _. fields s. intros Hpost; apply Hrest.
      destruct Hpost as [Hp | Hp]; [now left | right].
      apply Exists_snoc in Hp; [exact Hp | not_step_timer].
    + intros _ _. fields s. intros Hpost; apply Hrest.
      destruct Hpost as [Hp | Hp]; [now left | right].
      apply Exists_snoc in Hp; [exact Hp | not_step_timer].
    + intros _ _. fields s. exact Hrest.
    + intros _ _. fields s. intros Hpost; apply Hrest.
      destruct Hpost as [Hp | Hp]; [now left | right].
      apply Exists_snoc in Hp; [exact Hp | not_step_timer].
    + cbn [closureOk snd] in Hcb. destruct Hcb as [-> ->].
      fields s. destruct activeCardId0 as [i |]; [| intros _ _; exact Hrest].
      destruct solved; cbn [andb]; [| intros _ _; exact Hrest].
      destruct (i =? 0) eqn:Ei; cbn [negb]; [intros _ _; exact Hrest |].
      destruct (Nat.eqb _ _) eqn:En; flat; cbn [solvedCards].
      * intros _ _ _. apply Nat.eqb_eq in En. split; trivial.
        now destruct (solvedCards user0).
      * intros Hnd Hincl Hpost. exfalso.
        assert (Hfull : List.length (solvedCards user0)
                        = List.length CARDS_CONFIG) by (now apply Hrest).
        pose proof (NoDup_incl_length Hnd Hincl) as Hle.
        rewrite length_app, length_map in Hle. simpl in Hle. lia.
    + intros _ _ _. rewrite user_setStep. cbn [user setNow setTimers].
      apply Hmine. now exists target.
  - intros s t _ H0 _ _. exact H0.
Qed.

Lemma lightsInv_reachable (st : AppState) : reachable' st -> lightsInv' st.
Proof.
  intros H.
  exact (proj2 (stepwise_reachable TEST_MODE TARGET_DATE CARDS_CONFIG
                  FINAL_ANSWER sha256 _ lightsInv_stepwise st H)).
Qed.

Lemma finalInv_reachable (st : AppState) : reachable' st -> finalInv' st.
Proof.
  intros H.
  apply (reachable_by_cases TEST_MODE TARGET_DATE CARDS_CONFIG FINAL_ANSWER
           sha256 finalInv') in H; [apply H | | | |].
  - intros t0. unfold finalInv, init. cbn.
    intros [H0 | [H0 | H0]]; try discriminate.
    destruct (initialGameLive _ _ _); [inversion H0 |].
    apply Exists_snoc with (ts := []) in H0; [inversion H0 | not_leading].
  - intros s s' _ _ Hpre Hus. unfold finalInv in *.
    destruct Hus; unfold onCarouselPages in *; fields s;
      intros Hpost;
      try (apply Hpre;
           destruct Hpost as [Hp | [Hp | Hp]];
           [first [ discriminate Hp | now left ]
           | first [ discriminate Hp | now (right; left) ]
           | right; right; first [ exact Hp
                                 | apply Exists_snoc in Hp;
                                   [exact Hp | not_leading] ]]).
    now exists inputFinalAnswer0.
  - intros s [due cb] rest _ _ Hpre Hpop.
    assert (Hrest : step s = None \/ step s = Some END \/
                    Exists leadsToEnd rest -> finalAnswered FINAL_ANSWER sha256).
    { intros [Hp | [Hp | Hp]]; apply Hpre; [now left | now (right; left) |].
      right; right.
      eapply Exists_pop; [exact Hpop |]. now apply Exists_cons_tl. }
    assert (Hmine : leadsToEnd (due, cb) -> finalAnswered FINAL_ANSWER sha256).
    { intros Hp. apply Hpre. right; right.
      eapply Exists_pop; [exact Hpop |]. now apply Exists_cons_hd. }
    clear Hpre Hpop.
    unfold fireTimer, finalInv. cbn [fst snd].
    destruct cb; cbn [runCallback].
    + fields s. destruct (_ <? _); flat; intros Hpost;
        apply Hrest; (destruct Hpost as [Hp | [Hp | Hp]];
                      [now left | now (right; left) | right; right]);
        trivial.
      apply Exists_snoc in Hp; [exact Hp | not_leading].
    + fields s. exact Hrest.
    + match goal with
      | |- context [setStep ?v ?s0] =>
          destruct (setStep_cases v s0) as [[_ ->] | [_ ->]]
      end; cbn [lightTimers AppStep_ lookupMember AppStep_members String.eqb
                  Ascii.eqb Bool.eqb]; fields s.
      * exact Hrest.
      * intros [Hp | [Hp | Hp]]; try discriminate. apply Hrest.
        now (right; right).
    + fields s. intros Hpost; apply Hrest.
      destruct Hpost as [Hp | [Hp | Hp]];
        [now left | now (right; left) | right; right].
      apply Exists_snoc in Hp; [exact Hp | not_leading].
    + fields s. intros Hpost; apply Hrest.
      destruct Hpost as [Hp | [Hp | Hp]];
        [now left | now (right; left) | right; right].
      apply Exists_snoc in Hp; [exact Hp | not_leading].
    + fields s. exact Hrest.
    + fields s. intros Hpost; apply Hrest.
      destruct Hpost as [Hp | [Hp | Hp]];
        [now left | now (right; left) | right; right].
      apply Exists_snoc in Hp; [exact Hp | not_leading].
    + fields s. destruct active as [i |]; [| exact Hrest].
      destruct solved; cbn [andb]; [| exact Hrest].
      destruct (i =? 0) eqn:Ei; cbn [negb]; [exact Hrest |].
      destruct (Nat.eqb _ _) eqn:En; flat; [| exact Hrest].
      intros Hpost; apply Hrest.
      destruct Hpost as [Hp | [Hp | Hp]];
        [now left | now (right; left) | right; right].
      apply Exists_snoc in Hp; [exact Hp | not_leading].
    + match goal with
      | |- context [setStep ?v ?s0] =>
          destruct (setStep_cases v s0) as [[_ ->] | [_ ->]]
      end.
      * fields s. exact Hrest.
      * destruct target as [[] |]; cbn [lightTimers]; fields s;
          try (intros _; apply Hmine; first [now left | now right]);
          intros [Hp | [Hp | Hp]]; try discriminate; apply Hrest;
          right; right; trivial;
          (apply Exists_snoc in Hp; [exact Hp | not_leading]).
  - intros s t _ H0 _ _. exact H0.
Qed.

(** *** What follows for a player *)

Local Abbreviation run' := (run TARGET_DATE CARDS_CONFIG FINAL_ANSWER sha256).

(** X10. Every id in solvedCards was earned: it is not 0, a card of the
    configuration carries it, and some input passes the answer check of
    that card. No card is marked solved in any other way. *)
Theorem solved_cards_were_answered (st : AppState) (i : Z)
    (Hreach : reachable' st) (Hin : In i (solvedCards (user st))) :
  i <> 0 /\
  exists card input,
    In card CARDS_CONFIG /\ id card = i /\
    answerMatches sha256 input (answer card) = true.
Proof.
  destruct (solvedInv_reachable st Hreach) as (H & _ & _).
  rewrite Forall_forall in H. exact (H i Hin).
Qed.

(** X11. The field finalSolved of the profile is false in every reachable
    state, the states after an accepted final answer and END included:
    nothing in App sets it. *)
Theorem finalSolved_is_never_set (st : AppState) (Hreach : reachable' st) :
  finalSolved (user st) = false.
Proof. now destruct (solvedInv_reachable st Hreach) as (_ & _ & H). Qed.

(** Past the step NAME the state keeps its name and stays past NAME,
    whatever the event. *)
Lemma late_name_kept (n : string) (e : Event) (st : AppState) :
  baseInv' st /\ isEarly (step st) = false /\ name (user st) = n ->
  baseInv' (handle' e st) /\ isEarly (step (handle' e st)) = false /\
  name (user (handle' e st)) = n.
Proof.
  apply (handle_invariant TARGET_DATE CARDS_CONFIG FINAL_ANSWER sha256
           (fun s => baseInv' s /\ isEarly (step s) = false /\
                     name (user s) = n)).
  - clear e st. intros e s He (HB & Hl & Hn).
    split; [now apply baseInv_user_event |].
    destruct (handle_userStep TARGET_DATE CARDS_CONFIG FINAL_ANSWER sha256
                e s He) as [-> | Hus]; [now split |].
    destruct Hus; unfold onCarouselPages in *; fields s;
      try discriminate; now split.
  - clear e st. intros s tm rest (HB & Hl & Hn) Hpop.
    pose proof (baseInv_fire TARGET_DATE CARDS_CONFIG s tm rest HB Hpop)
      as HB'.
    split; [exact HB' |]. split.
    + destruct HB as (_ & _ & Hlate & _).
      destruct (Forall_pop _ _ _ _ Hpop Hlate) as [Htm _].
      unfold fireTimer. destruct tm as [due cb]. cbn [fst snd] in *.
      destruct cb; cbn [runCallback]; trivial.
      * unfold countdownTick. destruct (_ <? _); exact Hl.
      * cbn [step setIsTransitioning]. now rewrite step_setStep.
      * unfold closeCommit. destruct active; trivial.
        destruct (_ && _); trivial. destruct (Nat.eqb _ _); exact Hl.
      * rewrite step_setStep. exact Htm.
    + unfold fireTimer. now rewrite user_runCallback_name.
  - clear e st. intros s t (HB & Hl & Hn).
    split; [now apply baseInv_clock | now split].
Qed.

(** X12. The name is settled before the carousel. In every reachable state
    past the step NAME the name of the profile is not empty and has no
    whitespace at either end, and no sequence of events changes it any
    more. *)
Theorem name_is_settled_before_the_carousel
    (st : AppState) (evs : list Event)
    (Hreach : reachable' st) (Hlate : isEarly (step st) = false) :
  Js.truthy (name (user st)) = true /\
  Js.startsWhite (name (user st)) = false /\
  Js.endsWhite (name (user st)) = false /\
  name (user (run' evs st)) = name (user st) /\
  isEarly (step (run' evs st)) = false.
Proof.
  destruct (nameInv_reachable st Hreach) as (H1 & H2 & H3).
  split; [apply H3; now left |]. split; [exact H1 |]. split; [exact H2 |].
  assert (HB : baseInv' st).
  { split; [| split].
    - eapply stepInv_reachable, Hreach.
    - eapply cardInv_reachable, Hreach.
    - eapply earlyInv_reachable, Hreach. }
  pose proof (run_invariant TARGET_DATE CARDS_CONFIG FINAL_ANSWER sha256
                (fun s => baseInv' s /\ isEarly (step s) = false /\
                          name (user s) = name (user st))
                (late_name_kept (name (user st))) evs st
                (conj HB (conj Hlate eq_refl))) as (_ & Hl & Hn).
  now split.
Qed.

Lemma id_determines_card (l : list CardConfig) (a b : CardConfig) :
  NoDup (map id l) -> In a l -> In b l -> id a = id b -> a = b.
Proof.
  induction l as [| c l IH]; simpl; [tauto |].
  intros Hnd [-> | Ha] [-> | Hb] E; trivial.
  - inversion Hnd as [| ? ? Hnot _]. exfalso. apply Hnot.
    rewrite E. now apply in_map.
  - inversion Hnd as [| ? ? Hnot _]. exfalso. apply Hnot.
    rewrite <- E. now apply in_map.
  - inversion Hnd. now apply IH.
Qed.

(** X13. The lights are reached only by solving every card. In a reachable
    state past the carousel every card of the configuration is in
    solvedCards, once each; so the configuration is not empty, its ids are
    pairwise different and none is 0, and for each of its cards some input
    passes the answer check. A configuration that lacks one of these can
    never leave the carousel. *)
Theorem lights_are_reached_only_with_every_card_solved
    (st : AppState)
    (Hreach : reachable' st) (Hpast : pastCarousel (step st) = true) :
  List.length (solvedCards (user st)) = List.length CARDS_CONFIG /\
  (forall card, In card CARDS_CONFIG -> In (id card) (solvedCards (user st))) /\
  CARDS_CONFIG <> [] /\ NoDup (map id CARDS_CONFIG) /\
  (forall card, In card CARDS_CONFIG ->
     id card <> 0 /\
     exists input, answerMatches sha256 input (answer card) = true).
Proof.
  destruct (lightsInv_reachable st Hreach (or_introl Hpast)) as [Hlen Hne].
  destruct (cardInv_reachable _ _ _ _ _ st Hreach) as (Hnd & Hincl & _).
  assert (Hback : incl (map id CARDS_CONFIG) (solvedCards (user st))).
  { apply NoDup_length_incl; trivial. rewrite length_map. lia. }
  assert (Hids : NoDup (map id CARDS_CONFIG)).
  { eapply NoDup_incl_NoDup; [exact Hnd | | exact Hincl].
    rewrite length_map. lia. }
  split; [exact Hlen |]. split; [| split; [| split; [exact Hids |]]].
  - intros card Hc. apply Hback. now apply in_map.
  - intros E. rewrite E in Hlen. destruct (solvedCards (user st));
      [now apply Hne | discriminate].
  - intros card Hc.
    assert (Hs : In (id card) (solvedCards (user st)))
      by (apply Hback; now apply in_map).
    destruct (solvedInv_reachable st Hreach) as (He & _ & _).
    rewrite Forall_forall in He.
    destruct (He _ Hs) as (H0 & card' & input & Hc' & Hid & Hm).
    split; [exact H0 |]. exists input.
    now rewrite <- (id_determines_card _ _ _ Hids Hc' Hc Hid).
Qed.

(** X14. The end is reached only by the final answer: in a reachable state
    whose step is the value of LIGHT_4 or END some input has passed the
    check against FINAL_ANSWER. *)
Theorem end_is_reached_only_by_the_final_answer (st : AppState)
    (Hreach : reachable' st)
    (Hend : step st = AppStep_ "LIGHT_4" \/ step st = Some END) :
  exists input, answerMatches sha256 input FINAL_ANSWER = true.
Proof.
  apply (finalInv_reachable st Hreach).
  destruct Hend as [H | H]; [now left | now (right; left)].
Qed.

End Profile.

Lemma whole_game_reachable :
  App.reachable false 0 Demo.cards Demo.finalAnswer Demo.digest
    (Demo.play Demo.wholeGame).
Proof. exists 10, Demo.wholeGame. reflexivity. Qed.

Lemma solved_cards_were_answered_witness :
  exists card input,
    In card Demo.cards /\ Types.id card = 2 /\
    App.answerMatches Demo.digest input (Types.answer card) = true.
Proof.
  refine (proj2 (solved_cards_were_answered false 0 Demo.cards Demo.finalAnswer
                   Demo.digest (Demo.play Demo.wholeGame) 2
                   whole_game_reachable _)).
  vm_compute. auto.
Defined.

Lemma finalSolved_is_never_set_witness :
  App.step (Demo.play Demo.wholeGame) = Some Types.END /\
  Types.finalSolved (App.user (Demo.play Demo.wholeGame)) = false.
Proof.
  split; [vm_compute; reflexivity |].
  exact (finalSolved_is_never_set false 0 Demo.cards Demo.finalAnswer
           Demo.digest (Demo.play Demo.wholeGame) whole_game_reachable).
Defined.

Lemma name_is_settled_before_the_carousel_witness :
  Js.truthy (Types.name (App.user (Demo.play Demo.wholeGame))) = true.
Proof.
  refine (proj1 (name_is_settled_before_the_carousel false 0 Demo.cards
                   Demo.finalAnswer Demo.digest (Demo.play Demo.wholeGame) []
                   whole_game_reachable _)).
  vm_compute. reflexivity.
Defined.

Lemma lights_are_reached_only_with_every_card_solved_witness :
  List.length (Types.solvedCards (App.user (Demo.play Demo.wholeGame)))
    = List.length Demo.cards.
Proof.
  refine (proj1 (lights_are_reached_only_with_every_card_solved false 0
                   Demo.cards Demo.finalAnswer Demo.digest
                   (Demo.play Demo.wholeGame) whole_game_reachable _)).
  vm_compute. reflexivity.
Defined.

Lemma end_is_reached_only_by_the_final_answer_witness :
  exists input,
    App.answerMatches Demo.digest input Demo.finalAnswer = true.
Proof.
  refine (end_is_reached_only_by_the_final_answer false 0 Demo.cards
            Demo.finalAnswer Demo.digest (Demo.play Demo.wholeGame)
            whole_game_reachable _).
  right. vm_compute. reflexivity.
Defined.

(* ------------------------------------------------------------------ *)
(** ** The images *)

Section Images.

Import Types App.

Variable TEST_MODE : bool.
Variable TARGET_DATE : Z.
Variable CARDS_CONFIG : list CardConfig.
Variable FINAL_ANSWER : string.
Variable sha256 : list byte -> list byte.

Local Abbreviation reachable' :=
  (reachable TEST_MODE TARGET_DATE CARDS_CONFIG FINAL_ANSWER sha256).
Local Abbreviation preloaded := (preloadImages CARDS_CONFIG).

Lemma fixed_image_preloaded (n : string) :
  In n ["home.png"; "start.png"; "name.png"; "carousel.png"; "light_1.png";
        "light_2.png"; "light_3.png"; "light_4.png"; "end.png"] ->
  In n preloaded.
Proof.
  unfold preloadImages. intros H. rewrite !in_app_iff.
  simpl in H. simpl.
  repeat (destruct H as [<- | H]; [tauto |]). destruct H.
Qed.

Lemma card_image_preloaded (i : Z) (side : string) :
  In i (map id CARDS_CONFIG) -> side = "front" \/ side = "back" ->
  In (cardImage i side) preloaded.
Proof.
  intros Hi Hs. apply in_map_iff in Hi as (c & <- & Hc).
  unfold preloadImages. rewrite !in_app_iff.
  destruct Hs as [-> | ->].
  - right; left. apply in_map_iff. now exists c.
  - right; right; left. apply in_map_iff. now exists c.
Qed.

(** X15. Every image of a render was preloaded. In a reachable state each
    name that an [img] element hands to [getImg] is among the names the
    preload effect handed to it at the mount: the pages, the lights, the
    front of every visible card and both sides of the active card. The
    preload list has nine names and two per card. *)
Theorem rendered_images_are_preloaded (st : AppState) (n : string)
    (Hreach : reachable' st)
    (Hin : In n (renderedImages CARDS_CONFIG st)) :
  In n preloaded /\
  List.length preloaded = (9 + 2 * List.length CARDS_CONFIG)%nat.
Proof.
  split.
  - destruct (cardInv_reachable _ _ _ _ _ st Hreach) as (_ & _ & Ha & _).
    unfold renderedImages in Hin. rewrite !in_app_iff in Hin.
    repeat match type of Hin with
           | _ \/ _ => destruct Hin as [Hin | Hin]
           end;
      repeat match type of Hin with
             | In _ (if ?c then _ else _) => destruct c; [| destruct Hin]
             end;
      try (apply fixed_image_preloaded; simpl in *; tauto).
    rewrite !in_app_iff in Hin.
    destruct Hin as [Hin | [Hin | Hin]].
    + destruct (showCarouselBg st); [| destruct Hin].
      apply fixed_image_preloaded; simpl in *; tauto.
    + destruct (showCarouselUI st); [| destruct Hin].
      rewrite in_app_iff in Hin. destruct Hin as [Hin | Hin].
      * apply in_map_iff in Hin as (c & <- & Hc).
        apply card_image_preloaded; [| now left].
        apply in_map. unfold visibleCards in Hc.
        now apply In_slice in Hc.
      * destruct (activeCardId st) as [i |] eqn:Ei; [| destruct Hin].
        destruct (Ha i eq_refl) as [_ Hi].
        destruct Hin as [<- | [<- | []]];
          apply card_image_preloaded; auto.
    + apply fixed_image_preloaded; simpl in *; tauto.
  - unfold preloadImages. rewrite !length_app, !length_map. simpl. lia.
Qed.

End Images.

Lemma rendered_images_are_preloaded_witness :
  In "card_2_back.png" (App.preloadImages Demo.cards).
Proof.
  refine (proj1 (rendered_images_are_preloaded false 0 Demo.cards
                   Demo.finalAnswer Demo.digest
                   (Demo.play (Demo.toCarousel ++ Demo.solveFirst
                               ++ [App.ClickCard 1%nat]))
                   "card_2_back.png" _ _)).
  - eexists 10, _. reflexivity.
  - vm_compute. tauto.
Defined.

(* ------------------------------------------------------------------ *)
(** ** The animation lock *)

Section Lock.

Import Types App.

Variable TEST_MODE : bool.
Variable TARGET_DATE : Z.
Variable CARDS_CONFIG : list CardConfig.
Variable FINAL_ANSWER : string.
Variable sha256 : list byte -> list byte.

Local Abbreviation handle' :=
  (handle TARGET_DATE CARDS_CONFIG FINAL_ANSWER sha256).
Local Abbreviation reachable' :=
  (reachable TEST_MODE TARGET_DATE CARDS_CONFIG FINAL_ANSWER sha256).
Local Abbreviation fire := (fireTimer TARGET_DATE CARDS_CONFIG).
Local Abbreviation baseInv' := (baseInv CARDS_CONFIG).

Local Ltac fields st :=
  name_fields st; flat; cbn [solvedCards finalSolved name id answer].

Lemma animCount_none (ts : list Timer) :
  animCount ts = O <-> Forall (fun tm => isAnimCb (snd tm) = false) ts.
Proof.
  unfold animCount. induction ts as [| tm ts IH]; simpl.
  - split; [constructor | reflexivity].
  - destruct (isAnimCb (snd tm)) eqn:E; simpl.
    + split; [discriminate |]. intros H. inversion H. congruence.
    + rewrite IH. split; [now constructor | intros H; now inversion H].
Qed.

Lemma animOk_plain (st : AppState) (ts : list Timer) :
  animCount ts = O -> Forall (animOk st) ts.
Proof.
  intros H. apply animCount_none in H.
  eapply Forall_impl; [| exact H].
  intros tm E Ha. congruence.
Qed.

Lemma animOk_later (st st' : AppState) (tm : Timer) :
  activeCardId st' = activeCardId st -> isExpanded st' = isExpanded st ->
  isFlipped st' = isFlipped st -> now st <= now st' ->
  animOk st tm -> animOk st' tm.
Proof.
  unfold animOk. intros Ea Ee Ef Hn H Hcb.
  destruct (H Hcb) as (H1 & H2 & H3). rewrite Ea.
  split; [exact H1 |]. split; [| lia].
  destruct (snd tm); cbn [phaseFlags] in *; rewrite ?Ee, ?Ef; trivial.
Qed.

(** A step that leaves the card and its animation alone: some pending
    timers are kept, and timers that are no animation callbacks are
    added. *)
Lemma lockInv_plain (st st' : AppState) (kept new : list Timer) :
  lockInv st ->
  activeCardId st' = activeCardId st -> isExpanded st' = isExpanded st ->
  isFlipped st' = isFlipped st -> isAnimating st' = isAnimating st ->
  now st <= now st' -> timers st' = kept ++ new ->
  animCount kept = animCount (timers st) ->
  (forall x, In x kept -> In x (timers st) /\ now st' <= fst x) ->
  Forall (fun tm => isAnimCb (snd tm) = false /\ now st' <= fst tm) new ->
  lockInv st'.
Proof.
  intros (Ht & Hl & Ha) Ea Ee Ef El Hn Et Hc Hk Hnew.
  assert (Hplain : animCount new = O).
  { apply animCount_none. eapply Forall_impl; [| exact Hnew]. now intros ? []. }
  unfold lockInv, timely. rewrite Et, El, animCount_app, Hplain, Hc, Nat.add_0_r.
  split; [| split].
  - apply Forall_app. split.
    + apply Forall_forall. intros x Hx. now apply Hk.
    + eapply Forall_impl; [| exact Hnew]. now intros ? [].
  - destruct (isAnimating st); trivial. destruct Hl as [Hr Hz].
    split; trivial. unfold atRest in *. now rewrite Ea, Ee, Ef.
  - apply Forall_app. split; [| now apply animOk_plain].
    apply Forall_forall. intros x Hx. rewrite Forall_forall in Ha.
    apply (animOk_later st); trivial. apply Ha. now apply Hk.
Qed.

Lemma lockInv_plain_same (st st' : AppState) (new : list Timer) :
  lockInv st ->
  activeCardId st' = activeCardId st -> isExpanded st' = isExpanded st ->
  isFlipped st' = isFlipped st -> isAnimating st' = isAnimating st ->
  now st' = now st -> timers st' = timers st ++ new ->
  Forall (fun tm => isAnimCb (snd tm) = false /\ now st <= fst tm) new ->
  lockInv st'.
Proof.
  intros H Ea Ee Ef El En Et Hnew.
  apply (lockInv_plain st st' (timers st) new); trivial; try lia.
  - intros x Hx. split; trivial. rewrite En.
    destruct H as (Ht & _). unfold timely in Ht.
    rewrite Forall_forall in Ht. now apply Ht.
  - now rewrite En.
Qed.

(** The start of an animation from rest: one animation callback is
    added. *)
Lemma lockInv_start (st st' : AppState) (tm : Timer) :
  lockInv st -> isAnimating st = false ->
  isAnimating st' = true -> now st' = now st ->
  timers st' = timers st ++ [tm] -> isAnimCb (snd tm) = true ->
  now st <= fst tm -> animOk st' tm -> lockInv st'.
Proof.
  intros (Ht & Hl & Ha) El El' En Et Hcb Hdue Hok.
  rewrite El in Hl. destruct Hl as [_ Hz].
  unfold lockInv, timely. rewrite Et, El', En, animCount_app, Hz.
  split; [| split].
  - apply Forall_app. split; trivial.
    apply Forall_cons; [exact Hdue | apply Forall_nil].
  - unfold animCount. simpl. rewrite Hcb. simpl. lia.
  - apply Forall_app. split; [now apply animOk_plain |].
    apply Forall_cons; [exact Hok | apply Forall_nil].
Qed.

Lemma lockInv_user (st st' : AppState) :
  lockInv st -> userStep CARDS_CONFIG FINAL_ANSWER sha256 st st' ->
  lockInv st'.
Proof.
  intros H Hus.
  destruct Hus;
    try (apply (lockInv_plain_same st _ []); trivial;
         first [symmetry; apply app_nil_r | constructor]).
  - apply (lockInv_plain_same st _ [(now st + 1000, CbNameDone)]); trivial.
    repeat constructor. simpl. lia.
  - eapply (lockInv_start st); trivial; try reflexivity; [simpl; lia |].
    destruct H as (_ & Hl & _).
    match goal with E : isAnimating st = false |- _ => rewrite E in Hl end.
    destruct Hl as [Hr _]. intros _. cbn.
    split; [discriminate |]. split; [| lia].
    destruct Hr as [(_ & -> & ->) | (_ & -> & ->)]; reflexivity.
  - eapply (lockInv_start st); trivial; try reflexivity; [simpl; lia |].
    destruct H as (_ & Hl & _).
    match goal with E : isAnimating st = false |- _ => rewrite E in Hl end.
    destruct Hl as [Hr _]. intros _. cbn.
    split; [congruence |]. split; [| lia].
    destruct Hr as [(Hn & _) | (_ & -> & _)]; [congruence | now split].
  - eapply (lockInv_start st); trivial; try reflexivity; [simpl; lia |].
    destruct H as (_ & Hl & _).
    match goal with E : isAnimating st = false |- _ => rewrite E in Hl end.
    destruct Hl as [Hr _]. intros _. cbn.
    split; [congruence |]. split; [| lia].
    destruct Hr as [(Hn & _) | (_ & -> & _)]; [congruence | now split].
  - apply (lockInv_plain_same st _ [(now st + 500, CbClearShake)]); trivial.
    repeat constructor. simpl. lia.
  - apply (lockInv_plain_same st _ [(now st + 1200, CbSetStep (Some END))]);
      trivial.
    repeat constructor. simpl. lia.
Qed.

Lemma lockInv_fire (st : AppState) (tm : Timer) (rest : list Timer) :
  cardInv CARDS_CONFIG st -> lockInv st ->
  popEarliest (timers st) = Some (tm, rest) -> lockInv (fire tm rest st).
Proof.
  intros (_ & _ & _ & Hone & _) H Hpop.
  pose proof H as (Ht & Hl & Ha).
  destruct tm as [due cb].
  pose proof (popEarliest_perm _ _ _ Hpop) as Hperm.
  assert (Hin : In (due, cb) (timers st)).
  { eapply Permutation_in; [symmetry; exact Hperm | now left]. }
  assert (Hdue : now st <= due).
  { unfold timely in Ht. rewrite Forall_forall in Ht. exact (Ht _ Hin). }
  assert (Hkept : forall x, In x rest -> In x (timers st) /\ due <= fst x).
  { intros x Hx.
    assert (Hx' : In x (timers st)).
    { eapply Permutation_in; [symmetry; exact Hperm | now right]. }
    split; trivial. exact (popEarliest_least _ _ _ Hpop x Hx'). }
  pose proof (animCount_pop _ _ _ Hpop) as Hcount. cbn [snd] in Hcount.
  unfold fireTimer. cbn [fst snd]. rewrite (Z.max_r _ _ Hdue).
  set (s0 := setNow due (setTimers rest st)).
  destruct (isAnimCb cb) eqn:Ecb.
  - (* an animation callback *)
    assert (El : isAnimating st = true).
    { destruct (isAnimating st); trivial. destruct Hl as [_ Hz]. lia. }
    rewrite El in Hone.
    assert (Hz : animCount rest = O) by lia.
    rewrite Forall_forall in Ha. specialize (Ha _ Hin Ecb).
    cbn [fst snd] in Ha. destruct Ha as (Hact & Hflags & Hbound).
    assert (Hlater : Forall (fun tm => due <= fst tm) rest).
    { apply Forall_forall. intros x Hx. now apply Hkept. }
    clear Hkept Hin Hperm Hpop H Ht Hl Hcount Hone.
    subst s0. unfold lockInv, timely, atRest.
    destruct cb; try discriminate; cbn [runCallback phaseFlags] in *.
    5: { destruct Hflags as [He Hf].
         assert (Hclosed : forall st' new,
                   activeCardId st' = None -> isExpanded st' = false ->
                   isFlipped st' = false -> isAnimating st' = false ->
                   now st' = due -> timers st' = rest ++ new ->
                   Forall (fun tm => isAnimCb (snd tm) = false /\
                                     due <= fst tm) new ->
                   lockInv st').
         { intros st' new Ea Ee Ef El0 En Et Hnew.
           assert (Hp : animCount (rest ++ new) = O).
           { rewrite animCount_app, Hz. apply animCount_none.
             eapply Forall_impl; [| exact Hnew]. now intros ? []. }
           unfold lockInv, timely, atRest. rewrite Ea, Ee, Ef, El0, En, Et.
           split; [| split].
           - apply Forall_app. split; trivial.
             eapply Forall_impl; [| exact Hnew]. now intros ? [].
           - split; [left; now repeat split | exact Hp].
           - now apply animOk_plain. }
         unfold closeCommit.
         destruct active as [i |];
           [| apply (Hclosed _ []); trivial;
              first [symmetry; apply app_nil_r | constructor]].
         destruct (solved && truthyId (Some i));
           [| apply (Hclosed _ []); trivial;
              first [symmetry; apply app_nil_r | constructor]].
         destruct (Nat.eqb _ _).
         - eapply (Hclosed _ [_]); trivial; [reflexivity |].
           apply Forall_cons; [| apply Forall_nil].
           split; [reflexivity | cbn; lia].
         - apply (Hclosed _ []); trivial;
             first [symmetry; apply app_nil_r | constructor]. }
    all: fields st.
    + split; [| split].
      * apply Forall_app. split; trivial.
        apply Forall_cons; [lia | apply Forall_nil].
      * rewrite animCount_app, Hz. cbn. lia.
      * apply Forall_app. split; [now apply animOk_plain |].
        apply Forall_cons; [| apply Forall_nil].
        intros _. cbn. split; trivial. split; [reflexivity | lia].
    + split; [| split].
      * apply Forall_app. split; trivial.
        apply Forall_cons; [lia | apply Forall_nil].
      * rewrite animCount_app, Hz. cbn. lia.
      * apply Forall_app. split; [now apply animOk_plain |].
        apply Forall_cons; [| apply Forall_nil].
        intros _. cbn. split; trivial. split; [now split | lia].
    + split; [trivial | split].
      * destruct Hflags. split; [right; now repeat split | exact Hz].
      * now apply animOk_plain.
    + split; [| split].
      * apply Forall_app. split; trivial.
        apply Forall_cons; [lia | apply Forall_nil].
      * rewrite animCount_app, Hz. cbn. lia.
      * apply Forall_app. split; [now apply animOk_plain |].
        apply Forall_cons; [| apply Forall_nil].
        intros _. cbn. destruct Hflags. split; trivial.
        split; [now split | lia].
  - (* any other callback *)
    assert (Hc0 : animCount rest = animCount (timers st)) by lia.
    destruct cb; try discriminate; cbn [runCallback].
    + unfold countdownTick. cbn [now s0 setNow].
      destruct (_ <? _).
      * apply (lockInv_plain st _ rest []); trivial;
          first [symmetry; apply app_nil_r | constructor].
      * eapply (lockInv_plain st _ rest [_]); trivial; [reflexivity |].
        apply Forall_cons; [| apply Forall_nil]. split; [reflexivity |].
        cbn. lia.
    + apply (lockInv_plain st _ rest []); trivial;
        first [symmetry; apply app_nil_r | constructor].
    + destruct (setStep_cases (AppStep_ "CAROUSEL") s0) as [[_ ->] | [_ ->]];
        cbn [lightTimers AppStep_ lookupMember AppStep_members String.eqb
               Ascii.eqb Bool.eqb];
        (apply (lockInv_plain st _ rest []); trivial;
         first [symmetry; apply app_nil_r | constructor]).
    + destruct (setStep_cases target s0) as [[_ ->] | [_ ->]].
      * apply (lockInv_plain st _ rest []); trivial;
          first [symmetry; apply app_nil_r | constructor].
      * destruct target as [[] |]; cbn [lightTimers];
          first [ apply (lockInv_plain st _ rest []); trivial;
                  first [symmetry; apply app_nil_r | constructor]
                | eapply (lockInv_plain st _ rest [_]); trivial;
                  [reflexivity |];
                  apply Forall_cons; [| apply Forall_nil];
                  split; [reflexivity | cbn; lia] ].
Qed.

Lemma lockInv_stepwise :
  stepwise TEST_MODE TARGET_DATE CARDS_CONFIG FINAL_ANSWER sha256 lockInv.
Proof.
  split; [| split; [| split]].
  - intros t0. unfold lockInv, timely, atRest, init. cbn.
    destruct (initialGameLive _ _ _); cbn.
    + repeat split; auto.
    + split; [repeat constructor; cbn; lia |]. split; [auto |].
      apply Forall_cons; [intros E; discriminate E | apply Forall_nil].
  - intros s s' _ _ Hl Hus. now apply (lockInv_user s).
  - intros s tm rest (_ & Hc & _) _ Hl Hpop. now apply lockInv_fire.
  - intros s t _ Hl Hn Hs.
    apply (lockInv_plain s _ (timers s) []); trivial;
      first [ cbn; symmetry; apply app_nil_r
            | intros x Hx; split; trivial; cbn; specialize (Hs x Hx); lia
            | apply Forall_nil ].
Qed.


(** The timers a firing adds come after the ones that stay, are due no
    earlier than the firing, and an animation callback among them takes
    over the release instant of the one that fired. *)
Lemma fire_new_timers (st : AppState) (tm : Timer) (rest : list Timer) :
  exists new,
    timers (fire tm rest st) = rest ++ new /\
    Forall (fun x =>
              Z.max (now st) (fst tm) <= fst x /\
              (isAnimCb (snd x) = true ->
               isAnimCb (snd tm) = true /\
               fst x + unlockAfter (snd x)
               = Z.max (now st) (fst tm) + unlockAfter (snd tm))) new.
Proof.
  destruct tm as [due cb]. unfold fireTimer. cbn [fst snd].
  set (t := Z.max (now st) due).
  set (s0 := setNow t (setTimers rest st)).
  assert (Hnil : forall s', timers s' = rest ->
            exists new, timers s' = rest ++ new /\
              Forall (fun x =>
                        t <= fst x /\
                        (isAnimCb (snd x) = true ->
                         isAnimCb cb = true /\
                         fst x + unlockAfter (snd x) = t + unlockAfter cb))
                new).
  { intros s' E. exists []. rewrite app_nil_r. split; [exact E | constructor]. }
  assert (Hone : forall s' x, timers s' = rest ++ [x] -> t <= fst x ->
            (isAnimCb (snd x) = true ->
             isAnimCb cb = true /\
             fst x + unlockAfter (snd x) = t + unlockAfter cb) ->
            exists new, timers s' = rest ++ new /\
              Forall (fun x =>
                        t <= fst x /\
                        (isAnimCb (snd x) = true ->
                         isAnimCb cb = true /\
                         fst x + unlockAfter (snd x) = t + unlockAfter cb))
                new).
  { intros s' x E H1 H2. exists [x]. split; [exact E |].
    apply Forall_cons; [now split | apply Forall_nil]. }
  destruct cb; cbn [runCallback].
  - unfold countdownTick. destruct (_ <? _); [now apply Hnil |].
    eapply Hone; [reflexivity | cbn; lia | discriminate].
  - now apply Hnil.
  - destruct (setStep_cases (AppStep_ "CAROUSEL") s0) as [[_ ->] | [_ ->]];
      now apply Hnil.
  - eapply Hone; [reflexivity | cbn; lia |]. intros _. cbn. split; trivial. lia.
  - eapply Hone; [reflexivity | cbn; lia |]. intros _. cbn. split; trivial. lia.
  - now apply Hnil.
  - eapply Hone; [reflexivity | cbn; lia |]. intros _. cbn. split; trivial. lia.
  - unfold closeCommit. destruct active; [| now apply Hnil].
    destruct (_ && _); [| now apply Hnil].
    destruct (Nat.eqb _ _); [| now apply Hnil].
    eapply Hone; [reflexivity | cbn; lia | discriminate].
  - destruct (setStep_cases target s0) as [[_ ->] | [_ ->]];
      [now apply Hnil |].
    destruct target as [[] |]; cbn [lightTimers];
      first [ now apply Hnil
            | eapply Hone; [reflexivity | cbn; lia | discriminate] ].
Qed.





End Lock.



(* ------------------------------------------------------------------ *)
(** ** The error pulse in every reachable state *)

Section Pulse.

Import Types App.

Variable TEST_MODE : bool.
Variable TARGET_DATE : Z.
Variable CARDS_CONFIG : list CardConfig.
Variable FINAL_ANSWER : string.
Variable sha256 : list byte -> list byte.

Local Abbreviation reachable' :=
  (reachable TEST_MODE TARGET_DATE CARDS_CONFIG FINAL_ANSWER sha256).
Local Abbreviation fire := (fireTimer TARGET_DATE CARDS_CONFIG).

Local Ltac fields st :=
  name_fields st; flat; cbn [solvedCards finalSolved name id answer].

Lemma shakeError_setStep (v : option AppStep) (st : AppState) :
  shakeError (setStep v st) = shakeError st.
Proof.
  destruct (setStep_cases v st) as [[_ ->] | [_ ->]]; trivial.
  destruct (lightTimers _ _); reflexivity.
Qed.

(** Only the clearing callback touches the pulse. *)
Lemma shakeError_runCallback (cb : Callback) (st : AppState) :
  cb <> CbClearShake ->
  shakeError (runCallback TARGET_DATE CARDS_CONFIG cb st) = shakeError st.
Proof.
  intros Hcb. destruct cb; cbn [runCallback]; trivial.
  - unfold countdownTick. destruct (_ <? _); reflexivity.
  - congruence.
  - cbn [shakeError setIsTransitioning]. apply shakeError_setStep.
  - unfold closeCommit. destruct active; trivial.
    destruct (_ && _); trivial. destruct (Nat.eqb _ _); reflexivity.
  - apply shakeError_setStep.
Qed.

(** A firing other than the clearing one leaves the pulse as it is and
    the clearing callbacks pending. *)
Lemma clear_stays_pending (st : AppState) (tm : Timer) (rest : list Timer)
    (due : Z) :
  popEarliest (timers st) = Some (tm, rest) -> snd tm <> CbClearShake ->
  In (due, CbClearShake) (timers st) ->
  In (due, CbClearShake) (timers (fire tm rest st)).
Proof.
  intros Hpop Hcb Hin.
  apply (Permutation_in _ (popEarliest_perm _ _ _ Hpop)) in Hin.
  destruct Hin as [E | Hin]; [rewrite E in Hcb; now contradiction Hcb |].
  destruct (fire_new_timers TARGET_DATE CARDS_CONFIG st tm rest)
    as (new & -> & _).
  apply in_or_app. now left.
Qed.

Lemma callback_eq_clear (cb : Callback) :
  {cb = CbClearShake} + {cb <> CbClearShake}.
Proof. destruct cb; first [now left | now right]. Qed.

Lemma pulse_fire (T : Z) (st : AppState) (tm : Timer) (rest : list Timer) :
  (shakeError st = true ->
   exists due, In (due, CbClearShake) (timers st) /\ due <= T) ->
  popEarliest (timers st) = Some (tm, rest) ->
  shakeError (fire tm rest st) = true ->
  exists due, In (due, CbClearShake) (timers (fire tm rest st)) /\ due <= T.
Proof.
  intros H Hpop Hs.
  destruct (callback_eq_clear (snd tm)) as [E | E].
  - unfold fireTimer in Hs. rewrite E in Hs. discriminate.
  - unfold fireTimer in Hs. rewrite shakeError_runCallback in Hs by exact E.
    destruct (H Hs) as (due & Hin & Hb). exists due. split; trivial.
    now apply clear_stays_pending.
Qed.

Lemma shakeInv_reachable (st : AppState) : reachable' st -> shakeInv st.
Proof.
  intros H.
  apply (reachable_by_cases TEST_MODE TARGET_DATE CARDS_CONFIG FINAL_ANSWER
           sha256 shakeInv) in H; [apply H | | | |].
  - intros t0. unfold shakeInv, init. cbn. discriminate.
  - intros s s' _ _ Hpre Hus. unfold shakeInv in *.
    destruct Hus; fields s;
      try (intros Hs; destruct (Hpre Hs) as (due & Hin & Hb);
           exists due; split; trivial; apply in_or_app; now left).
    intros _. exists (now0 + 500). split; [| lia].
    apply in_or_app. right. now left.
  - intros s tm rest _ _ Hpre Hpop Hs.
    assert (Hdue : now s <= now (fire tm rest s)).
    { rewrite now_fire. lia. }
    destruct (pulse_fire (now s + 500) s tm rest Hpre Hpop Hs)
      as (due & Hin & Hb).
    exists due. split; trivial. lia.
  - intros s t _ Hpre Hn _ Hs. destruct (Hpre Hs) as (due & Hin & Hb).
    exists due. split; trivial. cbn. lia.
Qed.

(** X18. The error pulse never sticks. From every reachable state, 500 ms or
    more without an event of the user leave the pulse off, however many
    rejections came before and whenever they came. *)
Theorem error_pulse_is_off_after_500_ms_of_quiet (st : AppState) (d : Z)
    (Hreach : reachable' st) (Hd : 500 <= d) :
  shakeError (elapse TARGET_DATE CARDS_CONFIG d st) = false.
Proof.
  pose (P := fun s : AppState =>
               shakeError s = true ->
               exists due, In (due, CbClearShake) (timers s) /\
                           due <= now st + 500).
  assert (HP : P (elapse TARGET_DATE CARDS_CONFIG d st)).
  { apply elapse_invariant.
    - intros s tm rest Hs Hpop Hon. now apply pulse_fire.
    - intros s t Hs. exact Hs.
    - exact (shakeInv_reachable st Hreach). }
  destruct (shakeError (elapse TARGET_DATE CARDS_CONFIG d st)) eqn:E; trivial.
  destruct (HP E) as (due & Hin & Hb).
  apply elapse_settled in Hin. cbn [fst] in Hin. lia.
Qed.

End Pulse.

Lemma error_pulse_is_off_after_500_ms_of_quiet_witness :
  let st := Demo.play (Demo.toCarousel ++ Demo.openFirst ++
                       [App.ClickCardSubmit; App.Elapse 300;
                        App.ClickCardSubmit]) in
  App.shakeError st = true /\
  App.shakeError (App.elapse 0 Demo.cards 500 st) = false.
Proof.
  split; [vm_compute; reflexivity |].
  refine (error_pulse_is_off_after_500_ms_of_quiet false 0 Demo.cards
            Demo.finalAnswer Demo.digest _ 500 _ _).
  - eexists 10, _. reflexivity.
  - lia.
Defined.

(* ------------------------------------------------------------------ *)
(** ** The order of the steps *)

Section StepOrder.

Import Types App.

Variable TEST_MODE : bool.
Variable TARGET_DATE : Z.
Variable CARDS_CONFIG : list CardConfig.
Variable FINAL_ANSWER : string.
Variable sha256 : list byte -> list byte.

Local Abbreviation handle' :=
  (handle TARGET_DATE CARDS_CONFIG FINAL_ANSWER sha256).
Local Abbreviation reachable' :=
  (reachable TEST_MODE TARGET_DATE CARDS_CONFIG FINAL_ANSWER sha256).
Local Abbreviation fire := (fireTimer TARGET_DATE CARDS_CONFIG).
Local Abbreviation baseInv' := (baseInv CARDS_CONFIG).
Local Abbreviation lightsInv' := (lightsInv CARDS_CONFIG).
Local Abbreviation userStep' := (userStep CARDS_CONFIG FINAL_ANSWER sha256).

Lemma stepCount_app (a b : list Timer) :
  stepCount (a ++ b) = (stepCount a + stepCount b)%nat.
Proof. unfold stepCount. now rewrite filter_app, length_app. Qed.

Lemma stepCount_perm (a b : list Timer) :
  Permutation a b -> stepCount a = stepCount b.
Proof.
  unfold stepCount. induction 1 as [| x a b _ IH | x y a | a b c _ IH1 _ IH2];
    simpl; trivial.
  - destruct (isSetStep (snd x)); simpl; now rewrite IH.
  - destruct (isSetStep (snd x)), (isSetStep (snd y)); reflexivity.
  - now rewrite IH1.
Qed.

Lemma stepCount_pop (ts : list Timer) (tm : Timer) (rest : list Timer) :
  popEarliest ts = Some (tm, rest) ->
  stepCount ts = ((if isSetStep (snd tm) then 1 else 0) + stepCount rest)%nat.
Proof.
  intros H. rewrite (stepCount_perm _ _ (popEarliest_perm _ _ _ H)).
  unfold stepCount. simpl. now destruct (isSetStep (snd tm)).
Qed.

Lemma stepCount_In (ts : list Timer) (due : Z) (v : option AppStep) :
  In (due, CbSetStep v) ts -> (1 <= stepCount ts)%nat.
Proof.
  unfold stepCount. induction ts as [| tm ts IH]; simpl; [tauto |].
  intros [-> | H]; simpl; [lia |].
  destruct (isSetStep (snd tm)); simpl; specialize (IH H); lia.
Qed.

Lemma stepCount_plain (new : list Timer) :
  Forall (fun tm => isSetStep (snd tm) = false) new -> stepCount new = O.
Proof.
  unfold stepCount. induction 1 as [| tm new E _ IH]; simpl; trivial.
  now rewrite E.
Qed.

Lemma stepCount_Exists (ts : list Timer) :
  (1 <= stepCount ts)%nat -> Exists isStepTimer ts.
Proof.
  unfold stepCount. induction ts as [| [due cb] ts IH]; simpl; [lia |].
  destruct cb; simpl; intros H;
    first [ apply Exists_cons_tl; now apply IH
          | apply Exists_cons_hd; eexists; reflexivity ].
Qed.

(** The timers that are neither step timers, name fades nor animation
    callbacks. *)
Local Abbreviation plainTimer :=
  (fun tm : Timer => isSetStep (snd tm) = false /\ snd tm <> CbNameDone /\
                     isAnimCb (snd tm) = false).

Lemma plain_not_in (new : list Timer) (x : Timer) :
  Forall plainTimer new -> In x new ->
  isSetStep (snd x) = false /\ snd x <> CbNameDone /\ isAnimCb (snd x) = false.
Proof. intros H Hx. rewrite Forall_forall in H. now apply H. Qed.

(** A step that leaves the step value, the lock and the active card
    alone, keeps some pending timers and adds plain ones. *)
Lemma orderInv_plain (st st' : AppState) (kept new : list Timer) :
  orderInv st ->
  step st' = step st -> isAnimating st' = isAnimating st ->
  activeCardId st' = activeCardId st -> now st <= now st' ->
  timers st' = kept ++ new ->
  (forall x, In x kept -> In x (timers st)) ->
  (stepCount kept <= stepCount (timers st))%nat ->
  Forall plainTimer new -> orderInv st'.
Proof.
  intros (H1 & H2 & H3 & H5) Es El Ea Hn Et Hk Hc Hnew.
  assert (Hp : stepCount new = O).
  { apply stepCount_plain. eapply Forall_impl; [| exact Hnew]. now intros ? []. }
  assert (Hold : forall x, In x (kept ++ new) ->
                   In x (timers st) \/
                   (isSetStep (snd x) = false /\ snd x <> CbNameDone /\
                    isAnimCb (snd x) = false)).
  { intros x Hx. apply in_app_or in Hx as [Hx | Hx]; [left; now apply Hk |].
    right. now apply (plain_not_in new). }
  unfold orderInv, onCarouselPages. rewrite Et, Es, El, Ea, stepCount_app, Hp.
  split; [lia |]. split; [| split].
  - intros due v Hin. destruct (Hold _ Hin) as [Ho | (E & _)];
      [eapply H2; exact Ho | discriminate E].
  - intros due Hin. destruct (Hold _ Hin) as [Ho | (_ & E & _)];
      [| now contradiction E].
    destruct (H3 due Ho) as (Hp1 & Hp2 & Hp3 & Hp4).
    split; [exact Hp1 |]. split; [lia |]. split.
    + intros Hidle. specialize (Hp3 Hidle). lia.
    + intros a Ha Hanim. destruct (Hold _ Ha) as [Ho' | (_ & _ & E)];
        [now apply Hp4 | congruence].
  - intros Hact. destruct (H5 Hact) as [Hs Hz]. split; [exact Hs | lia].
Qed.

(** A step that starts or continues an animation on CAROUSEL: the
    pending timers that are kept hold no animation callback, and one is
    added, before whose commit every pending name fade is due. *)
Lemma orderInv_anim (st st' : AppState) (kept : list Timer) (a : Timer) :
  orderInv st ->
  step st' = step st -> step st = Some CAROUSEL ->
  stepCount (timers st) = O -> isAnimating st' = true ->
  timers st' = kept ++ [a] ->
  (forall x, In x kept -> In x (timers st) /\ isAnimCb (snd x) = false) ->
  (stepCount kept <= stepCount (timers st))%nat ->
  isAnimCb (snd a) = true ->
  (forall due, In (due, CbNameDone) kept ->
               due < fst a + commitAfter (snd a)) ->
  orderInv st'.
Proof.
  intros (H1 & H2 & H3 & H5) Es Ec Hz El Et Hk Hc Ha Hfade.
  assert (Hsa : isSetStep (snd a) = false) by (destruct (snd a); trivial;
                                               discriminate).
  assert (Hpa : stepCount [a] = O).
  { unfold stepCount. simpl. now rewrite Hsa. }
  unfold orderInv, onCarouselPages.
  rewrite Et, Es, El, Ec, stepCount_app, Hpa.
  split; [lia |]. split; [| split].
  - intros due v Hin. apply in_app_or in Hin as [Hin | [E | []]];
      [| rewrite E in Hsa; discriminate Hsa].
    destruct (Hk _ Hin) as [Ho _]. pose proof (stepCount_In _ _ _ Ho). lia.
  - intros due Hin. apply in_app_or in Hin as [Hin | [E | []]];
      [| rewrite E in Ha; discriminate Ha].
    split; [now right |]. split; [lia |]. split; [discriminate |].
    intros x Hx Hanim. apply in_app_or in Hx as [Hx | [E | []]].
    + destruct (Hk _ Hx) as [_ E]. congruence.
    + subst x. now apply Hfade.
  - intros _. split; [reflexivity | lia].
Qed.

Lemma full_house_no_card (st : AppState) (card : CardConfig) :
  cardInv CARDS_CONFIG st -> lightsInv' st ->
  (1 <= stepCount (timers st))%nat ->
  In card CARDS_CONFIG -> In (id card) (solvedCards (user st)).
Proof.
  intros (Hnd & Hincl & _) Hl Hc Hin.
  destruct (Hl (or_intror (stepCount_Exists _ Hc))) as [Hlen _].
  assert (Hback : incl (map id CARDS_CONFIG) (solvedCards (user st))).
  { apply NoDup_length_incl; trivial. rewrite length_map. lia. }
  apply Hback. now apply in_map.
Qed.

Local Ltac project :=
  cbn [step user isTransitioning carouselIndex activeCardId isExpanded
       isFlipped isAnimating inputName inputCardAnswer inputFinalAnswer
       shakeError isMusicPlaying isGameLive timeLeft now timers
       setStepRaw setUser setIsTransitioning setCarouselIndex setActiveCardId
       setIsExpanded setIsFlipped setIsAnimating setInputName
       setInputCardAnswer setInputFinalAnswer setShakeError setIsMusicPlaying
       setIsGameLive setTimeLeft setNow setTimers setTimeout
       requestAnimationFrame fst snd].

Local Ltac plain_list :=
  repeat (apply Forall_cons;
          [split; [reflexivity | split; [discriminate | reflexivity]] |]);
  apply Forall_nil.

Local Ltac plain_user st new :=
  apply (orderInv_plain st _ (timers st) new);
  [ assumption | reflexivity | reflexivity | reflexivity | apply Z.le_refl
  | first [reflexivity | symmetry; apply app_nil_r]
  | auto | apply Nat.le_refl | plain_list ].

Lemma orderInv_user (st st' : AppState) :
  baseInv' st -> lockInv st -> lightsInv' st -> orderInv st ->
  userStep' st st' -> orderInv st'.
Proof.
  intros (_ & Hcard & Hearly) Hlock Hlights H Hus.
  pose proof H as (H1 & H2 & H3 & H5).
  destruct Hearly as (_ & Hnone & Hhome & Hstart & Hname).
  destruct Hlock as (_ & Hl & _).
  destruct Hus.
  - (* HOME to START *)
    match goal with E : isGameLive st = true, E' : step st = _ |- _ =>
      destruct (Hhome E') as [Ht | [Hf _]]; [| congruence];
      unfold orderInv, onCarouselPages; project; rewrite Ht, E' in *
    end.
    split; [cbn; lia |]. split; [intros ? ? [] |]. split; [intros ? [] |].
    intros Hx. destruct (H5 Hx) as [E _]. discriminate E.
  - (* START to NAME *)
    match goal with E' : step st = _ |- _ =>
      pose proof (Hstart E') as Ht;
      unfold orderInv, onCarouselPages; project; rewrite Ht, E' in *
    end.
    split; [cbn; lia |]. split; [intros ? ? [] |]. split; [intros ? [] |].
    intros Hx. destruct (H5 Hx) as [E _]. discriminate E.
  - plain_user st (@nil Timer).
  - (* the name is submitted *)
    match goal with E' : step st = Some NAME |- _ =>
      pose proof (Hname E') as Hall; pose proof E' as En
    end.
    assert (Hz : animCount (timers st) = O).
    { apply animCount_none. eapply Forall_impl; [| exact Hall].
      intros x ->. reflexivity. }
    assert (Hs0 : stepCount (timers st) = O).
    { apply stepCount_plain. eapply Forall_impl; [| exact Hall].
      intros x ->. reflexivity. }
    assert (Hidle : isAnimating st = false).
    { destruct (isAnimating st); trivial. lia. }
    rewrite Forall_forall in Hall.
    unfold orderInv, onCarouselPages. project. rewrite En, Hidle.
    rewrite stepCount_app, Hs0.
    split; [cbn; lia |]. split; [| split].
    + intros due v Hin. apply in_app_or in Hin as [Hin | [E | []]];
        [| discriminate E].
      specialize (Hall _ Hin). discriminate Hall.
    + intros due Hin. split; [now left |]. split; [reflexivity |]. split.
      * intros _. apply in_app_or in Hin as [Hin | [E | []]].
        -- destruct (H3 due Hin) as (_ & _ & Hi & _). now apply Hi.
        -- injection E as <-. lia.
      * intros a Ha Hanim. apply in_app_or in Ha as [Ha | [<- | []]];
          [| discriminate Hanim].
        specialize (Hall _ Ha). rewrite Hall in Hanim. discriminate Hanim.
    + intros [Hx | Hx]; [discriminate Hx |].
      exfalso. apply Hx, Hnone. now rewrite En.
  - plain_user st (@nil Timer).
  - plain_user st (@nil Timer).
  - (* a card is opened *)
    match goal with E : isAnimating st = false |- _ => rewrite E in Hl end.
    destruct Hl as [_ Hz].
    assert (Hs0 : stepCount (timers st) = O).
    { destruct (stepCount (timers st)) eqn:E; trivial. exfalso.
      match goal with Hn : ~ In (id card) _ |- _ => apply Hn end.
      apply full_house_no_card; trivial; [lia |].
      match goal with Hv : In card (visibleCards _ _) |- _ =>
        unfold visibleCards in Hv; now apply In_slice in Hv
      end. }
    eapply (orderInv_anim st _ (timers st) (now st + 0, CbOpenFrame));
      trivial; try reflexivity.
    + intros x Hx. split; trivial. apply animCount_none in Hz.
      rewrite Forall_forall in Hz. now apply Hz.
    + intros due Hin. destruct (H3 due Hin) as (_ & _ & Hi & _).
      match goal with E : isAnimating st = false |- _ => specialize (Hi E) end.
      cbn. lia.
  - plain_user st (@nil Timer).
  - (* a card is solved *)
    match goal with E : isAnimating st = false |- _ => rewrite E in Hl end.
    destruct Hl as [_ Hz].
    assert (Ha : activeCardId st <> None) by congruence.
    destruct (H5 (or_intror Ha)) as [Ec Hs0].
    eapply (orderInv_anim st _ (timers st)
              (now st + 600, CbCloseShrink true _ _)); trivial;
      try reflexivity.
    + intros x Hx. split; trivial. apply animCount_none in Hz.
      rewrite Forall_forall in Hz. now apply Hz.
    + intros due Hin. destruct (H3 due Hin) as (_ & _ & Hi & _).
      match goal with E : isAnimating st = false |- _ => specialize (Hi E) end.
      cbn. lia.
  - (* back *)
    match goal with E : isAnimating st = false |- _ => rewrite E in Hl end.
    destruct Hl as [_ Hz].
    assert (Ha : activeCardId st <> None) by congruence.
    destruct (H5 (or_intror Ha)) as [Ec Hs0].
    eapply (orderInv_anim st _ (timers st)
              (now st + 600, CbCloseShrink false _ _)); trivial;
      try reflexivity.
    + intros x Hx. split; trivial. apply animCount_none in Hz.
      rewrite Forall_forall in Hz. now apply Hz.
    + intros due Hin. destruct (H3 due Hin) as (_ & _ & Hi & _).
      match goal with E : isAnimating st = false |- _ => specialize (Hi E) end.
      cbn. lia.
  - plain_user st [(now st + 500, CbClearShake)].
  - plain_user st (@nil Timer).
  - (* the final answer is accepted *)
    match goal with E' : step st = Some LIGHT_3 |- _ => pose proof E' as E3 end.
    assert (Hnofade : forall due, ~ In (due, CbNameDone) (timers st)).
    { intros due Hin. destruct (H3 due Hin) as ([E | E] & _); congruence. }
    assert (Hs0 : stepCount (timers st) = O).
    { destruct (stepCount (timers st)) eqn:E; trivial. exfalso.
      assert (Hex : Exists isStepTimer (timers st))
        by (apply stepCount_Exists; lia).
      apply Exists_exists in Hex as ([due cb] & Hin & v & Ecb).
      cbn in Ecb. subst cb. specialize (H2 _ _ Hin).
      rewrite E3 in H2. discriminate H2. }
    unfold orderInv, onCarouselPages. project. rewrite stepCount_app, Hs0.
    split; [cbn; lia |]. split; [| split].
    + intros due v Hin. apply in_app_or in Hin as [Hin | [E | []]].
      * pose proof (stepCount_In _ _ _ Hin). lia.
      * now injection E as _ <-.
    + intros due Hin. apply in_app_or in Hin as [Hin | [E | []]];
        [| discriminate E].
      now apply Hnofade in Hin.
    + intros Hx. destruct (H5 Hx) as [E _]. congruence.
  - plain_user st (@nil Timer).
Qed.

Lemma orderInv_fire (st : AppState) (tm : Timer) (rest : list Timer) :
  baseInv' st -> lockInv st -> orderInv st ->
  popEarliest (timers st) = Some (tm, rest) -> orderInv (fire tm rest st).
Proof.
  intros (_ & Hcard & _) Hlock H Hpop.
  pose proof H as (H1 & H2 & H3 & H5).
  destruct Hcard as (_ & _ & _ & Hone & _).
  destruct Hlock as (Ht & Hl & _).
  destruct tm as [due cb].
  pose proof (popEarliest_perm _ _ _ Hpop) as Hperm.
  assert (Hin : In (due, cb) (timers st)).
  { eapply Permutation_in; [symmetry; exact Hperm | now left]. }
  assert (Hdue : now st <= due).
  { unfold timely in Ht. rewrite Forall_forall in Ht. exact (Ht _ Hin). }
  assert (Hkept : forall x, In x rest -> In x (timers st)).
  { intros x Hx. eapply Permutation_in; [symmetry; exact Hperm | now right]. }
  assert (Hleast : forall x, In x rest -> due <= fst x).
  { intros x Hx. exact (popEarliest_least _ _ _ Hpop x (Hkept x Hx)). }
  pose proof (stepCount_pop _ _ _ Hpop) as Hsc. cbn [snd] in Hsc.
  pose proof (animCount_pop _ _ _ Hpop) as Hac. cbn [snd] in Hac.
  assert (Hanimating : isAnimCb cb = true ->
            isAnimating st = true /\ step st = Some CAROUSEL /\
            stepCount (timers st) = O /\
            (forall x, In x rest ->
                       In x (timers st) /\ isAnimCb (snd x) = false) /\
            (forall D, In (D, CbNameDone) rest ->
                       D < due + commitAfter cb)).
  { intros Ecb. rewrite Ecb in Hac.
    assert (El : isAnimating st = true).
    { destruct (isAnimating st); trivial. destruct Hl as [_ Hz]. lia. }
    rewrite El in Hone. destruct (H5 (or_introl El)) as [Ec Hs0].
    assert (Hz : animCount rest = O) by lia.
    apply animCount_none in Hz. rewrite Forall_forall in Hz.
    repeat split; trivial; try (now apply Hkept); try (now apply Hz).
    intros D HD. destruct (H3 D (Hkept _ HD)) as (_ & _ & _ & Ha).
    exact (Ha _ Hin Ecb). }
  unfold fireTimer. cbn [fst snd]. rewrite (Z.max_r _ _ Hdue).
  set (s0 := setNow due (setTimers rest st)).
  destruct cb; cbn [runCallback]; cbn [isSetStep isAnimCb] in *.
  - (* the countdown *)
    unfold countdownTick. destruct (_ <? _).
    + apply (orderInv_plain st _ rest []); trivial;
        first [symmetry; apply app_nil_r | lia | plain_list].
    + eapply (orderInv_plain st _ rest [_]); trivial;
        first [reflexivity | lia | plain_list].
  - apply (orderInv_plain st _ rest []); trivial;
      first [symmetry; apply app_nil_r | lia | plain_list].
  - (* a name fade *)
    destruct (H3 due Hin) as (Hpages & Hs0 & _ & _).
    assert (Hpost : step (setStep (AppStep_ "CAROUSEL") s0) = Some CAROUSEL)
      by apply step_setStep.
    assert (Htimers : timers (setStep (AppStep_ "CAROUSEL") s0) = rest).
    { destruct (timers_setStep_late (AppStep_ "CAROUSEL") s0)
        as (new & En & _ & Hnew).
      rewrite En, (Hnew (or_intror eq_refl)). apply app_nil_r. }
    assert (Hnow : now (setStep (AppStep_ "CAROUSEL") s0) = due)
      by (rewrite now_setStep; reflexivity).
    assert (Hrest : isAnimating (setStep (AppStep_ "CAROUSEL") s0)
                    = isAnimating st /\
                    activeCardId (setStep (AppStep_ "CAROUSEL") s0)
                    = activeCardId st).
    { destruct (setStep_cases (AppStep_ "CAROUSEL") s0) as [[_ ->] | [_ ->]];
        now split. }
    destruct Hrest as [Hra Hrb].
    unfold orderInv, onCarouselPages. project.
    rewrite Hpost, Htimers, Hnow, Hra, Hrb.
    split; [lia |]. split; [| split].
    + intros D v HD. pose proof (stepCount_In _ _ _ (Hkept _ HD)). lia.
    + intros D HD. destruct (H3 D (Hkept _ HD)) as (_ & _ & Hi & Ha).
      split; [now right |]. split; [lia |]. split.
      * intros E. specialize (Hi E). lia.
      * intros a Ha' Hanim. apply Ha; trivial. now apply Hkept.
    + intros Hx. destruct (H5 Hx) as [_ Hz]. split; [reflexivity | lia].
  - (* the frame of an opening *)
    destruct (Hanimating eq_refl) as (El & Ec & Hs0 & Hplain & Hfade).
    eapply (orderInv_anim st _ rest (due + 600, CbOpenFlip)); trivial;
      try reflexivity; [lia |].
    intros D HD. specialize (Hfade D HD). cbn in *. lia.
  - destruct (Hanimating eq_refl) as (El & Ec & Hs0 & Hplain & Hfade).
    eapply (orderInv_anim st _ rest (due + 600, CbOpenUnlock)); trivial;
      try reflexivity; [lia |].
    intros D HD. specialize (Hfade D HD). cbn in *. lia.
  - (* the lock is released *)
    destruct (Hanimating eq_refl) as (El & Ec & Hs0 & Hplain & Hfade).
    subst s0. unfold orderInv, onCarouselPages. project. rewrite Ec.
    split; [lia |]. split; [| split].
    + intros D v HD. pose proof (stepCount_In _ _ _ (Hkept _ HD)). lia.
    + intros D HD. split; [now right |]. split; [lia |]. split.
      * intros _. specialize (Hfade D HD). cbn in Hfade. lia.
      * intros a Ha Hanim. destruct (Hplain a Ha) as [_ E]. congruence.
    + intros _. split; [reflexivity | lia].
  - destruct (Hanimating eq_refl) as (El & Ec & Hs0 & Hplain & Hfade).
    eapply (orderInv_anim st _ rest (due + 600, CbCloseCommit _ _ _));
      trivial; try reflexivity; [lia |].
    intros D HD. specialize (Hfade D HD). cbn in *. lia.
  - (* the commit *)
    destruct (Hanimating eq_refl) as (El & Ec & Hs0 & Hplain & Hfade).
    assert (Hnofade : forall D, ~ In (D, CbNameDone) rest).
    { intros D HD. specialize (Hfade D HD). specialize (Hleast _ HD).
      cbn in *. lia. }
    assert (Hnostep : forall D v, ~ In (D, CbSetStep v) rest).
    { intros D v HD. pose proof (stepCount_In _ _ _ (Hkept _ HD)). lia. }
    assert (Hclosed : forall st' new,
              step st' = step st -> isAnimating st' = false ->
              activeCardId st' = None -> timers st' = rest ++ new ->
              new = [] \/ (exists d, new = [(d, CbSetStep (Some LIGHT_1))]) ->
              orderInv st').
    { intros st' new Es El' Ea Et Hnew.
      unfold orderInv, onCarouselPages. rewrite Es, El', Ea, Et, Ec.
      rewrite stepCount_app.
      assert (Hr0 : stepCount rest = O) by lia. rewrite Hr0.
      split; [| split; [| split]].
      - destruct Hnew as [-> | (d & ->)]; cbn; lia.
      - intros D v HD. apply in_app_or in HD as [HD | HD];
          [now apply Hnostep in HD |].
        destruct Hnew as [-> | (d & ->)]; [destruct HD |].
        destruct HD as [E | []]. now injection E as _ <-.
      - intros D HD. apply in_app_or in HD as [HD | HD];
          [now apply Hnofade in HD |].
        destruct Hnew as [-> | (d & ->)]; [destruct HD |].
        destruct HD as [E | []]. discriminate E.
      - intros [E | E]; [discriminate E | now contradiction E]. }
    unfold closeCommit.
    destruct active as [i |];
      [| apply (Hclosed _ []); trivial;
         first [symmetry; apply app_nil_r | now left]].
    destruct (solved && truthyId (Some i));
      [| apply (Hclosed _ []); trivial;
         first [symmetry; apply app_nil_r | now left]].
    destruct (Nat.eqb _ _).
    + eapply (Hclosed _ [_]); trivial; [reflexivity |].
      right. eexists. reflexivity.
    + apply (Hclosed _ []); trivial;
        first [symmetry; apply app_nil_r | now left].
  - (* a step timer *)
    pose proof (H2 _ _ Hin) as Hnext.
    assert (Hr0 : stepCount rest = O) by lia.
    assert (Hs1 : stepCount (timers st) = 1%nat) by lia.
    assert (Hnofade : forall D, ~ In (D, CbNameDone) rest).
    { intros D HD. destruct (H3 D (Hkept _ HD)) as (_ & Hz & _). lia. }
    assert (Hnostep : forall D v, ~ In (D, CbSetStep v) rest).
    { intros D v HD. pose proof (stepCount_In _ _ _ HD). lia. }
    assert (Hquiet : ~ (isAnimating st = true \/ activeCardId st <> None)).
    { intros Hx. destruct (H5 Hx) as [_ Hz]. lia. }
    destruct (setStep_cases target s0) as [[Es _] | [_ ->]].
    { exfalso. change (step st = target) in Es. rewrite Es in Hnext.
      destruct target as [[] |]; discriminate Hnext. }
    assert (Hgoal : forall st' new,
              step st' = target -> isAnimating st' = isAnimating st ->
              activeCardId st' = activeCardId st -> timers st' = rest ++ new ->
              new = [] \/
              (exists d w, new = [(d, CbSetStep w)] /\
                           nextStep target = Some w) ->
              orderInv st').
    { intros st' new Es El' Ea Et Hnew.
      unfold orderInv, onCarouselPages. rewrite Es, El', Ea, Et.
      rewrite stepCount_app, Hr0.
      split; [| split; [| split]].
      - destruct Hnew as [-> | (d & w & -> & _)]; cbn; lia.
      - intros D v HD. apply in_app_or in HD as [HD | HD];
          [now apply Hnostep in HD |].
        destruct Hnew as [-> | (d & w & -> & Hw)]; [destruct HD |].
        destruct HD as [E | []]. now injection E as _ <-.
      - intros D HD. apply in_app_or in HD as [HD | HD];
          [now apply Hnofade in HD |].
        destruct Hnew as [-> | (d & w & -> & Hw)]; [destruct HD |].
        destruct HD as [E | []]. discriminate E.
      - intros Hx. now contradiction Hquiet. }
    destruct target as [[] |]; cbn [lightTimers];
      try (destruct (step st) as [[] |]; discriminate Hnext);
      first [ apply (Hgoal _ []); trivial;
              first [symmetry; apply app_nil_r | now left]
            | eapply (Hgoal _ [_]); trivial; [reflexivity |];
              right; do 2 eexists; split; reflexivity ].
Qed.

Lemma stepwise_conj (Q P : AppState -> Prop) :
  stepwise TEST_MODE TARGET_DATE CARDS_CONFIG FINAL_ANSWER sha256 Q ->
  stepwise TEST_MODE TARGET_DATE CARDS_CONFIG FINAL_ANSWER sha256 P ->
  stepwise TEST_MODE TARGET_DATE CARDS_CONFIG FINAL_ANSWER sha256
    (fun s => Q s /\ P s).
Proof.
  intros HQ (P1 & P2 & P3 & P4). apply stepwise_and; trivial.
  - intros st st' HB HB' _ _ HP Hus. exact (P2 st st' HB HB' HP Hus).
  - intros st tm rest HB HB' _ _ HP Hpop. exact (P3 st tm rest HB HB' HP Hpop).
  - intros st t HB _ HP Hn Hs. exact (P4 st t HB HP Hn Hs).
Qed.

(** The invariants of the run that keep the steps in order. *)
Lemma orderInv_stepwise :
  stepwise TEST_MODE TARGET_DATE CARDS_CONFIG FINAL_ANSWER sha256
    (fun s => (lockInv s /\ lightsInv' s) /\ orderInv s).
Proof.
  apply stepwise_and.
  - apply stepwise_conj; [apply lockInv_stepwise | apply lightsInv_stepwise].
  - intros t0. unfold orderInv, onCarouselPages, init. project.
    destruct (initialGameLive _ _ _).
    + cbn. split; [lia |]. split; [intros ? ? [] |]. split; [intros ? [] |].
      intros [E | E]; [discriminate E | now contradiction E].
    + cbn. split; [lia |]. split; [| split].
      * intros ? ? [E | []]. discriminate E.
      * intros ? [E | []]. discriminate E.
      * intros [E | E]; [discriminate E | now contradiction E].
  - intros st st' HB _ [Hlock Hlights] _ H Hus.
    now apply (orderInv_user st).
  - intros st tm rest HB _ [Hlock _] _ H Hpop. now apply orderInv_fire.
  - intros st t _ _ H Hn _.
    apply (orderInv_plain st _ (timers st) []); trivial;
      first [symmetry; apply app_nil_r | lia | plain_list].
Qed.

Local Abbreviation fullInv :=
  (fun s : AppState =>
     baseInv' s /\ ((lockInv s /\ lightsInv' s) /\ orderInv s)).

Lemma fullInv_reachable (st : AppState) : reachable' st -> fullInv st.
Proof.
  apply (stepwise_reachable TEST_MODE TARGET_DATE CARDS_CONFIG FINAL_ANSWER
           sha256 _ orderInv_stepwise).
Qed.

Lemma rank_user (st st' : AppState) :
  userStep' st st' -> (stepRank (step st) <= stepRank (step st'))%nat.
Proof.
  intros Hus. destruct Hus; project; trivial;
    match goal with E : step st = _ |- _ => rewrite E end; cbn; lia.
Qed.

Lemma rank_fire (st : AppState) (tm : Timer) (rest : list Timer) :
  orderInv st -> popEarliest (timers st) = Some (tm, rest) ->
  (stepRank (step st) <= stepRank (step (fire tm rest st)))%nat.
Proof.
  intros (_ & H2 & H3 & _) Hpop.
  destruct tm as [due cb].
  assert (Hin : In (due, cb) (timers st)).
  { eapply Permutation_in;
      [symmetry; exact (popEarliest_perm _ _ _ Hpop) | now left]. }
  unfold fireTimer. cbn [fst snd].
  destruct cb; cbn [runCallback]; trivial.
  - unfold countdownTick. destruct (_ <? _); apply Nat.le_refl.
  - project. rewrite step_setStep.
    destruct (H3 _ Hin) as ([E | E] & _); rewrite E; cbn; lia.
  - unfold closeCommit. destruct active; trivial.
    destruct (_ && _); trivial. destruct (Nat.eqb _ _); apply Nat.le_refl.
  - rewrite step_setStep. specialize (H2 _ _ Hin).
    destruct (step st) as [[] |]; try discriminate H2;
      injection H2 as <-; cbn; lia.
Qed.

Lemma fullInv_handle (e : Event) (st : AppState) :
  fullInv st ->
  fullInv (handle' e st) /\
  (stepRank (step st) <= stepRank (step (handle' e st)))%nat.
Proof.
  intros HF. destruct orderInv_stepwise as (_ & Huser & Hfire & Hclock).
  assert (Hu : (forall d, e <> Elapse d) ->
               fullInv (handle' e st) /\
               (stepRank (step st) <= stepRank (step (handle' e st)))%nat).
  { intros He. destruct HF as [HB HQ].
    pose proof (baseInv_user_event TARGET_DATE CARDS_CONFIG
                  FINAL_ANSWER sha256 e st He HB) as HB'.
    destruct (handle_userStep TARGET_DATE CARDS_CONFIG FINAL_ANSWER sha256
                e st He) as [E | Hus].
    - rewrite E. split; [split; assumption | apply Nat.le_refl].
    - split; [split; [exact HB' | exact (Huser _ _ HB HB' HQ Hus)] |].
      now apply rank_user. }
  destruct e; try (apply Hu; intros ? ?; discriminate).
  cbn [handle]. destruct (0 <=? d) eqn:C; [| now split].
  apply (elapse_invariant_clock TARGET_DATE CARDS_CONFIG
           (fun s => fullInv s /\
                     (stepRank (step st) <= stepRank (step s))%nat)).
  - intros s tm rest [[HB HQ] Hr] Hpop.
    pose proof (baseInv_fire TARGET_DATE CARDS_CONFIG s tm rest HB Hpop)
      as HB'.
    split; [split; [exact HB' | exact (Hfire _ _ _ HB HB' HQ Hpop)] |].
    pose proof (rank_fire s tm rest (proj2 HQ) Hpop). lia.
  - intros s t [[HB HQ] Hr] Hn Hs.
    split; [| exact Hr].
    split; [now apply baseInv_clock | exact (Hclock _ _ HB HQ Hn Hs)].
  - now apply Z.leb_le.
  - split; [exact HF | apply Nat.le_refl].
Qed.

(** X19. The steps never go back. From a reachable state no sequence of
    events leads to a step that comes earlier in the order HOME, START,
    NAME, CAROUSEL, LIGHT_1, LIGHT_2, LIGHT_3, the value of LIGHT_4, END:
    neither a click, nor a second name fade that fires after the first,
    nor a step timer. *)
Theorem steps_never_go_back (st : AppState) (evs : list Event)
    (Hreach : reachable' st) :
  (stepRank (step st)
   <= stepRank (step (run TARGET_DATE CARDS_CONFIG FINAL_ANSWER sha256
                        evs st)))%nat.
Proof.
  pose proof (fullInv_reachable st Hreach) as HF. clear Hreach.
  revert st HF. unfold run.
  induction evs as [| e evs IH]; intros st HF; cbn [fold_left];
    [apply Nat.le_refl |].
  destruct (fullInv_handle e st HF) as [HF' Hr].
  specialize (IH _ HF'). lia.
Qed.


End StepOrder.

Lemma steps_never_go_back_witness :
  (App.stepRank (App.step (Demo.play Demo.toCarousel))
   <= App.stepRank (App.step (Demo.play Demo.wholeGame)))%nat.
Proof.
  assert (E : Demo.play Demo.wholeGame
              = App.run 0 Demo.cards Demo.finalAnswer Demo.digest
                  (Demo.solveFirst ++ Demo.solveSecond ++
                   [App.Elapse 800; App.Elapse 2500; App.Elapse 1200;
                    App.ChangeFinalAnswer " 42 "; App.ClickFinalSubmit;
                    App.Elapse 1200])
                  (Demo.play Demo.toCarousel)).
  { unfold Demo.play, Demo.wholeGame. now rewrite run_app. }
  rewrite E.
  apply (steps_never_go_back false 0 Demo.cards Demo.finalAnswer Demo.digest).
  eexists 10, _. reflexivity.
Defined.


(* ------------------------------------------------------------------ *)
(** ** Timelines from a quiet state *)

(** [flat_steps] also evaluates a step change on a known step. *)
Ltac flat_steps :=
  cbv beta iota zeta delta
    [App.setStep App.lightEffect Types.stepEq Types.AppStep_eqb
     Types.AppStep_ Types.lookupMember Types.AppStep_members
     String.eqb Ascii.eqb Bool.eqb App.step App.setStepRaw App.setTimeout
     App.setTimers App.timers App.now];
  flat.

Section Timelines.

Import Types App.

Variable TARGET_DATE : Z.
Variable CARDS_CONFIG : list CardConfig.
Variable FINAL_ANSWER : string.
Variable sha256 : list byte -> list byte.

Local Abbreviation elapse' := (elapse TARGET_DATE CARDS_CONFIG).


(** X22. Closing a card from a quiet state, by the back button ([solved] =
    false) or after an accepted answer: the card is flipped back at once,
    shrunk 600 ms later, and 600 ms after that it is no longer active and
    the lock is released. The back button leaves the solved list, the step
    and the timers as they were, for good; after an accepted answer the
    step stays for at least 2000 ms. *)
Theorem close_flips_then_shrinks_then_releases
    (st : AppState) (solved : bool)
    (Hfree : isAnimating st = false) (Hquiet : timers st = []) :
  let s1 := closeCard solved st in
  isAnimating s1 = true /\ isFlipped s1 = false /\
  (forall d, 0 <= d < 600 ->
     let s := elapse' d s1 in
     isExpanded s = isExpanded st /\ isFlipped s = false /\
     isAnimating s = true /\ activeCardId s = activeCardId st) /\
  (forall d, 600 <= d < 1200 ->
     let s := elapse' d s1 in
     isExpanded s = false /\ isFlipped s = false /\
     isAnimating s = true /\ activeCardId s = activeCardId st) /\
  (forall d, 1200 <= d -> solved = false \/ d < 2000 ->
     let s := elapse' d s1 in
     isExpanded s = false /\ isFlipped s = false /\
     isAnimating s = false /\ activeCardId s = None /\ step s = step st /\
     (solved = false -> user s = user st /\ timers s = [])).
Proof.
  intros s1. subst s1. name_fields st. flat.
  split; [reflexivity |]. split; [reflexivity |].
  split; [| split]; [intros d Hd | intros d Hd | intros d Hd Hs]; cbv zeta.
  - elapse_at d 0%nat ltac:(stop_clock; reflexivity).
    now repeat split.
  - elapse_at d 1%nat ltac:(fire_next; stop_clock; reflexivity).
    now repeat split.
  - destruct solved.
    + destruct Hs as [Hs | Hs]; [discriminate Hs |].
      destruct activeCardId0 as [j |].
      * destruct (j =? 0) eqn:Ej.
        -- elapse_at d 2%nat ltac:(do 2 fire_next; rewrite Ej;
                                   stop_clock; reflexivity).
           repeat split; discriminate.
        -- destruct (Nat.eqb (List.length (solvedCards user0 ++ [j]))
                       (List.length CARDS_CONFIG)) eqn:EN.
           ++ elapse_at d 2%nat ltac:(do 2 fire_next; rewrite Ej, EN;
                                      stop_clock; reflexivity).
              repeat split; discriminate.
           ++ elapse_at d 2%nat ltac:(do 2 fire_next; rewrite Ej, EN;
                                      stop_clock; reflexivity).
              repeat split; discriminate.
      * elapse_at d 2%nat ltac:(do 2 fire_next; stop_clock; reflexivity).
        repeat split; discriminate.
    + destruct activeCardId0 as [j |];
        elapse_at d 2%nat ltac:(do 2 fire_next; stop_clock; reflexivity);
        now repeat split.
Qed.

(** X23. The lights follow the clock. Entered from a quiet state, LIGHT_1
    gives way to LIGHT_2 after 2500 ms and LIGHT_2 to LIGHT_3 after another
    1200 ms; LIGHT_3 then stays, with nothing pending, until the final
    answer is accepted, which sets the value of LIGHT_4 at once and END
    1200 ms later, for good. *)
Theorem light_steps_follow_the_clock (st : AppState)
    (Hquiet : timers st = []) :
  (step st <> Some LIGHT_1 ->
   let s1 := setStep (Some LIGHT_1) st in
   (forall d, 0 <= d < 2500 -> step (elapse' d s1) = Some LIGHT_1) /\
   (forall d, 2500 <= d < 3700 -> step (elapse' d s1) = Some LIGHT_2) /\
   (forall d, 3700 <= d ->
      step (elapse' d s1) = Some LIGHT_3 /\ timers (elapse' d s1) = [])) /\
  (step st = Some LIGHT_3 ->
   answerMatches sha256 (inputFinalAnswer st) FINAL_ANSWER = true ->
   let s2 := submitFinalAnswer FINAL_ANSWER sha256 st in
   step s2 = AppStep_ "LIGHT_4" /\
   (forall d, 0 <= d < 1200 -> step (elapse' d s2) = AppStep_ "LIGHT_4") /\
   (forall d, 1200 <= d ->
      step (elapse' d s2) = Some END /\ timers (elapse' d s2) = [])).
Proof.
  split.
  - intros Hne s1. subst s1.
    assert (E : stepEq (step st) (Some LIGHT_1) = false).
    { destruct (stepEq (step st) (Some LIGHT_1)) eqn:E; trivial.
      apply stepEq_eq in E. contradiction. }
    unfold setStep. rewrite E. clear E Hne. name_fields st. flat_steps.
    split; [| split]; intros d Hd.
    + elapse_at d 0%nat ltac:(stop_clock; reflexivity). reflexivity.
    + elapse_at d 1%nat ltac:(fire_next; flat_steps; stop_clock; reflexivity).
      reflexivity.
    + elapse_at d 2%nat ltac:(fire_next; flat_steps; fire_next; flat_steps;
                              stop_clock; reflexivity).
      now split.
  - intros Hs Hm s2. subst s2. unfold submitFinalAnswer. rewrite Hm.
    clear Hm. name_fields st. flat_steps.
    split; [reflexivity |].
    split; intros d Hd.
    + elapse_at d 0%nat ltac:(stop_clock; reflexivity). reflexivity.
    + elapse_at d 1%nat ltac:(fire_next; flat_steps; stop_clock; reflexivity).
      now split.
Qed.

End Timelines.


Lemma close_flips_then_shrinks_then_releases_witness :
  let st := Demo.play (Demo.toCarousel ++ Demo.openFirst) in
  App.isAnimating st = false /\ App.timers st = [] /\
  App.activeCardId (App.elapse 0 Demo.cards 1200 (App.closeCard false st))
    = None.
Proof.
  split; [reflexivity |]. split; [reflexivity |].
  refine (proj1 (proj2 (proj2 (proj2 (proj2 (proj2 (proj2 (proj2
            (close_flips_then_shrinks_then_releases 0 Demo.cards
               (Demo.play (Demo.toCarousel ++ Demo.openFirst)) false
               eq_refl eq_refl)))) 1200 _ _))))).
  - lia.
  - now left.
Defined.

Lemma light_steps_follow_the_clock_witness :
  let st := Demo.play Demo.toCarousel in
  App.timers st = [] /\ App.step st <> Some Types.LIGHT_1 /\
  App.step (App.elapse 0 Demo.cards 2500
              (App.setStep (Some Types.LIGHT_1) st)) = Some Types.LIGHT_2.
Proof.
  split; [reflexivity |]. split; [discriminate |].
  refine (proj1 (proj2 (proj1 (light_steps_follow_the_clock 0 Demo.cards
                                 Demo.finalAnswer Demo.digest
                                 (Demo.play Demo.toCarousel) eq_refl) _))
            2500 _).
  - discriminate.
  - lia.
Defined.

(* ------------------------------------------------------------------ *)
(** ** The outcomes of a card submit *)

Section CardSubmit.

Import Types App.

Variable TEST_MODE : bool.
Variable TARGET_DATE : Z.
Variable CARDS_CONFIG : list CardConfig.
Variable FINAL_ANSWER : string.
Variable sha256 : list byte -> list byte.

Local Abbreviation handle' :=
  (handle TARGET_DATE CARDS_CONFIG FINAL_ANSWER sha256).
Local Abbreviation reachable' :=
  (reachable TEST_MODE TARGET_DATE CARDS_CONFIG FINAL_ANSWER sha256).

Lemma find_active_card (i : Z) :
  In i (map id CARDS_CONFIG) ->
  exists card,
    find (fun c => optZ_eqb (Some i) (id c)) CARDS_CONFIG = Some card /\
    id card = i.
Proof.
  induction CARDS_CONFIG as [| c l IH]; simpl; [tauto |].
  intros [E | H].
  - exists c. rewrite E, Z.eqb_refl. now split.
  - destruct (i =? id c) eqn:Ei.
    + exists c. split; trivial. apply Z.eqb_eq in Ei. now symmetry.
    + now apply IH.
Qed.

(** X24. What the confirm button of an open card does. In a reachable state
    that shows the card overlay the active card is a card of the
    configuration, so the submit is never dropped for want of a card: a
    wrong answer always starts the error pulse, the lock held or not; a
    right answer starts the closing animation when the lock is free, and
    is dropped without any sign when the lock is held. *)
Theorem card_submit_closes_shakes_or_is_dropped (st : AppState)
    (Hreach : reachable' st) (Hshown : cardOverlayShown st = true) :
  exists card,
    find (fun c => optZ_eqb (activeCardId st) (id c)) CARDS_CONFIG
      = Some card /\
    activeCardId st = Some (id card) /\ step st = Some CAROUSEL /\
    (answerMatches sha256 (inputCardAnswer st) (answer card) = false ->
     handle' ClickCardSubmit st = handleError st) /\
    (answerMatches sha256 (inputCardAnswer st) (answer card) = true ->
     isAnimating st = false ->
     handle' ClickCardSubmit st = closeCard true st /\
     isAnimating (handle' ClickCardSubmit st) = true) /\
    (answerMatches sha256 (inputCardAnswer st) (answer card) = true ->
     isAnimating st = true -> handle' ClickCardSubmit st = st).
Proof.
  destruct (cardInv_reachable _ _ _ _ _ st Hreach) as (_ & _ & Ha & _).
  destruct (overlayShown st Hshown) as [_ Hact].
  destruct (activeCardId st) as [i |] eqn:Ei; [| congruence].
  destruct (Ha i eq_refl) as [_ Hin].
  destruct (find_active_card i Hin) as (card & Hf & Hid).
  exists card. rewrite Hid. split; [exact Hf |]. split; [reflexivity |].
  split.
  { destruct (fullInv_reachable TEST_MODE TARGET_DATE CARDS_CONFIG
                FINAL_ANSWER sha256 st Hreach) as (_ & _ & _ & _ & _ & H5).
    apply H5. right. congruence. }
  cbn [handle]. rewrite Hshown. unfold submitCardAnswer. rewrite Ei, Hf.
  split; [| split].
  - now intros ->.
  - intros -> Hl. unfold closeCard. rewrite Hl. now split.
  - intros -> Hl. unfold closeCard. now rewrite Hl.
Qed.

End CardSubmit.

Lemma card_submit_closes_shakes_or_is_dropped_witness :
  let st := Demo.play (Demo.toCarousel ++ [App.ClickCard 0%nat;
                                           App.ChangeCardAnswer "abc"]) in
  App.isAnimating st = true /\
  App.handle 0 Demo.cards Demo.finalAnswer Demo.digest App.ClickCardSubmit st
    = st.
Proof.
  split; [reflexivity |].
  destruct (card_submit_closes_shakes_or_is_dropped false 0 Demo.cards
              Demo.finalAnswer Demo.digest
              (Demo.play (Demo.toCarousel ++ [App.ClickCard 0%nat;
                                              App.ChangeCardAnswer "abc"])))
    as (card & Hf & _ & _ & _ & _ & Hdrop).
  - eexists 10, _. reflexivity.
  - reflexivity.
  - apply Hdrop; [| reflexivity].
    vm_compute in Hf. injection Hf as <-. vm_compute. reflexivity.
Defined.

(* ------------------------------------------------------------------ *)
(** ** A second name submit during the fade *)

Section NameTwice.

Import Types App.

Variable TARGET_DATE : Z.
Variable CARDS_CONFIG : list CardConfig.

Local Abbreviation elapse' := (elapse TARGET_DATE CARDS_CONFIG).

(** X25. A second submit of the name while the fade of the first is
    pending: the profile takes the new trimmed name at once and a second
    fade is armed, but the first one is neither cancelled nor delayed. The
    step becomes CAROUSEL when the first fade is due, less than 1000 ms
    after the second submit, with the new name; the second fade then finds
    the step CAROUSEL and changes nothing but the fade flag, which is off
    already. *)
Theorem second_name_submit_keeps_the_first_fade
    (st : AppState) (due : Z)
    (Hstep : step st = Some NAME)
    (Hfade : timers st = [(due, CbNameDone)])
    (Hdue : now st <= due < now st + 1000)
    (Hname : Js.allWhite (inputName st) = false) :
  let s1 := handleNameSubmit st in
  name (user s1) = Js.trim (inputName st) /\
  timers s1 = [(due, CbNameDone); (now st + 1000, CbNameDone)] /\
  (forall d, 0 <= d < due - now st -> step (elapse' d s1) = Some NAME) /\
  (forall d, due - now st <= d < 1000 ->
     let s := elapse' d s1 in
     step s = Some CAROUSEL /\ isTransitioning s = false /\
     name (user s) = Js.trim (inputName st) /\
     timers s = [(now st + 1000, CbNameDone)]) /\
  (forall d, 1000 <= d ->
     let s := elapse' d s1 in
     step s = Some CAROUSEL /\ isTransitioning s = false /\
     name (user s) = Js.trim (inputName st) /\ timers s = []).
Proof.
  intros s1. subst s1. unfold handleNameSubmit.
  rewrite (trim_not_white _ Hname). cbn [negb]. clear Hname.
  name_fields st. flat.
  split; [reflexivity |]. split; [reflexivity |].
  split; [| split]; intros d Hd; cbv zeta.
  - elapse_at d 0%nat ltac:(stop_clock; reflexivity). reflexivity.
  - elapse_at d 1%nat ltac:(fire_next; flat_steps; stop_clock; reflexivity).
    now repeat split.
  - elapse_at d 2%nat ltac:(fire_next; flat_steps; fire_next; flat_steps;
                            stop_clock; reflexivity).
    now repeat split.
Qed.

End NameTwice.

Lemma second_name_submit_keeps_the_first_fade_witness :
  let st := App.handle 0 Demo.cards Demo.finalAnswer Demo.digest
              (App.ChangeName "Sam")
              (Demo.play [App.ClickHome; App.ClickStart;
                          App.ChangeName " Alex "; App.ClickNameSubmit;
                          App.Elapse 400]) in
  App.timers st = [(1010, App.CbNameDone)] /\
  App.step (App.elapse 0 Demo.cards 600 (App.handleNameSubmit st))
    = Some Types.CAROUSEL /\
  Types.name (App.user (App.elapse 0 Demo.cards 600 (App.handleNameSubmit st)))
    = "Sam".
Proof.
  split; [reflexivity |].
  destruct (second_name_submit_keeps_the_first_fade 0 Demo.cards
              (App.handle 0 Demo.cards Demo.finalAnswer Demo.digest
                 (App.ChangeName "Sam")
                 (Demo.play [App.ClickHome; App.ClickStart;
                             App.ChangeName " Alex "; App.ClickNameSubmit;
                             App.Elapse 400]))
              1010 eq_refl eq_refl ltac:(vm_compute; split; congruence)
              eq_refl) as (_ & _ & _ & H & _).
  destruct (H 600 ltac:(vm_compute; split; congruence)) as (H1 & _ & H3 & _).
  split; [exact H1 | exact H3].
Defined.
